(** * Verification of the JIRA export masseur

    A shallow embedding of [jira_export/masseur.py] (class [Masseur]) and
    of the library calls it is made of: [re.sub], the lxml element tree
    with [findall], [parse] and [tostring], and the archive and file
    operations on the workspace. *)

From Stdlib Require Import String Ascii NArith.
From stdpp Require Import base option list gmap.

Set Default Proof Using "Type".
Open Scope N_scope.
Open Scope list_scope.

(** ** Python [str]: a sequence of Unicode code points *)

Abbreviation str := (list N).

(** [u "abc"] is the Python literal ['abc'] (ASCII only; other code
    points are written as numbers). *)
Definition u (s : string) : str :=
  (λ a, N_of_ascii a) <$> list_ascii_of_string s.

Module Re.
(** ** [re.sub], for the patterns the program builds

    The program calls [re.sub(pattern, repl, string)] with seven fixed
    patterns and with [' {} '.format(username)], where the user name comes
    from the configuration and is read by [re] as a regular expression.
    The model covers the patterns made of ordinary characters, of [.] and
    of escaped punctuation; every atom consumes exactly one character.
    [compile] answers [None] on any other construct (anchors, repetition,
    classes, groups, alternation, letter and digit escapes), and
    [template] answers [None] on a replacement holding a backslash. *)

Inductive atom :=
  | Lit (c : N)   (* this very character *)
  | Dot.          (* [.]: any character but the newline *)

Definition atom_matches (a : atom) (c : N) : bool :=
  match a with
  | Lit d => bool_decide (c = d)
  | Dot => negb (bool_decide (c = 10))
  end.

Definition backslash : N := 92.

(** The characters [re] gives a meaning to. *)
Definition is_special (c : N) : bool :=
  bool_decide (c ∈ u ".^$*+?{}[]|()" ++ [backslash]).

Definition is_ascii_alnum (c : N) : bool :=
  ((48 <=? c) && (c <=? 57)) || ((65 <=? c) && (c <=? 90))
  || ((97 <=? c) && (c <=? 122)).

Fixpoint compile (pattern : str) : option (list atom) :=
  match pattern with
  | [] => Some []
  | c :: rest =>
      if bool_decide (c = backslash) then
        match rest with
        | d :: rest' =>
            if is_ascii_alnum d then None
            else (Lit d ::.) <$> compile rest'
        | [] => None
        end
      else if bool_decide (c = 46) then (Dot ::.) <$> compile rest
      else if is_special c then None
      else (Lit c ::.) <$> compile rest
  end.

Definition template (repl : str) : option str :=
  if bool_decide (backslash ∈ repl) then None else Some repl.

(** [match_at p s]: the pattern matches at the start of [s]. *)
Fixpoint match_at (p : list atom) (s : str) : bool :=
  match p, s with
  | [], _ => true
  | a :: p', c :: s' => atom_matches a c && match_at p' s'
  | _ :: _, [] => false
  end.

(** The scan of [re.sub]: leftmost matches that do not overlap, each
    replaced by [repl], the characters between them copied. [skip] counts
    the characters of the current match still to be passed over. An empty
    pattern matches before every character and at the end. *)
Fixpoint scan (p : list atom) (repl : str) (s : str) (skip : nat) : str :=
  match s with
  | [] => match p with [] => repl | _ :: _ => [] end
  | c :: tl =>
      match skip with
      | S k => scan p repl tl k
      | O =>
          if match_at p s then
            match length p with
            | O => repl ++ c :: scan p repl tl 0
            | S n => repl ++ scan p repl tl n
            end
          else c :: scan p repl tl 0
      end
  end.

Definition sub (pattern repl s : str) : option str :=
  p ← compile pattern;
  r ← template repl;
  Some (scan p r s 0).

End Re.

(** ** Python [dict] of strings

    A dict is the list of its items in insertion order; its keys are
    distinct. Iterating a dict and indexing it by the key it yields is
    iterating its items. *)

Abbreviation dict := (list (str * str)).

Fixpoint dict_get (k : str) (d : dict) : option str :=
  match d with
  | [] => None
  | (k', v) :: d' => if decide (k' = k) then Some v else dict_get k d'
  end.

(** [d[k] = v] on a dict: an existing key keeps its place. *)
Fixpoint dict_set (k v : str) (d : dict) : dict :=
  match d with
  | [] => [(k, v)]
  | (k', x) :: d' =>
      if decide (k' = k) then (k', v) :: d' else (k', x) :: dict_set k v d'
  end.

Module Etree.
(** ** The lxml element tree

    An element has a tag, attributes in document order, the text before
    its first child, its children and the tail text after its end tag; a
    comment has a body and a tail. [text] and [tail] are [None] where lxml
    has [None]. The mutable fields of an element are its [header]; the
    program never changes the shape of a tree. *)

Record header := Header {
  tag : str;
  attrib : dict;
  text : option str;
  tail : option str
}.

Inductive node :=
  | Element (h : header) (children : list node)
  | Comment (body : str) (ctail : option str).

Definition set_text (t : option str) (h : header) : header :=
  Header (tag h) (attrib h) t (tail h).

Definition set_attrib (name v : str) (h : header) : header :=
  Header (tag h) (dict_set name v (attrib h)) (text h) (tail h).

(** An element is referred to by the child indices leading to it from
    the root: the model's element reference. *)
Abbreviation path := (list nat).

Fixpoint node_at (p : path) (n : node) : option node :=
  match p with
  | [] => Some n
  | i :: p' =>
      match n with
      | Element _ ch => c ← ch !! i; node_at p' c
      | Comment _ _ => None
      end
  end.

Definition self_path (i : nat) (c : node) : list path :=
  match c with Element _ _ => [[i]] | Comment _ _ => [] end.

Fixpoint walk (f : node → list path) (i : nat) (l : list node) : list path :=
  match l with
  | [] => []
  | c :: l' => self_path i c ++ ((i ::.) <$> f c) ++ walk f (S i) l'
  end.

(** [iterdescendants]: the elements below [n] in document order, [n]
    itself left out, comments skipped. *)
Fixpoint iterdescendants (n : node) : list path :=
  match n with
  | Element _ ch => walk iterdescendants 0 ch
  | Comment _ _ => []
  end.

Definition selects (sel : header → bool) (root : node) (p : path) : bool :=
  match node_at p root with
  | Some (Element h _) => sel h
  | _ => false
  end.

(** [root.findall('.//' + step)]: the descendants of the root that pass
    the step's test, as a list made before the loop body runs. *)
Definition findall (sel : header → bool) (root : node) : list path :=
  filter (λ p, selects sel root p = true) (iterdescendants root).

(** ['.//' + name] *)
Definition has_tag (name : str) (h : header) : bool :=
  bool_decide (tag h = name).

(** ['.//*[@name]'] *)
Definition has_attr (name : str) (h : header) : bool :=
  bool_decide (is_Some (dict_get name (attrib h))).

(** The loop body run on the element a reference points to. *)
Fixpoint alter_at (f : header → option header) (p : path) (n : node)
  : option node :=
  match n with
  | Comment _ _ => None
  | Element h ch =>
      match p with
      | [] => h' ← f h; Some (Element h' ch)
      | i :: p' =>
          c ← ch !! i;
          c' ← alter_at f p' c;
          Some (Element h (<[i := c']> ch))
      end
  end.

(** [for elem in refs: body(elem)] *)
Fixpoint for_each (f : header → option header) (refs : list path)
  (root : node) : option node :=
  match refs with
  | [] => Some root
  | p :: refs' => root' ← alter_at f p root; for_each f refs' root'
  end.

(** [for name in names: body(root, name)] *)
Fixpoint for_names (body : str → node → option node) (names : list str)
  (root : node) : option node :=
  match names with
  | [] => Some root
  | a :: names' => root' ← body a root; for_names body names' root'
  end.

End Etree.
Import Etree.

(** ** The rewriting passes of [update_config] and [update_entities] *)

Definition CONFIG_TAGS : list str :=
  [u"administratorUser"; u"author"; u"lead"; u"memberUser"; u"owner";
   u"username"].

Definition IDENTITY_ATTRS : list str :=
  [u"author"; u"authorKey"; u"caller"; u"creator"; u"deltaFrom";
   u"deltaTo"; u"entityId"; u"lead"; u"lowerChildName"; u"lowerUserName";
   u"newvalue"; u"objectName"; u"oldvalue"; u"owner";
   u"roletypeparameter"; u"sourceName"; u"updateauthor"; u"user";
   u"username"].

Definition QUOTE_ATTRS : list str :=
  [u"author"; u"body"; u"data"; u"deltaTo"; u"description";
   u"infoMessage"; u"name"; u"newstring"; u"oldstring"; u"searchField";
   u"summary"; u"title"].

(** The code points standing for form feed, carriage return and the
    single quote while the document is a tree. *)
Definition FF : N := 0x0c.
Definition CR : N := 0x0d.
Definition QUOTE : N := 0x27.
Definition SENTINEL_FF : N := 0x2622.
Definition SENTINEL_CR : N := 0x2623.
Definition SENTINEL_QUOTE : N := 0x2624.

(** Body of the loop of [_update_children]. *)
Definition update_child (user_name_map : dict) (h : header)
  : option header :=
  match text h with
  | None => Some h
  | Some t =>
      match dict_get t user_name_map with
      | None => Some h
      | Some new => Some (set_text (Some new) h)
      end
  end.

Definition _update_children (user_name_map : dict) (name : str)
  (root : node) : option node :=
  for_each (update_child user_name_map) (findall (has_tag name) root) root.

(** The tree part of [update_config]. *)
Definition config_pass (user_name_map : dict) (root : node) : option node :=
  for_names (_update_children user_name_map) CONFIG_TAGS root.

(** One turn of [for username in self.user_name_map] on an attribute
    value. *)
Definition rewrite_value (username new v : str) : option str :=
  if decide (v = username) then Some new
  else Re.sub (u" " ++ username ++ u" ") (u" " ++ new ++ u" ") v.

Fixpoint rewrite_values (items : dict) (v : str) : option str :=
  match items with
  | [] => Some v
  | (username, new) :: items' =>
      v' ← rewrite_value username new v; rewrite_values items' v'
  end.

(** Body of the outer loop of [_update_attributes]. *)
Definition update_attribute (user_name_map : dict) (name : str)
  (h : header) : option header :=
  v ← dict_get name (attrib h);
  v' ← rewrite_values user_name_map v;
  Some (set_attrib name v' h).

Definition _update_attributes (user_name_map : dict) (name : str)
  (root : node) : option node :=
  for_each (update_attribute user_name_map name)
    (findall (has_attr name) root) root.

(** [elem.set(attr, sub("'", '☤', elem.get(attr)))] *)
Definition protect_quotes (name : str) (h : header) : option header :=
  v ← dict_get name (attrib h);
  v' ← Re.sub [QUOTE] [SENTINEL_QUOTE] v;
  Some (set_attrib name v' h).

Definition _protect_quotes (name : str) (root : node) : option node :=
  for_each (protect_quotes name) (findall (has_attr name) root) root.

(** The first [for attr in ...] loop of [update_entities]. *)
Definition identity_pass (user_name_map : dict) (root : node) : option node :=
  for_names (_update_attributes user_name_map) IDENTITY_ATTRS root.

(** The second [for attr in ...] loop of [update_entities]. *)
Definition quote_pass (root : node) : option node :=
  for_names _protect_quotes QUOTE_ATTRS root.

(** The tree part of [update_entities]: both loops. *)
Definition entities_pass (user_name_map : dict) (root : node)
  : option node :=
  root' ← identity_pass user_name_map root;
  quote_pass root'.

Module Xml.
(** ** [lxml.etree.tostring] and [lxml.etree.parse]

    [tostring] writes a tree the way libxml2 does for [encoding=str]:
    attributes in double quotes, the five markup characters and the line
    characters escaped, an element without text and children as an empty
    tag, every other code point as it is.

    [parse] reads the documents built from an optional XML declaration
    (the one the program writes), one root element, elements, attributes
    in either quote, character data, comments inside the root and the five
    predefined entity references. It answers [None] on a document that is
    not well formed and on the constructs not listed (CDATA sections,
    processing instructions, a DOCTYPE, character references, comments
    outside the root, names beyond ASCII). *)

Definition LT : N := 60.
Definition GT : N := 62.
Definition AMP : N := 38.
Definition DQUOTE : N := 34.
Definition SLASH : N := 47.
Definition LF : N := 10.
Definition TAB : N := 9.
Definition SPACE : N := 32.

Definition escape_text_char (c : N) : str :=
  if bool_decide (c = AMP) then u"&amp;"
  else if bool_decide (c = LT) then u"&lt;"
  else if bool_decide (c = GT) then u"&gt;"
  else if bool_decide (c = CR) then u"&#13;"
  else [c].

Definition escape_attr_char (c : N) : str :=
  if bool_decide (c = AMP) then u"&amp;"
  else if bool_decide (c = LT) then u"&lt;"
  else if bool_decide (c = GT) then u"&gt;"
  else if bool_decide (c = DQUOTE) then u"&quot;"
  else if bool_decide (c = LF) then u"&#10;"
  else if bool_decide (c = CR) then u"&#13;"
  else if bool_decide (c = TAB) then u"&#9;"
  else [c].

Definition escape_text (s : str) : str := concat (escape_text_char <$> s).
Definition escape_attr (s : str) : str := concat (escape_attr_char <$> s).

Definition tostring_attr (a : str * str) : str :=
  [SPACE] ++ a.1 ++ u"=" ++ [DQUOTE] ++ escape_attr a.2 ++ [DQUOTE].

Definition tostring_attrs (d : dict) : str := concat (tostring_attr <$> d).

Definition tostring_opt (t : option str) : str := escape_text (default [] t).

Fixpoint tostring_node (n : node) : str :=
  match n with
  | Element h ch =>
      [LT] ++ tag h ++ tostring_attrs (attrib h)
      ++ match text h, ch with
         | None, [] => u"/>"
         | _, _ =>
             [GT] ++ tostring_opt (text h)
             ++ concat (tostring_node <$> ch)
             ++ u"</" ++ tag h ++ [GT]
         end
      ++ tostring_opt (tail h)
  | Comment body t => u"<!--" ++ body ++ u"-->" ++ tostring_opt t
  end.

(** [tostring(tree, encoding=str)] *)
Definition tostring (root : node) : str := tostring_node root.

(** *** The parser *)

Definition is_space (c : N) : bool :=
  bool_decide (c = SPACE) || bool_decide (c = TAB) || bool_decide (c = LF).

(** The [Char] production of XML 1.0. *)
Definition is_xml_char (c : N) : bool :=
  bool_decide (c = TAB) || bool_decide (c = LF) || bool_decide (c = CR)
  || ((0x20 <=? c) && (c <=? 0xD7FF))
  || ((0xE000 <=? c) && (c <=? 0xFFFD))
  || ((0x10000 <=? c) && (c <=? 0x10FFFF)).

(** A character of character data, of an attribute value or of a
    comment: no carriage return is left once the line ends are
    normalised. *)
Definition is_content_char (c : N) : bool :=
  is_xml_char c && negb (bool_decide (c = CR)).

Definition is_letter (c : N) : bool :=
  ((65 <=? c) && (c <=? 90)) || ((97 <=? c) && (c <=? 122)).

Definition is_name_start (c : N) : bool :=
  is_letter c || bool_decide (c = 95) || bool_decide (c = 58).

Definition is_name_char (c : N) : bool :=
  is_name_start c || ((48 <=? c) && (c <=? 57))
  || bool_decide (c = 45) || bool_decide (c = 46).

(** Line ends are normalised before anything else is read. *)
Fixpoint normalize_newlines (s : str) : str :=
  match s with
  | [] => []
  | c :: tl =>
      if bool_decide (c = CR) then
        match tl with
        | d :: _ =>
            if bool_decide (d = LF) then normalize_newlines tl
            else LF :: normalize_newlines tl
        | [] => [LF]
        end
      else c :: normalize_newlines tl
  end.

Fixpoint span (f : N → bool) (s : str) : str * str :=
  match s with
  | [] => ([], [])
  | c :: tl =>
      if f c then let '(a, b) := span f tl in (c :: a, b) else ([], s)
  end.

Definition skip_ws (s : str) : str := (span is_space s).2.

Definition starts_with (p s : str) : bool := bool_decide (p `prefix_of` s).

(** [expect p s]: the rest of [s] after the literal [p]. *)
Definition expect (p s : str) : option str :=
  if starts_with p s then Some (drop (length p) s) else None.

Definition parse_name (s : str) : option (str * str) :=
  let '(name, rest) := span is_name_char s in
  match name with
  | c :: _ => if is_name_start c then Some (name, rest) else None
  | [] => None
  end.

(** After the ampersand: one of the five predefined entities. *)
Definition parse_entity (s : str) : option (N * str) :=
  if starts_with (u"lt;") s then Some (LT, drop 3 s)
  else if starts_with (u"gt;") s then Some (GT, drop 3 s)
  else if starts_with (u"amp;") s then Some (AMP, drop 4 s)
  else if starts_with (u"quot;") s then Some (DQUOTE, drop 5 s)
  else if starts_with (u"apos;") s then Some (QUOTE, drop 5 s)
  else None.

(** Character data or an attribute value without its references. *)
Fixpoint unescape (fuel : nat) (s : str) : option str :=
  match s with
  | [] => Some []
  | c :: tl =>
      match fuel with
      | O => None
      | S fuel' =>
          if bool_decide (c = AMP) then
            '(d, rest) ← parse_entity tl;
            (d ::.) <$> unescape fuel' rest
          else if is_content_char c && negb (bool_decide (c = LT)) then
            (c ::.) <$> unescape fuel' tl
          else None
      end
  end.

Fixpoint occurs (p s : str) : bool :=
  starts_with p s || match s with [] => false | _ :: tl => occurs p tl end.

(** Character data up to the next tag; [None] for no text, as lxml. *)
Definition parse_text (s : str) : option (option str * str) :=
  let '(raw, rest) := span (λ c, negb (bool_decide (c = LT))) s in
  if occurs (u"]]>") raw then None
  else
    t ← unescape (length raw) raw;
    Some (match t with [] => None | _ :: _ => Some t end, rest).

Definition normalize_attr_char (c : N) : N :=
  if bool_decide (c = TAB) || bool_decide (c = LF) then SPACE else c.

(** After the opening quote [q]: the value and what follows the closing
    quote. *)
Definition parse_attvalue (q : N) (s : str) : option (str * str) :=
  let '(raw, rest) := span (λ c, negb (bool_decide (c = q))) s in
  match rest with
  | [] => None
  | _ :: rest' =>
      v ← unescape (length raw) (normalize_attr_char <$> raw);
      Some (v, rest')
  end.

Definition parse_attribute (s : str) : option (str * str * str) :=
  '(name, s1) ← parse_name s;
  s2 ← expect (u"=") (skip_ws s1);
  match skip_ws s2 with
  | q :: s3 =>
      if bool_decide (q = DQUOTE) || bool_decide (q = QUOTE) then
        '(v, s4) ← parse_attvalue q s3;
        Some (name, v, s4)
      else None
  | [] => None
  end.

(** The attributes of a start tag and its end: [true] for [/>]. *)
Fixpoint parse_attrs (fuel : nat) (s : str) : option (dict * bool * str) :=
  match fuel with
  | O => None
  | S fuel' =>
      let s1 := skip_ws s in
      if starts_with (u"/>") s1 then Some ([], true, drop 2 s1)
      else if starts_with [GT] s1 then Some ([], false, drop 1 s1)
      else if bool_decide (length s1 = length s) then None
      else
        '(name, v, s2) ← parse_attribute s1;
        '(more, closed, s3) ← parse_attrs fuel' s2;
        if bool_decide (is_Some (dict_get name more)) then None
        else Some ((name, v) :: more, closed, s3)
  end.

(** After [<!--]: the body and what follows [-->]. *)
Fixpoint parse_comment (s : str) : option (str * str) :=
  match s with
  | [] => None
  | c :: tl =>
      if starts_with (u"-->") s then Some ([], drop 3 s)
      else if starts_with (u"--") s then None
      else if is_content_char c then
        '(body, rest) ← parse_comment tl; Some (c :: body, rest)
      else None
  end.

(** After [</]: the name of the element being closed, then [>]. *)
Definition parse_end_tag (name s : str) : option str :=
  s1 ← expect name s;
  expect [GT] (skip_ws s1).

(** After the [<] of a start tag: the element up to the [>] of its end
    tag, without its tail. [kids] reads the children and the [</] that
    ends them. *)
Definition parse_element (kids : str → option (list node * str)) (s : str)
  : option (str * dict * option str * list node * str) :=
  '(name, s1) ← parse_name s;
  '(attrs, closed, s2) ← parse_attrs (S (length s1)) s1;
  if closed : bool then Some (name, attrs, None, [], s2)
  else
    '(t, s3) ← parse_text s2;
    '(ch, s4) ← kids s3;
    s5 ← parse_end_tag name s4;
    Some (name, attrs, t, ch, s5).

(** The children of an element, each with its tail, up to and with the
    [</] of the end tag. *)
Fixpoint parse_children (fuel : nat) (s : str) : option (list node * str) :=
  match fuel with
  | O => None
  | S fuel' =>
      if starts_with (u"</") s then Some ([], drop 2 s)
      else if starts_with (u"<!--") s then
        '(body, s1) ← parse_comment (drop 4 s);
        '(t, s2) ← parse_text s1;
        '(more, s3) ← parse_children fuel' s2;
        Some (Comment body t :: more, s3)
      else
        s0 ← expect [LT] s;
        '(name, attrs, tx, ch, s1) ← parse_element (parse_children fuel') s0;
        '(t, s2) ← parse_text s1;
        '(more, s3) ← parse_children fuel' s2;
        Some (Element (Header name attrs tx t) ch :: more, s3)
  end.

Definition XML_DECLARATION : str :=
  u"<?xml version=" ++ [DQUOTE] ++ u"1.0" ++ [DQUOTE]
  ++ u" encoding=" ++ [DQUOTE] ++ u"UTF-8" ++ [DQUOTE] ++ u"?>".

Definition skip_declaration (s : str) : option str :=
  if starts_with (u"<?") s then expect XML_DECLARATION s else Some s.

(** [parse(source, parser=_PARSER)]: the root element of the tree. *)
Definition parse (content : str) : option node :=
  let s := normalize_newlines content in
  s1 ← skip_declaration s;
  s2 ← expect [LT] (skip_ws s1);
  '(name, attrs, tx, ch, s3) ← parse_element (parse_children (length s2)) s2;
  match skip_ws s3 with
  | [] => Some (Element (Header name attrs tx None) ch)
  | _ :: _ => None
  end.

End Xml.

(** ** Exceptions *)

Inductive exn :=
  | OSError          (* a file that is not there (FileNotFoundError) *)
  | BadZipFile       (* a file that is not an archive *)
  | XMLSyntaxError   (* lxml refuses the document, or the document is
                        outside the documents [Xml.parse] reads *)
  | ReError.         (* re refuses the pattern, or the pattern or the
                        replacement is outside those [Re.sub] covers *)

Inductive result (A : Type) :=
  | Ok (a : A)
  | Raise (e : exn).
Arguments Ok {A} a.
Arguments Raise {A} e.

#[global] Instance result_ret : MRet result := λ A a, Ok a.
#[global] Instance result_bind : MBind result := λ A B f r,
  match r with Ok a => f a | Raise e => Raise e end.

Definition or_raise {A} (e : exn) (o : option A) : result A :=
  match o with Some a => Ok a | None => Raise e end.

(** ** The documents as text: what lies between reading and writing *)

Definition DECLARATION_LINE : str := Xml.XML_DECLARATION ++ [Xml.LF].

(** [update_config] from the text read to the text written. *)
Definition update_config_text (user_name_map : dict) (content : str)
  : result str :=
  config ← or_raise XMLSyntaxError (Xml.parse content);
  config' ← or_raise ReError (config_pass user_name_map config);
  Ok (DECLARATION_LINE ++ Xml.tostring config').

(** The four [sub] calls after [tostring]. *)
Definition sentinel_decode (content : str) : option str :=
  c1 ← Re.sub [SENTINEL_FF] [FF] content;
  c2 ← Re.sub [SENTINEL_CR] [CR] c1;
  c3 ← Re.sub [SENTINEL_QUOTE] (u"&apos;") c2;
  Re.sub (u"--><") (u"-->" ++ [Xml.LF] ++ u"<") c3.

(** The two [sub] calls before [parse]. *)
Definition sentinel_encode (content : str) : option str :=
  c1 ← Re.sub [FF] [SENTINEL_FF] content;
  Re.sub [CR] [SENTINEL_CR] c1.

(** [update_entities] from the text read to the text written. *)
Definition update_entities_text (user_name_map : dict) (content : str)
  : result str :=
  content1 ← or_raise ReError (sentinel_encode content);
  entities ← or_raise XMLSyntaxError (Xml.parse content1);
  entities' ← or_raise ReError (entities_pass user_name_map entities);
  content2 ← or_raise ReError (sentinel_decode (Xml.tostring entities'));
  Ok (DECLARATION_LINE ++ content2).

(** ** The file system and the archives

    A file is a text or an archive: the list of its members, each a name
    and a file. The file system maps a path, as the list of its
    components, to the file there. Directories are not modelled: every
    directory exists, a path names a file whatever slashes it doubles, and
    the components [.] and [..] are names like any other. *)

Inductive file :=
  | Text (content : str)
  | Zip (members : list (str * file)).

Abbreviation filesystem := (gmap (list str) file).

(** [s.split(sep)] *)
Fixpoint split_on (sep : N) (s : str) : list str :=
  match s with
  | [] => [[]]
  | c :: tl =>
      if bool_decide (c = sep) then [] :: split_on sep tl
      else
        match split_on sep tl with
        | w :: ws => (c :: w) :: ws
        | [] => [[c]]
        end
  end.

Definition resolve (p : str) : list str :=
  filter (λ w, w ≠ []) (split_on Xml.SLASH p).

Fixpoint join_path (ws : list str) : str :=
  match ws with
  | [] => []
  | [w] => w
  | w :: ws' => w ++ [Xml.SLASH] ++ join_path ws'
  end.

(** A computation on the file system that may raise; the file system
    is kept as it is at the raise. *)
Definition prog (A : Type) : Type := filesystem → result A * filesystem.

#[global] Instance prog_ret : MRet prog := λ A a σ, (Ok a, σ).
#[global] Instance prog_bind : MBind prog := λ A B f m σ,
  match m σ with
  | (Ok a, σ') => f a σ'
  | (Raise e, σ') => (Raise e, σ')
  end.

Definition lift {A} (r : result A) : prog A := λ σ, (r, σ).

(** [ZipFile(path)]: the members of the archive at [path]. *)
Definition ZipFile_read (path : str) : prog (list (str * file)) := λ σ,
  match σ !! resolve path with
  | None => (Raise OSError, σ)
  | Some (Text _) => (Raise BadZipFile, σ)
  | Some (Zip members) => (Ok members, σ)
  end.

(** [zip.extractall(path=dest)] *)
Definition extractall (members : list (str * file)) (dest : str)
  : prog unit := λ σ,
  (Ok (),
   foldl (λ σ' m, <[resolve (dest ++ u"/" ++ m.1) := m.2]> σ') σ members).

(** [ZipFile(path, 'w')]: a new, empty archive. *)
Definition ZipFile_create (path : str) : prog unit := λ σ,
  (Ok (), <[resolve path := Zip []]> σ).

(** [zip.write(filename, arcname)] on the archive made at [path]. *)
Definition ZipFile_write (path filename arcname : str) : prog unit := λ σ,
  match σ !! resolve filename, σ !! resolve path with
  | Some f, Some (Zip members) =>
      (Ok (), <[resolve path := Zip (members ++ [(arcname, f)])]> σ)
  | _, _ => (Raise OSError, σ)
  end.

Definition unlink (path : str) : prog unit := λ σ,
  match σ !! resolve path with
  | Some _ => (Ok (), delete (resolve path) σ)
  | None => (Raise OSError, σ)
  end.

Definition below (dir : list str) (k : list str) : Prop :=
  dir `prefix_of` k.

(** [rmtree(dir)] *)
Definition rmtree (dir : str) : prog unit := λ σ,
  (Ok (), filter (λ kf, ¬ below (resolve dir) kf.1) σ).

(** [make_archive(base_name, 'zip', root_dir)]: the files below
    [root_dir] under their names relative to it, in [base_name + '.zip']. *)
Definition make_archive (base_name root_dir : str) : prog unit := λ σ,
  let inside := filter (λ kf, below (resolve root_dir) kf.1) σ in
  let members :=
    (λ kf, (join_path (drop (length (resolve root_dir)) kf.1), kf.2))
      <$> map_to_list inside in
  (Ok (), <[resolve (base_name ++ u".zip") := Zip members]> σ).

(** [open(path).read()], and the reading done by [parse(path)]. *)
Definition read_text (path : str) : prog str := λ σ,
  match σ !! resolve path with
  | None => (Raise OSError, σ)
  | Some (Zip _) => (Raise XMLSyntaxError, σ)
  | Some (Text content) => (Ok content, σ)
  end.

(** [open(path, 'w')] and the writes that follow. *)
Definition write_text (path content : str) : prog unit := λ σ,
  (Ok (), <[resolve path := Text content]> σ).

(** ** Class [Masseur] *)

Record Masseur := {
  debug : bool;
  user_name_map : dict;
  _workspace : str   (* the directory [mkdtemp()] made in [__init__] *)
}.

Definition workspace_path (self : Masseur) (path : option str) : str :=
  match path with
  | None => _workspace self
  | Some p => _workspace self ++ u"/" ++ p
  end.

Definition data_path (self : Masseur) (path : option str) : str :=
  match path with
  | None => workspace_path self (Some (u"data"))
  | Some p => workspace_path self (Some (u"data/" ++ p))
  end.

Definition _config_xml_path (self : Masseur) : str :=
  workspace_path self (Some (u"config.xml")).
Definition _data_zip_path (self : Masseur) : str :=
  data_path self (Some (u"/data.zip")).
Definition _objects_xml_path (self : Masseur) : str :=
  data_path self (Some (u"/activeobjects.xml")).
Definition _entities_xml_path (self : Masseur) : str :=
  data_path self (Some (u"/entities.xml")).

Definition __exit__ (self : Masseur) : prog unit :=
  if debug self then mret ()
  else rmtree (workspace_path self None).

Definition _prepare_output_path (self : Masseur) (path : str) : result str :=
  if negb (debug self) then Ok path
  else or_raise ReError (Re.sub (u"\.xml") (u".proc.xml") path).

Definition unpack (self : Masseur) (export_zip_path : str) : prog unit :=
  project_export_zip ← ZipFile_read export_zip_path;
  extractall project_export_zip (workspace_path self None);;
  data_zip ← ZipFile_read (_data_zip_path self);
  extractall data_zip (data_path self None).

Definition update_config (self : Masseur) (in_path out_path : str)
  : prog unit :=
  content ← read_text in_path;
  out ← lift (update_config_text (user_name_map self) content);
  write_text out_path out.

Definition update_entities (self : Masseur) (in_path out_path : str)
  : prog unit :=
  content ← read_text in_path;
  out ← lift (update_entities_text (user_name_map self) content);
  write_text out_path out.

(** The name handed to [make_archive] in [pack]. *)
Definition outfile (export_zip_path : str) : result str :=
  or_raise ReError (Re.sub (u"\.zip") (u".fixed_users") export_zip_path).

Definition pack (self : Masseur) (export_zip_path : str) : prog unit :=
  entities_xml_out_path ←
    lift (_prepare_output_path self (_entities_xml_path self));
  ZipFile_create (_data_zip_path self);;
  ZipFile_write (_data_zip_path self) (_objects_xml_path self)
    (u"activeobjects.xml");;
  ZipFile_write (_data_zip_path self) entities_xml_out_path
    (u"entities.xml");;
  unlink (_objects_xml_path self);;
  unlink entities_xml_out_path;;
  name ← lift (outfile export_zip_path);
  make_archive name (workspace_path self None).

Definition massage (self : Masseur) (export_zip_path : str) : prog unit :=
  unpack self export_zip_path;;
  config_out ← lift (_prepare_output_path self (_config_xml_path self));
  update_config self (_config_xml_path self) config_out;;
  entities_out ← lift (_prepare_output_path self (_entities_xml_path self));
  update_entities self (_entities_xml_path self) entities_out;;
  if negb (debug self) then pack self export_zip_path else mret ().

(** [with Masseur(...) as masseur: masseur.massage(file)] of [cli.main]:
    [__exit__] runs whether [massage] returns or raises. *)
Definition run (self : Masseur) (export_zip_path : str) : prog unit := λ σ,
  let '(r, σ') := massage self export_zip_path σ in
  (r, (__exit__ self σ').2).

Module Spec.
(** ** The vocabulary of the statements

    What the passes do, said without loops, references and exceptions:
    the functions the theorems compare the program with. *)

(** A string [re] reads as itself: no character with a meaning to it. *)
Definition plain (s : str) : Prop :=
  Forall (λ c, Re.is_special c = false) s.

#[global] Instance plain_dec s : Decision (plain s) :=
  Forall_dec (λ c, Re.is_special c = false) s.

(** A mapping whose old names [re] reads as themselves and whose new
    names hold no backslash. *)
Definition plain_map (d : dict) : Prop :=
  Forall (λ e, plain e.1 ∧ Re.backslash ∉ e.2) d.

#[global] Instance plain_map_dec d : Decision (plain_map d) :=
  Forall_dec (λ e, plain e.1 ∧ Re.backslash ∉ e.2) d.

(** [replace_all w r s]: the scan of [re.sub] for the literal [w]. *)
Definition replace_all (w r s : str) : str := Re.scan (Re.Lit <$> w) r s 0.

(** One turn of the loop over the mapping, for a plain old name. *)
Definition rewrite_literal (username new v : str) : str :=
  if decide (v = username) then new
  else replace_all (u" " ++ username ++ u" ") (u" " ++ new ++ u" ") v.

(** All turns, in the order of the mapping. *)
Definition rewrite_chain (d : dict) (v : str) : str :=
  foldl (λ v' e, rewrite_literal e.1 e.2 v') v d.







(** [k] on the header of an element. *)
Definition on_header (k : header → header) (n : node) : node :=
  match n with
  | Element h ch => Element (k h) ch
  | Comment body t => Comment body t
  end.

(** [k] on the header of every element below the root; the root keeps
    its header. *)
Fixpoint map_descendants (k : header → header) (n : node) : node :=
  match n with
  | Element h ch =>
      Element h ((λ c, on_header k (map_descendants k c)) <$> ch)
  | Comment body t => Comment body t
  end.

(** [f] on the value of the attribute [name], where there is one. *)
Definition rewrite_attr (f : str → str) (name : str) (h : header) : header :=
  match dict_get name (attrib h) with
  | Some v => set_attrib name (f v) h
  | None => h
  end.

Definition rewrite_attrs (f : str → str) (names : list str) (h : header)
  : header :=
  foldl (λ h' a, rewrite_attr f a h') h names.


(** The text of a config element by the mapping, where it is a key. *)
Definition rename_text (d : dict) (h : header) : header :=
  match text h ≫= (λ t, dict_get t d) with
  | Some new => set_text (Some new) h
  | None => h
  end.

Definition config_header (d : dict) (h : header) : header :=
  if bool_decide (tag h ∈ CONFIG_TAGS) then rename_text d h else h.

(** What the three single-character [sub] calls after [tostring] make
    of a character. *)
Definition final_char (c : N) : str :=
  if bool_decide (c = SENTINEL_FF) then [FF]
  else if bool_decide (c = SENTINEL_CR) then [CR]
  else if bool_decide (c = SENTINEL_QUOTE) then u"&apos;"
  else [c].

(** The newline put between a comment end and a tag. *)
Definition comment_fix (s : str) : str :=
  replace_all (u"--><") (u"-->" ++ [Xml.LF] ++ u"<") s.


(** What [sentinel_encode] makes of a character. *)
Definition encode_char (c : N) : N :=
  if bool_decide (c = FF) then SENTINEL_FF
  else if bool_decide (c = CR) then SENTINEL_CR
  else c.

Definition is_ff_or_cr (c : N) : Prop := c = FF ∨ c = CR.

#[global] Instance is_ff_or_cr_dec c : Decision (is_ff_or_cr c) :=
  or_dec (decide (c = FF)) (decide (c = CR)).

(** The two control characters and the sentinels standing for them. *)
Definition is_control_or_sentinel (c : N) : Prop :=
  c = FF ∨ c = CR ∨ c = SENTINEL_FF ∨ c = SENTINEL_CR.

#[global] Instance is_control_or_sentinel_dec c
  : Decision (is_control_or_sentinel c) :=
  or_dec (decide (c = FF))
    (or_dec (decide (c = CR))
       (or_dec (decide (c = SENTINEL_FF)) (decide (c = SENTINEL_CR)))).

(** The characters markup is made of: tab, line feed and the printable
    ASCII. *)
Definition printable (c : N) : Prop := c = 9 ∨ c = 10 ∨ (32 ≤ c ∧ c ≤ 126).

#[global] Instance printable_dec c : Decision (printable c) :=
  or_dec (decide (c = 9))
    (or_dec (decide (c = 10)) (and_dec (decide (32 ≤ c)) (decide (c ≤ 126)))).

(** The literal [w] occurs in [s]. *)
Definition occurs_in (w s : str) : Prop := ∃ i, w `prefix_of` drop i s.

(** The mapping of every key to itself. *)
Definition identity_map (d : dict) : dict := (λ e, (e.1, e.1)) <$> d.

End Spec.

Module Examples.
(** ** Concrete inputs *)

Definition alice_bob : dict := [(u"alice", u"bob")].

Definition element (name : string) (attrs : dict) (t : option str)
  (ch : list node) : node :=
  Element (Header (u name) attrs t None) ch.


(** [<r><e user=" alice said hi " title="it's"/></r>] *)
Definition audit_tree : node :=
  element "r" []
    None
    [element "e" [(u"user", u" alice said hi "); (u"title", u"it's")]
       None []].


(** [<c><username>alice</username></c>] *)
Definition config_tree : node :=
  element "c" [] None [element "username" [] (Some (u"alice")) []].


Definition quoted (s : string) : str := [Xml.DQUOTE] ++ u s ++ [Xml.DQUOTE].

(** [<r><e title="it's"/></r>] *)
Definition entities_with_quote : str :=
  u"<r><e title=" ++ quoted "it's" ++ u"/></r>".

(** [<r><e title="it&apos;s"/></r>] after the declaration line *)
Definition entities_with_quote_out : str :=
  DECLARATION_LINE ++ u"<r><e title=" ++ quoted "it&apos;s" ++ u"/></r>".

(** [<r><e user=" abc "/></r>] *)
Definition entities_abc : str :=
  u"<r><e user=" ++ quoted " abc " ++ u"/></r>".

(** [<r><e user=" a.c "/></r>] *)
Definition entities_a_dot_c : str :=
  u"<r><e user=" ++ quoted " a.c " ++ u"/></r>".

(** The old name [a.c], which [re] reads as a pattern. *)
Definition dotted_map : dict := [(u"a.c", u"abc")].


(** [<c><username>alice</username></c>] *)
Definition config_xml : str := u"<c><username>alice</username></c>".

(** [<r><e user="alice"/></r>] *)
Definition entities_xml : str :=
  u"<r><e user=" ++ quoted "alice" ++ u"/></r>".

Definition data_zip : file :=
  Zip [(u"activeobjects.xml", Text (u"<ao/>"));
       (u"entities.xml", Text entities_xml)].

(** An export archive of the expected layout. *)
Definition export_zip : file :=
  Zip [(u"config.xml", Text config_xml); (u"data/data.zip", data_zip)].

(** An export archive whose nested archive has no [entities.xml]. *)
Definition export_zip_without_entities : file :=
  Zip [(u"config.xml", Text config_xml);
       (u"data/data.zip", Zip [(u"activeobjects.xml", Text (u"<ao/>"))])].

(** An export archive without the nested archive. *)
Definition export_zip_without_data : file :=
  Zip [(u"config.xml", Text config_xml)].

Definition masseur (dbg : bool) : Masseur :=
  {| debug := dbg; user_name_map := alice_bob;
     _workspace := u"/tmp/tmpab12cd34" |}.

Definition disk (path : string) (f : file) : filesystem :=
  {[ resolve (u path) := f ]}.

End Examples.

Module Standalone.
(** ** The script [massage_jira_project_export.py]

    The script carries its own copy of class [Masseur]. The copy is the
    class of the package line by line but for [__exit__], which removes
    the workspace whatever [debug] is, and its [main] calls [massage] on
    the object without a [with] statement, so that [__exit__] is never
    run. *)

Definition __exit__ (self : Masseur) : prog unit :=
  rmtree (workspace_path self None).

(** [masseur = Masseur(...); masseur.massage(args.file)] *)
Definition main (self : Masseur) (file : str) : prog unit :=
  massage self file.

End Standalone.

Module Effects.
(** ** What a computation writes *)

(** [m] leaves every path outside [D] as it was, whether it returns or
    raises. *)
Definition writes_only {A} (D : list str → Prop) (m : prog A) : Prop :=
  ∀ σ k, ¬ D k → (m σ).2 !! k = σ !! k.

(** When [m] raises, it has left every path outside [D] as it was. *)
Definition raises_within {A} (D : list str → Prop) (m : prog A) : Prop :=
  ∀ σ e k, (m σ).1 = Raise e → ¬ D k → (m σ).2 !! k = σ !! k.

(** The characters of a path that are not the separator: what is left
    of it in the names of its components. *)
Definition letters (p : str) : str := filter (λ c, c ≠ Xml.SLASH) p.

End Effects.

Module Canon.
(** ** The trees [parse] builds

    What holds of every tree that comes out of [Xml.parse]: names are
    XML names, attribute names are distinct, an attribute value holds no
    tab and no line end, a text is not empty, a comment holds no double
    hyphen and does not end in a hyphen. *)

Definition name_ok (s : str) : bool :=
  match s with
  | c :: _ => Xml.is_name_start c && forallb Xml.is_name_char s
  | [] => false
  end.

Definition chars_ok (s : str) : bool := forallb Xml.is_content_char s.

(** A text or a tail: [None], or characters, one at least. *)
Definition text_ok (t : option str) : bool :=
  match t with
  | None => true
  | Some s => negb (bool_decide (s = [])) && chars_ok s
  end.

Definition is_value_char (c : N) : bool :=
  Xml.is_content_char c && negb (bool_decide (c = Xml.TAB))
  && negb (bool_decide (c = Xml.LF)).

Definition value_ok (v : str) : bool := forallb is_value_char v.

Definition attrib_ok (d : dict) : bool :=
  bool_decide (NoDup d.*1)
  && forallb (λ a, name_ok a.1 && value_ok a.2) d.

Definition body_ok (b : str) : bool :=
  chars_ok b && negb (Xml.occurs (u"--") (b ++ u"-")).

Definition header_ok (h : header) : bool :=
  name_ok (tag h) && attrib_ok (attrib h) && text_ok (text h)
  && text_ok (tail h).

Fixpoint node_ok (n : node) : bool :=
  match n with
  | Element h ch => header_ok h && forallb node_ok ch
  | Comment b t => body_ok b && text_ok t
  end.

(** A document: an element with no tail. *)
Definition document_ok (root : node) : bool :=
  match root with
  | Element h _ => node_ok root && bool_decide (tail h = None)
  | Comment _ _ => false
  end.

(** What [tostring] writes of an element between its attributes and
    its tail. *)
Definition written_content (h : header) (ch : list node) : str :=
  match text h, ch with
  | None, [] => u"/>"
  | _, _ =>
      [Xml.GT] ++ Xml.tostring_opt (text h)
      ++ concat (Xml.tostring_node <$> ch) ++ u"</" ++ tag h ++ [Xml.GT]
  end.

(** The written form of [nodes], followed by the start of an end tag,
    is read back as [nodes] by [parse_children] with fuel for the text. *)
Definition reads_back_forest (nodes : list node) : Prop :=
  ∀ rest fuel,
    (length (concat (Xml.tostring_node <$> nodes) ++ u"</" ++ rest)
     ≤ fuel)%nat →
    Xml.parse_children fuel
      (concat (Xml.tostring_node <$> nodes) ++ u"</" ++ rest)
    = Some (nodes, rest).

Definition reads_back (n : node) : Prop :=
  ∀ more, reads_back_forest more → reads_back_forest (n :: more).

(** [s] is empty or starts with a character [f] refuses. *)
Definition stops (f : N → bool) (s : str) : Prop :=
  match s with [] => True | c :: _ => f c = false end.

Definition is_element (c : node) : Prop :=
  match c with Element _ _ => True | Comment _ _ => False end.

(** A new name that can be the text of an element. *)
Definition new_name_ok (s : str) : bool :=
  negb (bool_decide (s = [])) && chars_ok s.

End Canon.

(** * Facts about [re.sub] *)

Module ReFacts.
Import Re.
Import Spec.

Lemma match_at_length p s : match_at p s = true → (length p ≤ length s)%nat.
Proof.
  revert s. induction p as [|a p IH]; intros s H; simpl; [lia|].
  destruct s as [|c s]; simpl in *; [done|].
  apply andb_true_iff in H as [_ H]. apply IH in H. lia.
Qed.

(** Passing over [k] characters is dropping them. *)
Lemma scan_skip p r s k :
  p ≠ [] → (k ≤ length s)%nat → scan p r s k = scan p r (drop k s) 0.
Proof.
  intros Hp. revert k. induction s as [|c tl IH]; intros k Hk.
  - simpl in Hk. by replace k with 0%nat by lia.
  - destruct k as [|k]; [done|]. simpl. apply IH. simpl in Hk. lia.
Qed.

Lemma scan_nil p r : p ≠ [] → scan p r [] 0 = [].
Proof. by destruct p. Qed.

(** The scan at a character, for a pattern that is not empty. *)
Lemma scan_cons p r c tl :
  p ≠ [] →
  scan p r (c :: tl) 0 =
    if match_at p (c :: tl) then r ++ scan p r (drop (length p) (c :: tl)) 0
    else c :: scan p r tl 0.
Proof.
  intros Hp. cbn [scan].
  destruct (match_at p (c :: tl)) eqn:Hm; [|done].
  destruct p as [|a p]; [done|]. cbn [length drop].
  f_equal. apply scan_skip; [done|].
  apply match_at_length in Hm. simpl in Hm. lia.
Qed.

Lemma is_special_backslash c : is_special c = false → c ≠ backslash.
Proof.
  intros H ->. unfold is_special in H. apply bool_decide_eq_false in H.
  apply H. set_solver.
Qed.

Lemma is_special_dot c : is_special c = false → c ≠ 46.
Proof.
  intros H ->. unfold is_special in H. apply bool_decide_eq_false in H.
  apply H. vm_compute. set_solver.
Qed.

Lemma compile_plain s : plain s → compile s = Some (Lit <$> s).
Proof.
  induction 1 as [|c s Hc _ IH]; [done|]. cbn [compile].
  rewrite (bool_decide_eq_false_2 _ (is_special_backslash c Hc)).
  rewrite (bool_decide_eq_false_2 _ (is_special_dot c Hc)).
  rewrite Hc, IH. done.
Qed.

Lemma plain_app s t : plain s → plain t → plain (s ++ t).
Proof. apply Forall_app_2. Qed.

Lemma template_plain s : plain s → template s = Some s.
Proof.
  intros H. unfold template. rewrite bool_decide_eq_false_2; [done|].
  intros Hin. eapply Forall_forall in H; [|exact Hin].
  by apply is_special_backslash in H.
Qed.

Lemma template_ok s : backslash ∉ s → template s = Some s.
Proof. intros H. unfold template. by rewrite bool_decide_eq_false_2. Qed.

(** A pattern of literals matches where it is a prefix. *)
Lemma match_at_lit w s : match_at (Lit <$> w) s = true ↔ w `prefix_of` s.
Proof.
  revert s. induction w as [|c w IH]; intros s; simpl.
  - split; [intros _; apply prefix_nil|done].
  - destruct s as [|d s]; simpl.
    + split; [done|]. intros [k Hk]. done.
    + rewrite andb_true_iff, IH, bool_decide_eq_true. split.
      * intros [-> H]. by apply prefix_cons.
      * intros [k Hk]. simpl in Hk. injection Hk as -> ->.
        split; [done|]. by exists k.
Qed.

Lemma match_at_lit_app w rest : match_at (Lit <$> w) (w ++ rest) = true.
Proof. apply match_at_lit. by exists rest. Qed.

Lemma sub_plain w r s :
  plain w → backslash ∉ r → sub w r s = Some (replace_all w r s).
Proof.
  intros Hw Hr. unfold sub. rewrite compile_plain, template_ok by done. done.
Qed.

Lemma replace_all_nil w r : w ≠ [] → replace_all w r [] = [].
Proof. intros H. apply scan_nil. by destruct w. Qed.

Lemma replace_all_match w r rest :
  w ≠ [] → replace_all w r (w ++ rest) = r ++ replace_all w r rest.
Proof.
  intros H. unfold replace_all. destruct w as [|c w]; [done|].
  change ((c :: w) ++ rest) with (c :: (w ++ rest)).
  rewrite scan_cons by done.
  change (c :: w ++ rest) with ((c :: w) ++ rest).
  rewrite match_at_lit_app. rewrite length_fmap.
  by rewrite drop_app_length.
Qed.

Lemma replace_all_step w r c tl :
  w ≠ [] → ¬ w `prefix_of` (c :: tl) →
  replace_all w r (c :: tl) = c :: replace_all w r tl.
Proof.
  intros H Hn. unfold replace_all. rewrite scan_cons by (by destruct w).
  destruct (match_at _ _) eqn:Hm; [|done].
  by apply match_at_lit in Hm.
Qed.


(** Replacing a literal by itself changes nothing. *)
Lemma replace_all_self w s : w ≠ [] → replace_all w w s = s.
Proof.
  intros Hw. remember (length s) as n eqn:Hn. revert s Hn.
  induction n as [n IH] using lt_wf_ind. intros s Hn.
  destruct s as [|c tl]; [by apply replace_all_nil|].
  destruct (decide (w `prefix_of` (c :: tl))) as [[rest Hp]|Hp].
  - rewrite Hp, replace_all_match by done. f_equal.
    apply (IH (length rest)); [|done].
    rewrite Hn, Hp, length_app. destruct w; [done|simpl; lia].
  - rewrite replace_all_step by done. f_equal.
    apply (IH (length tl)); [|done]. rewrite Hn. simpl. lia.
Qed.

(** Without an occurrence nothing changes. *)
Lemma scan_no_match p r s :
  p ≠ [] → (∀ i, match_at p (drop i s) = false) → scan p r s 0 = s.
Proof.
  intros Hp. induction s as [|c tl IH]; intros H; [by apply scan_nil|].
  rewrite scan_cons by done. pose proof (H 0%nat) as H0. simpl in H0.
  rewrite H0. f_equal.
  apply IH. intros i. apply (H (S i)).
Qed.

(** A pattern of one literal: the characters are mapped one by one. *)
Lemma replace_all_char a r s :
  replace_all [a] r s = s ≫= (λ c, if bool_decide (c = a) then r else [c]).
Proof.
  induction s as [|c tl IH]; [done|].
  unfold replace_all in *. change (Lit <$> [a]) with [Lit a] in *.
  rewrite scan_cons by done. cbn [mbind list_bind].
  cbn [match_at atom_matches length drop]. rewrite andb_true_r.
  rewrite drop_0. destruct (bool_decide (c = a)); by rewrite IH.
Qed.

(** What a filter sees of a replacement: nothing, if it sees nothing of
    the literal and of what replaces it. *)
Lemma filter_replace_all (P : N → Prop) `{∀ c, Decision (P c)} w r s :
  w ≠ [] → filter P w = [] → filter P r = [] →
  filter P (replace_all w r s) = filter P s.
Proof.
  intros Hw Hfw Hfr. remember (length s) as n eqn:Hn. revert s Hn.
  induction n as [n IH] using lt_wf_ind. intros s Hn.
  destruct s as [|c tl]; [by rewrite replace_all_nil|].
  destruct (decide (w `prefix_of` (c :: tl))) as [[rest Hp]|Hp].
  - rewrite Hp, replace_all_match by done. rewrite !filter_app, Hfw, Hfr.
    simpl. apply (IH (length rest)); [|done].
    rewrite Hn, Hp, length_app. destruct w; [done|simpl; lia].
  - rewrite replace_all_step by done. rewrite !filter_cons.
    rewrite (IH (length tl)); [done| |done]. rewrite Hn. simpl. lia.
Qed.

End ReFacts.

(** * The loops over references are maps over the tree *)

Module TreeFacts.
Import Spec.

(** Induction on a tree, the children covered by [Forall]. *)
Lemma node_induction (P : node → Prop) :
  (∀ h ch, Forall P ch → P (Element h ch)) →
  (∀ body t, P (Comment body t)) →
  ∀ n, P n.
Proof.
  intros HE HC. fix IH 1. intros [h ch|body t]; [|apply HC].
  apply HE. induction ch as [|c ch IHch]; constructor; [apply IH|apply IHch].
Qed.

Lemma Forall_filter_keep {A} (P Q : A → Prop) `{∀ x, Decision (P x)} l :
  Forall Q l → Forall Q (filter P l).
Proof.
  rewrite !Forall_forall. intros HQ x [_ Hx]%list_elem_of_filter. auto.
Qed.

Lemma filter_fmap_comp {A B} (f : A → B) (P : B → Prop)
    `{∀ x, Decision (P x)} (l : list A) :
  filter P (f <$> l) = f <$> filter (λ x, P (f x)) l.
Proof.
  induction l as [|x l IH]; [done|]. rewrite fmap_cons, !filter_cons.
  case_decide; [rewrite fmap_cons|]; by rewrite IH.
Qed.

Lemma for_each_app f ps qs r :
  for_each f (ps ++ qs) r = for_each f ps r ≫= for_each f qs.
Proof.
  revert r. induction ps as [|p ps IH]; intros r; [done|]. simpl.
  destruct (alter_at f p r) as [r'|]; simpl; [apply IH|done].
Qed.

(** References into the child [i] are run on the child. *)
Lemma for_each_child f i ps h ch c :
  ch !! i = Some c →
  for_each f ((i ::.) <$> ps) (Element h ch) =
    c' ← for_each f ps c; Some (Element h (<[i := c']> ch)).
Proof.
  revert ch c. induction ps as [|p ps IH]; intros ch c Hc; simpl.
  - by rewrite list_insert_id.
  - rewrite Hc. simpl. destruct (alter_at f p c) as [c1|]; simpl; [|done].
    rewrite (IH _ c1).
    + destruct (for_each f ps c1); simpl; [|done].
      by rewrite list_insert_insert_eq.
    + apply list_lookup_insert_eq. by eapply lookup_lt_Some.
Qed.

(** References below an element leave its header alone. *)
Lemma for_each_below f qs h h' ch ch' :
  Forall (λ p, p ≠ []) qs →
  for_each f qs (Element h ch) = Some (Element h ch') →
  for_each f qs (Element h' ch) = Some (Element h' ch').
Proof.
  intros Hq. revert ch. induction Hq as [|p qs Hp _ IH]; intros ch; simpl.
  - by intros [= ->].
  - destruct p as [|i p]; [congruence|]. cbn [for_each alter_at].
    destruct (ch !! i) as [c|]; cbn; [|intros [=]].
    destruct (alter_at f p c) as [c1|]; cbn; [|intros [=]]. apply IH.
Qed.

Lemma walk_nonempty F i l : Forall (λ p : path, p ≠ []) (walk F i l).
Proof.
  revert i. induction l as [|c l IH]; intros i; simpl; [constructor|].
  apply Forall_app. split; [destruct c; repeat constructor; done|].
  apply Forall_app. split; [|apply IH].
  apply Forall_fmap, Forall_true. done.
Qed.

Lemma iterdescendants_nonempty n :
  Forall (λ p : path, p ≠ []) (iterdescendants n).
Proof. destruct n; simpl; [apply walk_nonempty|constructor]. Qed.

Section loop.
Context (f : header → option header) (g : header → header).
Context (sel : header → bool).
Hypothesis f_g : ∀ h, sel h = true → f h = Some (g h).

Let K (h : header) : header := if sel h then g h else h.
Let T (c : node) : node := on_header K (map_descendants K c).

(** One child: the reference to it, if selected, then those below. *)
Lemma for_each_self_then_below c :
  for_each f (findall sel c) c = Some (map_descendants K c) →
  for_each f
    (filter (λ p, selects sel c p = true) ([] :: iterdescendants c)) c
  = Some (T c).
Proof using f_g.
  intros IH. destruct c as [hc chc|body t]; [|done].
  rewrite filter_cons. unfold T, K. simpl map_descendants.
  unfold findall in IH. simpl map_descendants in IH.
  case_decide as Hd; unfold selects in Hd; simpl in Hd.
  - cbn [for_each alter_at]. rewrite (f_g _ Hd). simpl. rewrite Hd.
    eapply for_each_below; [|exact IH].
    apply Forall_filter_keep, (iterdescendants_nonempty (Element hc chc)).
  - simpl. apply not_true_is_false in Hd. rewrite Hd. exact IH.
Qed.

Lemma selects_child h ch j c p :
  ch !! j = Some c → selects sel (Element h ch) (j :: p) = selects sel c p.
Proof. intros Hc. unfold selects. simpl. by rewrite Hc. Qed.

Lemma filter_self_path root i c :
  (∀ p, selects sel root (i :: p) = selects sel c p) →
  filter (λ p, selects sel root p = true)
    (self_path i c ++ ((i ::.) <$> iterdescendants c))
  = (i ::.) <$>
      filter (λ p, selects sel c p = true) ([] :: iterdescendants c).
Proof.
  intros Hs. rewrite filter_app, filter_fmap_comp, (filter_cons _ []).
  assert (filter (λ p, selects sel root p = true) (self_path i c)
          = (i ::.) <$> (if decide (selects sel c [] = true)
                         then [[]] else [])) as ->.
  { destruct c as [hc chc|body t]; simpl.
    - rewrite filter_cons, filter_nil, Hs. by case_decide.
    - unfold selects at 1. simpl. by destruct (decide (false = true)). }
  erewrite (list_filter_iff _ (λ p, selects sel c p = true));
    [|intros p; by rewrite Hs].
  case_decide; by rewrite <- ?fmap_app.
Qed.

(** The children from [pre] on, those before already done. *)
Lemma for_each_children root h l (pre pre' : list node) :
  length pre' = length pre →
  Forall (λ c, for_each f (findall sel c) c = Some (map_descendants K c)) l →
  (∀ j c p, l !! j = Some c →
     selects sel root ((length pre + j)%nat :: p) = selects sel c p) →
  for_each f
    (filter (λ p, selects sel root p = true)
       (walk iterdescendants (length pre) l))
    (Element h (pre' ++ l))
  = Some (Element h (pre' ++ (T <$> l))).
Proof using f_g.
  intros Hlen Hl. revert pre pre' Hlen.
  induction Hl as [|c l Hc _ IH]; intros pre pre' Hlen Hs; [done|].
  cbn [walk]. rewrite app_assoc, filter_app, for_each_app.
  rewrite (filter_self_path root _ c).
  2:{ intros p. rewrite <- (Hs 0%nat c p) by done. by rewrite Nat.add_0_r. }
  rewrite (for_each_child _ _ _ _ _ c).
  2:{ rewrite <- Hlen. apply list_lookup_middle. done. }
  rewrite (for_each_self_then_below c Hc). cbn [mbind option_bind].
  replace (length pre) with (length pre' + 0)%nat at 2 by lia.
  rewrite insert_app_r. cbn [insert list_insert].
  replace (pre' ++ T c :: l) with ((pre' ++ [T c]) ++ l)
    by (by rewrite <- app_assoc).
  replace (S (length pre)) with (length (pre ++ [c]))
    by (rewrite length_app; simpl; lia).
  rewrite (IH (pre ++ [c]) (pre' ++ [T c])).
  - by rewrite <- app_assoc.
  - rewrite !length_app. simpl. lia.
  - intros j d p Hd. rewrite <- (Hs (S j) d p) by done.
    rewrite length_app. simpl. do 2 f_equal. lia.
Qed.

(** The loop over the references [findall] gives is the map over the
    descendants. *)
Lemma for_each_findall n :
  for_each f (findall sel n) n = Some (map_descendants K n).
Proof using f_g.
  induction n as [h ch IH|body t] using node_induction; [|done].
  unfold findall. cbn [iterdescendants].
  apply (for_each_children (Element h ch) h ch [] []); [done|done|].
  intros j c p Hc. by apply selects_child.
Qed.

End loop.

Lemma on_header_compose k1 k2 n :
  on_header k2 (on_header k1 n) = on_header (k2 ∘ k1) n.
Proof. by destruct n. Qed.

Lemma map_descendants_on_header k k' n :
  map_descendants k (on_header k' n) = on_header k' (map_descendants k n).
Proof. by destruct n. Qed.

Lemma map_descendants_compose k1 k2 n :
  map_descendants k2 (map_descendants k1 n) = map_descendants (k2 ∘ k1) n.
Proof.
  induction n as [h ch IH|body t] using node_induction; [|done].
  simpl. f_equal. rewrite <- list_fmap_compose.
  apply Forall_fmap_ext_1. eapply Forall_impl; [exact IH|].
  intros c Hc. simpl.
  by rewrite map_descendants_on_header, Hc, on_header_compose.
Qed.

Lemma map_descendants_ext k1 k2 n :
  (∀ h, k1 h = k2 h) → map_descendants k1 n = map_descendants k2 n.
Proof.
  intros Hk. induction n as [h ch IH|body t] using node_induction; [|done].
  simpl. f_equal. apply Forall_fmap_ext_1. eapply Forall_impl; [exact IH|].
  intros c Hc. simpl. rewrite Hc. destruct (map_descendants k2 c); simpl;
    by rewrite ?Hk.
Qed.

Lemma map_descendants_id n : map_descendants id n = n.
Proof.
  induction n as [h ch IH|body t] using node_induction; [|done].
  simpl. f_equal. rewrite <- (list_fmap_id ch) at 2.
  apply Forall_fmap_ext_1. eapply Forall_impl; [exact IH|].
  intros c Hc. simpl. rewrite Hc. by destruct c.
Qed.

(** A loop over names whose body is a map is the map of the bodies in
    turn. *)
Lemma for_names_map (body : str → node → option node)
    (k : str → header → header) names root :
  (∀ a r, body a r = Some (map_descendants (k a) r)) →
  for_names body names root
  = Some (map_descendants (λ h, foldl (λ h' a, k a h') h names) root).
Proof.
  intros Hb. revert root. induction names as [|a names IH]; intros root.
  - simpl. by rewrite (map_descendants_ext _ id), map_descendants_id.
  - cbn [for_names]. rewrite Hb. cbn [mbind option_bind]. rewrite IH.
    by rewrite map_descendants_compose.
Qed.


End TreeFacts.

(** * The passes as maps *)

Module PassFacts.
Import Spec ReFacts TreeFacts.

Lemma dict_get_set_eq k v d : dict_get k (dict_set k v d) = Some v.
Proof.
  induction d as [|[k' x] d IH]; simpl.
  - by rewrite decide_True.
  - case_decide as Hk; simpl.
    + by rewrite decide_True.
    + by rewrite decide_False.
Qed.

Lemma dict_get_set_ne k k' v d :
  k ≠ k' → dict_get k' (dict_set k v d) = dict_get k' d.
Proof.
  intros Hne. induction d as [|[k0 x] d IH]; simpl.
  - by rewrite decide_False.
  - case_decide as Hk; simpl.
    + subst k0. by rewrite !decide_False.
    + case_decide; [done|apply IH].
Qed.

Lemma dict_set_same k v d : dict_get k d = Some v → dict_set k v d = d.
Proof.
  induction d as [|[k' x] d IH]; simpl; [done|].
  case_decide; [by intros [= ->]|]. intros Hg. by rewrite IH.
Qed.


Lemma dict_get_Some_elem k v d : dict_get k d = Some v → (k, v) ∈ d.
Proof.
  induction d as [|[k' x] d IH]; simpl; [done|].
  case_decide as Hk.
  - intros [= ->]. subst. apply list_elem_of_here.
  - intros Hg. apply list_elem_of_further. auto.
Qed.

Lemma dict_get_None k d : dict_get k d = None ↔ k ∉ d.*1.
Proof.
  induction d as [|[k' x] d IH]; simpl.
  - split; [intros _; apply not_elem_of_nil|done].
  - rewrite not_elem_of_cons. case_decide as Hk.
    + split; [done|]. intros [Hne _]. by destruct Hne.
    + rewrite IH. split; [auto|]. by intros [_ ?].
Qed.

(** ** The attribute rewriters *)












(** ** [update_config] *)

Lemma update_child_spec d h : update_child d h = Some (rename_text d h).
Proof.
  unfold update_child, rename_text. destruct (text h) as [t|]; [|done].
  simpl. by destruct (dict_get t d).
Qed.

Lemma _update_children_spec d name root :
  _update_children d name root
  = Some (map_descendants
            (λ h, if has_tag name h then rename_text d h else h) root).
Proof.
  unfold _update_children.
  apply (for_each_findall _ (rename_text d)). intros h _.
  apply update_child_spec.
Qed.

Lemma rename_text_tag d h : tag (rename_text d h) = tag h.
Proof. unfold rename_text. by destruct (text h ≫= _). Qed.

Lemma rename_by_tag d names h :
  NoDup names →
  foldl (λ h' a, if has_tag a h' then rename_text d h' else h') h names
  = if bool_decide (tag h ∈ names) then rename_text d h else h.
Proof.
  intros Hnd. revert h. induction Hnd as [|a names Ha _ IH]; intros h.
  - cbn [foldl]. rewrite bool_decide_eq_false_2; [done|apply not_elem_of_nil].
  - cbn [foldl]. destruct (decide (tag h = a)) as [Ht|Ht].
    + replace (has_tag a h) with true
        by (symmetry; by apply bool_decide_eq_true_2).
      rewrite IH, rename_text_tag, Ht, (bool_decide_eq_false_2 _ Ha).
      rewrite bool_decide_eq_true_2; [done|]. apply list_elem_of_here.
    + replace (has_tag a h) with false
        by (symmetry; by apply bool_decide_eq_false_2).
      rewrite IH.
      rewrite (bool_decide_ext (tag h ∈ a :: names) (tag h ∈ names));
        [done|]. rewrite elem_of_cons. intuition congruence.
Qed.

Lemma NoDup_CONFIG_TAGS : NoDup CONFIG_TAGS.
Proof. apply (bool_decide_unpack _). by vm_compute. Qed.

Lemma NoDup_IDENTITY_ATTRS : NoDup IDENTITY_ATTRS.
Proof. apply (bool_decide_unpack _). by vm_compute. Qed.


(** The tag loop of [update_config] renames the text of every element
    below the root that bears one of the six tags. *)
Lemma config_pass_spec d root :
  config_pass d root = Some (map_descendants (config_header d) root).
Proof.
  unfold config_pass.
  rewrite (for_names_map _
    (λ a h, if has_tag a h then rename_text d h else h)).
  - f_equal. apply map_descendants_ext. intros h.
    apply rename_by_tag, NoDup_CONFIG_TAGS.
  - intros a r. apply _update_children_spec.
Qed.

(** ** [update_entities]: the loop over the identity attributes *)

Lemma plain_space_wrap w : plain w → plain (u" " ++ w ++ u" ").
Proof.
  intros Hw. apply plain_app; [by constructor; [vm_compute|constructor]|].
  apply plain_app; [done|by constructor; [vm_compute|constructor]].
Qed.

Lemma no_backslash_wrap w :
  Re.backslash ∉ w → Re.backslash ∉ u" " ++ w ++ u" ".
Proof.
  intros Hw. rewrite !elem_of_app. intros [H|[H|H]]; [|done|].
  - apply list_elem_of_singleton in H. by vm_compute in H.
  - apply list_elem_of_singleton in H. by vm_compute in H.
Qed.

Lemma rewrite_value_spec username new v :
  plain username → Re.backslash ∉ new →
  rewrite_value username new v = Some (rewrite_literal username new v).
Proof.
  intros Hu Hn. unfold rewrite_value, rewrite_literal. case_decide; [done|].
  apply sub_plain; [by apply plain_space_wrap|by apply no_backslash_wrap].
Qed.

Lemma rewrite_values_spec d v :
  plain_map d → rewrite_values d v = Some (rewrite_chain d v).
Proof.
  intros Hd. revert v. induction Hd as [|[k n] d [Hk Hn] _ IH]; intros v.
  - done.
  - cbn [rewrite_values]. rewrite rewrite_value_spec by done.
    cbn [mbind option_bind]. by rewrite IH.
Qed.

Lemma rewrite_attr_absent f a h : has_attr a h = false → rewrite_attr f a h = h.
Proof.
  unfold has_attr, rewrite_attr. intros Ha%bool_decide_eq_false.
  destruct (dict_get a (attrib h)); [|done]. destruct Ha. by eexists.
Qed.

Lemma _update_attributes_spec d name root :
  plain_map d →
  _update_attributes d name root
  = Some (map_descendants (rewrite_attr (rewrite_chain d) name) root).
Proof.
  intros Hd. unfold _update_attributes.
  rewrite (for_each_findall _ (rewrite_attr (rewrite_chain d) name)).
  - f_equal. apply map_descendants_ext. intros h.
    destruct (has_attr name h) eqn:Ha; [done|].
    by rewrite rewrite_attr_absent.
  - intros h [v Hv]%bool_decide_eq_true. unfold update_attribute.
    rewrite Hv. cbn [mbind option_bind].
    rewrite rewrite_values_spec by done. cbn [mbind option_bind].
    unfold rewrite_attr. by rewrite Hv.
Qed.

Lemma identity_pass_spec d root :
  plain_map d →
  identity_pass d root
  = Some (map_descendants
            (rewrite_attrs (rewrite_chain d) IDENTITY_ATTRS) root).
Proof.
  intros Hd. unfold identity_pass.
  apply (for_names_map _ (rewrite_attr (rewrite_chain d))).
  intros a r. by apply _update_attributes_spec.
Qed.

(** ** The loop over the protected attributes *)





End PassFacts.

(** * The scan for a name between spaces, token by token *)

Module TokenFacts.
Import Spec ReFacts.

Abbreviation sp := Xml.SPACE.




Section tokens.
Context (old new : str).
Hypothesis old_nospace : sp ∉ old.

Let p : str := sp :: old ++ [sp].
Let r : str := sp :: new ++ [sp].









End tokens.
End TokenFacts.

(** * The rewriting of the two documents *)

Module Rewriting.
Import Spec ReFacts TreeFacts PassFacts TokenFacts Examples.





(** ** [update_config] *)



(** [update_config] on a text: parse, the map over the tree,
    serialise. *)
Lemma update_config_text_spec d content root :
  Xml.parse content = Some root →
  update_config_text d content
  = Ok (DECLARATION_LINE
        ++ Xml.tostring (map_descendants (config_header d) root)).
Proof.
  intros Hp. unfold update_config_text. rewrite Hp.
  cbn [or_raise mbind result_bind]. by rewrite config_pass_spec.
Qed.




(** ** The protected attributes and the decoding *)

Lemma bind_assoc_list {A B C} (f : A → list B) (g : B → list C) (l : list A) :
  (l ≫= f) ≫= g = l ≫= (λ x, f x ≫= g).
Proof.
  induction l as [|x l IH]; [done|]. cbn [mbind list_bind].
  change (list_bind ?f ?l) with (l ≫= f).
  by rewrite bind_app, IH.
Qed.

Lemma bind_ext_list {A B} (f g : A → list B) (l : list A) :
  (∀ x, f x = g x) → l ≫= f = l ≫= g.
Proof.
  intros Hfg. induction l as [|x l IH]; [done|]. cbn [mbind list_bind].
  change (list_bind ?f ?l) with (l ≫= f). by rewrite Hfg, IH.
Qed.

Lemma sub_char a r (s : str) :
  Re.is_special a = false → Re.backslash ∉ r →
  Re.sub [a] r s = Some (s ≫= (λ c, if bool_decide (c = a) then r else [c])).
Proof.
  intros Ha Hr. rewrite sub_plain; [|by repeat constructor|done].
  by rewrite replace_all_char.
Qed.

Lemma final_char_steps c :
  ((if bool_decide (c = SENTINEL_FF) then [FF] else [c])
     ≫= (λ c1, if bool_decide (c1 = SENTINEL_CR) then [CR] else [c1]))
    ≫= (λ c2, if bool_decide (c2 = SENTINEL_QUOTE) then u"&apos;" else [c2])
  = final_char c.
Proof.
  destruct (decide (c = SENTINEL_FF)) as [->|H1]; [by vm_compute|].
  destruct (decide (c = SENTINEL_CR)) as [->|H2]; [by vm_compute|].
  destruct (decide (c = SENTINEL_QUOTE)) as [->|H3]; [by vm_compute|].
  unfold final_char. rewrite !bool_decide_eq_false_2 by done.
  cbn [mbind list_bind app]. rewrite !bool_decide_eq_false_2 by done.
  cbn [mbind list_bind app]. by rewrite !bool_decide_eq_false_2 by done.
Qed.

(** The decoding is character by character, then the newline after a
    comment end. *)
Lemma sentinel_decode_spec (s : str) : sentinel_decode s = Some (comment_fix (s ≫= final_char)).
Proof.
  unfold sentinel_decode.
  rewrite sub_char; [|by vm_compute|rewrite list_elem_of_singleton; by vm_compute].
  cbn [mbind option_bind].
  rewrite sub_char; [|by vm_compute|rewrite list_elem_of_singleton; by vm_compute].
  cbn [mbind option_bind].
  rewrite sub_char;
    [|by vm_compute|apply (bool_decide_unpack _); by vm_compute].
  cbn [mbind option_bind].
  rewrite sub_plain;
    [|apply (bool_decide_unpack _); by vm_compute
     |apply (bool_decide_unpack _); by vm_compute].
  unfold comment_fix. do 2 f_equal.
  rewrite !bind_assoc_list. apply bind_ext_list. intros c.
  rewrite <- final_char_steps. by rewrite bind_assoc_list.
Qed.

(** The encoding is character by character. *)
Lemma sentinel_encode_spec (s : str) :
  sentinel_encode s = Some (encode_char <$> s).
Proof.
  unfold sentinel_encode.
  rewrite sub_char; [|by vm_compute|rewrite list_elem_of_singleton; by vm_compute].
  cbn [mbind option_bind].
  rewrite sub_char; [|by vm_compute|rewrite list_elem_of_singleton; by vm_compute].
  f_equal. rewrite bind_assoc_list.
  induction s as [|c s IH]; [done|]. cbn [mbind list_bind fmap list_fmap].
  change (list_bind ?f ?l) with (l ≫= f). rewrite IH.
  unfold encode_char.
  destruct (decide (c = FF)) as [->|H1]; [by vm_compute|].
  destruct (decide (c = CR)) as [->|H2]; [by vm_compute|].
  rewrite !bool_decide_eq_false_2 by done. cbn [mbind list_bind app].
  by rewrite !bool_decide_eq_false_2 by done.
Qed.









(** ** What the passes leave alone *)

Lemma replace_all_absent w r v :
  w ≠ [] → ¬ occurs_in w v → replace_all w r v = v.
Proof.
  intros Hw Hno. apply scan_no_match; [by destruct w|].
  intros i. apply not_true_is_false. rewrite match_at_lit.
  intros Hp. apply Hno. by exists i.
Qed.









(** ** The identity mapping after a mapping *)

Lemma rewrite_chain_identity d v : rewrite_chain (identity_map d) v = v.
Proof.
  induction d as [|[k n] d IH]; [done|].
  unfold rewrite_chain, identity_map in *. cbn [fmap list_fmap foldl fst snd].
  unfold rewrite_literal at 2. case_decide as Hv; [by subst|].
  by rewrite replace_all_self.
Qed.

Lemma rewrite_attrs_id f names h :
  (∀ v, f v = v) → rewrite_attrs f names h = h.
Proof.
  intros Hf. revert h. induction names as [|a names IH]; intros h; [done|].
  unfold rewrite_attrs in *. cbn [foldl]. rewrite <- (IH h) at 2. f_equal.
  unfold rewrite_attr. destruct (dict_get a (attrib h)) as [v|] eqn:Hv; [|done].
  unfold set_attrib. rewrite Hf, dict_set_same by done. by destruct h.
Qed.

Lemma plain_identity_map d : plain_map d → plain_map (identity_map d).
Proof.
  unfold plain_map, identity_map. rewrite Forall_fmap. intros Hd.
  eapply Forall_impl; [exact Hd|].
  intros [k n] [Hk _]. split; [done|]. cbn [fst snd] in *.
  intros Hin. eapply Forall_forall in Hk; [|exact Hin].
  by apply is_special_backslash in Hk.
Qed.

Lemma dict_get_identity_map t d v :
  dict_get t (identity_map d) = Some v → v = t.
Proof.
  induction d as [|[k n] d IH]; [done|]. cbn [identity_map fmap list_fmap dict_get fst].
  case_decide; [by intros [= <-]|]. apply IH.
Qed.

(** With old names that [re] reads as themselves, the identity mapping
    changes no tree: the loop over the identity attributes and the tag
    loop of the config give the tree back. *)
Lemma identity_mapping_keeps_trees d root :
  plain_map d →
  identity_pass (identity_map d) root = Some root
  ∧ config_pass (identity_map d) root = Some root.
Proof.
  intros Hd. split.
  - rewrite identity_pass_spec by by apply plain_identity_map.
    rewrite (map_descendants_ext _ id), map_descendants_id; [done|].
    intros h. apply rewrite_attrs_id. intros v.
    apply rewrite_chain_identity.
  - rewrite config_pass_spec.
    rewrite (map_descendants_ext _ id), map_descendants_id; [done|].
    intros h. unfold config_header, rename_text. case_bool_decide; [|done].
    destruct (text h) as [t|] eqn:Ht; [|done]. cbn [mbind option_bind].
    destruct (dict_get t (identity_map d)) as [v|] eqn:Hv; [|done].
    apply dict_get_identity_map in Hv as ->. unfold set_text.
    rewrite <- Ht. by destruct h.
Qed.

(** C5 on the failing input: with the old name [a.c] mapped to [abc],
    the value [ abc ] is kept by the first rewrite and changed to [ a.c ]
    by the rewrite with the identity mapping after it. *)
Lemma identity_mapping_changes_output :
  update_entities_text dotted_map entities_abc
  = Ok (DECLARATION_LINE ++ entities_abc)
  ∧ update_entities_text (identity_map dotted_map)
      (DECLARATION_LINE ++ entities_abc)
    = Ok (DECLARATION_LINE ++ entities_a_dot_c)
  ∧ DECLARATION_LINE ++ entities_a_dot_c ≠ DECLARATION_LINE ++ entities_abc.
Proof. repeat split; by vm_compute. Qed.

End Rewriting.

(** * What the parser and the serialiser keep of a document *)

Module ParserFacts.
Import Xml Spec ReFacts TreeFacts PassFacts.

Lemma span_spec f s a b :
  span f s = (a, b) → s = a ++ b ∧ Forall (λ c, f c = true) a.
Proof.
  revert a b. induction s as [|c s IH]; intros a b; simpl.
  - intros [= <- <-]. by split.
  - destruct (f c) eqn:Hc.
    + destruct (span f s) as [a' b'] eqn:E. intros [= <- <-].
      destruct (IH _ _ eq_refl) as [-> Ha]. split; [done|by constructor].
    + intros [= <- <-]. by split.
Qed.

Lemma starts_with_spec p s :
  starts_with p s = true → s = p ++ drop (length p) s.
Proof.
  intros [k ->]%bool_decide_eq_true. by rewrite drop_app_length.
Qed.

Lemma expect_spec p s rest : expect p s = Some rest → s = p ++ rest.
Proof.
  unfold expect. destruct (starts_with p s) eqn:E; [|done].
  intros [= <-]. by apply starts_with_spec.
Qed.




Ltac literal := apply (bool_decide_unpack _); by vm_compute.

(** ** The fuel of the parser is enough

    Every call the parser makes on itself is on a shorter text, so fuel
    equal to the length of the text is as good as any greater fuel: a
    [None] is a refusal of the document, never a lack of fuel. *)

Lemma span_length f s a b : span f s = (a, b) → length s = (length a + length b)%nat.
Proof. intros [-> _]%span_spec. apply length_app. Qed.

Lemma skip_ws_length s : (length (skip_ws s) ≤ length s)%nat.
Proof.
  unfold skip_ws. destruct (span is_space s) as [a b] eqn:E.
  apply span_length in E. simpl. lia.
Qed.

Lemma expect_length p s rest :
  expect p s = Some rest → length s = (length p + length rest)%nat.
Proof. intros ->%expect_spec. apply length_app. Qed.

Lemma parse_name_shorter s name rest :
  parse_name s = Some (name, rest) → (length rest < length s)%nat.
Proof.
  unfold parse_name. destruct (span is_name_char s) as [a b] eqn:E.
  apply span_length in E. destruct a as [|c a]; [done|].
  destruct (is_name_start c); [|done]. intros [= <- <-]. simpl in E. lia.
Qed.

Lemma parse_attvalue_shorter q s v rest :
  parse_attvalue q s = Some (v, rest) → (length rest < length s)%nat.
Proof.
  unfold parse_attvalue. destruct (span _ s) as [raw rest'] eqn:E.
  apply span_length in E. destruct rest' as [|q' rest']; [done|].
  destruct (unescape _ _); [|done]. cbn [mbind option_bind].
  intros [= <- <-]. simpl in E. lia.
Qed.

Lemma parse_attribute_shorter s name v rest :
  parse_attribute s = Some (name, v, rest) → (length rest < length s)%nat.
Proof.
  unfold parse_attribute.
  destruct (parse_name s) as [[name' s1]|] eqn:En; [|done].
  cbn [mbind option_bind]. apply parse_name_shorter in En.
  destruct (expect (u"=") (skip_ws s1)) as [s2|] eqn:Ee; [|done].
  cbn [mbind option_bind]. apply expect_length in Ee.
  pose proof (skip_ws_length s1). pose proof (skip_ws_length s2) as Hs2.
  destruct (skip_ws s2) as [|q s3]; [done|].
  destruct (_ || _); [|done].
  destruct (parse_attvalue q s3) as [[v' s4]|] eqn:Ev; [|done].
  cbn [mbind option_bind]. apply parse_attvalue_shorter in Ev.
  intros [= <- <- <-]. simpl in *. lia.
Qed.

Lemma parse_attrs_shorter fuel s attrs closed rest :
  parse_attrs fuel s = Some (attrs, closed, rest) →
  (length rest < length s)%nat.
Proof.
  revert s attrs closed rest.
  induction fuel as [|fuel IH]; intros s attrs closed rest; [done|].
  cbn [parse_attrs]. cbv zeta. pose proof (skip_ws_length s).
  destruct (starts_with (u"/>") (skip_ws s)) eqn:E1.
  { intros [= <- <- <-]. apply starts_with_spec in E1.
    apply (f_equal length) in E1. rewrite length_app in E1. simpl in E1. lia. }
  destruct (starts_with [GT] (skip_ws s)) eqn:E2.
  { intros [= <- <- <-]. apply starts_with_spec in E2.
    apply (f_equal length) in E2. rewrite length_app in E2. simpl in E2. lia. }
  case_bool_decide; [done|].
  destruct (parse_attribute (skip_ws s)) as [[[name v] s2]|] eqn:Ea; [|done].
  cbn [mbind option_bind]. apply parse_attribute_shorter in Ea.
  destruct (parse_attrs fuel s2) as [[[more closed'] s3]|] eqn:Em; [|done].
  cbn [mbind option_bind]. apply IH in Em.
  case_bool_decide; [done|]. intros [= <- <- <-]. lia.
Qed.

Lemma parse_text_length s ot rest :
  parse_text s = Some (ot, rest) → (length rest ≤ length s)%nat.
Proof.
  unfold parse_text. destruct (span _ s) as [raw rest'] eqn:E.
  apply span_length in E. destruct (occurs _ raw); [done|].
  destruct (unescape _ _); [|done]. cbn [mbind option_bind].
  intros [= <- <-]. lia.
Qed.

Lemma parse_comment_shorter s body rest :
  parse_comment s = Some (body, rest) → (length rest < length s)%nat.
Proof.
  revert body rest. induction s as [|c tl IH]; intros body rest; [done|].
  cbn [parse_comment].
  destruct (starts_with (u"-->") (c :: tl)) eqn:E1.
  { intros [= <- <-]. simpl. rewrite length_drop. lia. }
  destruct (starts_with (u"--") (c :: tl)); [done|].
  destruct (is_content_char c); [|done].
  destruct (parse_comment tl) as [[b r]|] eqn:E; [|done].
  cbn [mbind option_bind]. intros [= <- <-].
  specialize (IH _ _ eq_refl). simpl. lia.
Qed.

Lemma parse_end_tag_length name s rest :
  parse_end_tag name s = Some rest → (length rest < length s)%nat.
Proof.
  unfold parse_end_tag. destruct (expect name s) as [s1|] eqn:E1; [|done].
  cbn [mbind option_bind]. apply expect_length in E1.
  intros E2%expect_length. pose proof (skip_ws_length s1). simpl in E2. lia.
Qed.

(** [parse_element] asks for children on a shorter text only. *)
Lemma parse_element_ext kids1 kids2 s :
  (∀ s', (length s' < length s)%nat → kids1 s' = kids2 s') →
  parse_element kids1 s = parse_element kids2 s.
Proof.
  intros Hk. unfold parse_element.
  destruct (parse_name s) as [[name s1]|] eqn:En; [|done].
  cbn [mbind option_bind]. apply parse_name_shorter in En.
  destruct (parse_attrs _ s1) as [[[attrs closed] s2]|] eqn:Ea; [|done].
  cbn [mbind option_bind]. apply parse_attrs_shorter in Ea.
  destruct closed; [done|].
  destruct (parse_text s2) as [[t s3]|] eqn:Et; [|done].
  cbn [mbind option_bind]. apply parse_text_length in Et.
  rewrite Hk by lia. done.
Qed.

Lemma parse_element_shorter kids s name attrs tx ch rest :
  (∀ s' nodes rest', kids s' = Some (nodes, rest') →
     (length rest' < length s')%nat) →
  parse_element kids s = Some (name, attrs, tx, ch, rest) →
  (length rest < length s)%nat.
Proof.
  intros Hk. unfold parse_element.
  destruct (parse_name s) as [[name' s1]|] eqn:En; [|done].
  cbn [mbind option_bind]. apply parse_name_shorter in En.
  destruct (parse_attrs _ s1) as [[[attrs' closed] s2]|] eqn:Ea; [|done].
  cbn [mbind option_bind]. apply parse_attrs_shorter in Ea.
  destruct closed; [intros [= <- <- <- <- <-]; lia|].
  destruct (parse_text s2) as [[t s3]|] eqn:Et; [|done].
  cbn [mbind option_bind]. apply parse_text_length in Et.
  destruct (kids s3) as [[ch' s4]|] eqn:Ek; [|done].
  cbn [mbind option_bind]. apply Hk in Ek.
  destruct (parse_end_tag name' s4) as [s5|] eqn:Ee; [|done].
  cbn [mbind option_bind]. apply parse_end_tag_length in Ee.
  intros [= <- <- <- <- <-]. lia.
Qed.

Lemma parse_children_shorter fuel s nodes rest :
  parse_children fuel s = Some (nodes, rest) → (length rest < length s)%nat.
Proof.
  revert s nodes rest.
  induction fuel as [|fuel IH]; intros s nodes rest; [done|].
  cbn [parse_children].
  destruct (starts_with (u"</") s) eqn:E1.
  { intros [= <- <-]. apply starts_with_spec in E1.
    apply (f_equal length) in E1. rewrite length_app in E1. simpl in E1. lia. }
  destruct (starts_with (u"<!--") s) eqn:E2.
  { destruct (parse_comment (drop 4 s)) as [[body s1]|] eqn:Ec; [|done].
    cbn [mbind option_bind]. apply parse_comment_shorter in Ec.
    rewrite length_drop in Ec.
    destruct (parse_text s1) as [[t s2]|] eqn:Et; [|done].
    cbn [mbind option_bind]. apply parse_text_length in Et.
    destruct (parse_children fuel s2) as [[more s3]|] eqn:Em; [|done].
    cbn [mbind option_bind]. apply IH in Em. intros [= <- <-]. lia. }
  destruct (expect [LT] s) as [s0|] eqn:E0; [|done].
  cbn [mbind option_bind]. apply expect_length in E0.
  destruct (parse_element (parse_children fuel) s0)
    as [[[[[name attrs] tx] ch] s1]|] eqn:Ee; [|done].
  cbn [mbind option_bind]. apply parse_element_shorter in Ee; [|exact IH].
  destruct (parse_text s1) as [[t s2]|] eqn:Et; [|done].
  cbn [mbind option_bind]. apply parse_text_length in Et.
  destruct (parse_children fuel s2) as [[more s3]|] eqn:Em; [|done].
  cbn [mbind option_bind]. apply IH in Em. intros [= <- <-]. lia.
Qed.

(** Given the length of the text as fuel, more fuel changes nothing. *)
Lemma parse_children_fuel n m s :
  (length s ≤ n)%nat → (length s ≤ m)%nat →
  parse_children n s = parse_children m s.
Proof.
  revert m s. induction n as [|n IH]; intros m s Hn Hm.
  { destruct s; [|simpl in Hn; lia]. by destruct m. }
  destruct m as [|m]; [destruct s; [done|simpl in Hm; lia]|].
  cbn [parse_children].
  destruct (starts_with (u"</") s) eqn:E1; [done|].
  destruct (starts_with (u"<!--") s) eqn:E2.
  { destruct (parse_comment (drop 4 s)) as [[body s1]|] eqn:Ec; [|done].
    cbn [mbind option_bind]. apply parse_comment_shorter in Ec.
    rewrite length_drop in Ec.
    destruct (parse_text s1) as [[t s2]|] eqn:Et; [|done].
    cbn [mbind option_bind]. apply parse_text_length in Et.
    by rewrite (IH m s2) by lia. }
  destruct (expect [LT] s) as [s0|] eqn:E0; [|done].
  cbn [mbind option_bind]. apply expect_length in E0. simpl in E0.
  rewrite (parse_element_ext (parse_children n) (parse_children m) s0)
    by (intros s' Hs'; apply IH; lia).
  destruct (parse_element (parse_children m) s0)
    as [[[[[name attrs] tx] ch] s1]|] eqn:Ee; [|done].
  cbn [mbind option_bind].
  apply parse_element_shorter in Ee;
    [|intros ???; apply parse_children_shorter].
  destruct (parse_text s1) as [[t s2]|] eqn:Et; [|done].
  cbn [mbind option_bind]. apply parse_text_length in Et.
  by rewrite (IH m s2) by lia.
Qed.

Lemma unescape_fuel n m s :
  (length s ≤ n)%nat → (length s ≤ m)%nat → unescape n s = unescape m s.
Proof.
  revert m s. induction n as [|n IH]; intros m s Hn Hm.
  { destruct s; [|simpl in Hn; lia]. by destruct m. }
  destruct m as [|m]; [destruct s; [done|simpl in Hm; lia]|].
  destruct s as [|c tl]; [done|]. cbn [unescape]. simpl in Hn, Hm.
  case_bool_decide.
  - destruct (parse_entity tl) as [[d rest]|] eqn:E; [|done].
    cbn [mbind option_bind].
    assert (length rest ≤ length tl)%nat.
    { unfold parse_entity in E.
      repeat (destruct (starts_with _ tl);
              [injection E as <- <-; rewrite length_drop; lia|]).
      done. }
    by rewrite (IH m rest) by lia.
  - destruct (_ && _); [|done]. by rewrite (IH m tl) by lia.
Qed.

Lemma parse_attrs_fuel n m s :
  (length s < n)%nat → (length s < m)%nat →
  parse_attrs n s = parse_attrs m s.
Proof.
  revert m s. induction n as [|n IH]; intros m s Hn Hm; [lia|].
  destruct m as [|m]; [lia|]. cbn [parse_attrs]. cbv zeta.
  pose proof (skip_ws_length s).
  destruct (starts_with (u"/>") (skip_ws s)); [done|].
  destruct (starts_with [GT] (skip_ws s)); [done|].
  case_bool_decide; [done|].
  destruct (parse_attribute (skip_ws s)) as [[[name v] s2]|] eqn:Ea; [|done].
  cbn [mbind option_bind]. apply parse_attribute_shorter in Ea.
  by rewrite (IH m s2) by lia.
Qed.

Section kept.
Context (P : N → Prop) `{!∀ c, Decision (P c)}.
Hypothesis inert : ∀ c, P c → ¬ printable c.

Abbreviation F := (filter P).























Lemma normalize_newlines_id s : CR ∉ s → normalize_newlines s = s.
Proof using Type.
  induction s as [|c s IH]; [done|]. intros [Hc Hs]%not_elem_of_cons.
  cbn [normalize_newlines]. rewrite bool_decide_eq_false_2 by done.
  by rewrite IH.
Qed.


End kept.
End ParserFacts.

(** * The control characters through [update_entities] *)

Module RoundTrip.
Import Xml Spec ReFacts TreeFacts PassFacts Rewriting ParserFacts Examples.

Ltac literal := apply (bool_decide_unpack _); by vm_compute.

Section kept.
Context (P : N → Prop) `{!∀ c, Decision (P c)}.
Hypothesis inert : ∀ c, P c → ¬ printable c.
Hypothesis not_sentinel : ¬ P SENTINEL_QUOTE.

Abbreviation F := (filter P).







End kept.

(** ** The sentinels *)













End RoundTrip.

(** * The workspace, the archives and the orchestration *)

Module Workspace.
Import Spec ReFacts Examples.

Ltac literal := apply (bool_decide_unpack _); by vm_compute.

(** ** Paths *)

Lemma split_on_nonempty sep s : split_on sep s ≠ [].
Proof.
  destruct s as [|c s]; simpl; [done|]. case_bool_decide; [done|].
  by destruct (split_on sep s).
Qed.

Lemma split_on_app sep a b :
  split_on sep (a ++ sep :: b) = split_on sep a ++ split_on sep b.
Proof.
  induction a as [|c a IH]; simpl.
  - by rewrite bool_decide_eq_true_2.
  - case_bool_decide; [by rewrite IH|]. rewrite IH.
    pose proof (split_on_nonempty sep a). by destruct (split_on sep a).
Qed.

(** The path [a/b] leads through [a] to [b]. *)
Lemma resolve_app a b : resolve (a ++ u"/" ++ b) = resolve a ++ resolve b.
Proof.
  unfold resolve. change (u"/" ++ b) with (Xml.SLASH :: b).
  by rewrite split_on_app, filter_app.
Qed.

Lemma below_app dir k : below dir (dir ++ k).
Proof. by exists k. Qed.

(** ** The derived names *)


Lemma sub_xml_spec (s : str) :
  Re.sub (u"\.xml") (u".proc.xml") s
  = Some (replace_all (u".xml") (u".proc.xml") s).
Proof.
  unfold Re.sub. replace (Re.compile (u"\.xml"))
    with (Some (Re.Lit <$> u".xml")) by by vm_compute.
  by replace (Re.template (u".proc.xml"))
    with (Some (u".proc.xml")) by by vm_compute.
Qed.




Lemma key_of ws (name : str) : resolve (ws ++ u"/" ++ name) = resolve ws ++ resolve name.
Proof. apply resolve_app. Qed.

(** ** The steps of a computation *)

Lemma bind_inv {A B} (m : prog A) (f : A → prog B) σ b σ' :
  (m ≫= f) σ = (Ok b, σ') →
  ∃ a σ1, m σ = (Ok a, σ1) ∧ f a σ1 = (Ok b, σ').
Proof.
  unfold mbind, prog_bind. destruct (m σ) as [[a|e] σ1]; [|done].
  intros Hf. by exists a, σ1.
Qed.

Lemma bind_ok {A B} (m : prog A) (f : A → prog B) σ a σ1 :
  m σ = (Ok a, σ1) → (m ≫= f) σ = f a σ1.
Proof. unfold mbind, prog_bind. by intros ->. Qed.

Lemma bind_raise {A B} (m : prog A) (f : A → prog B) σ e σ1 :
  m σ = (Raise e, σ1) → (m ≫= f) σ = (Raise e, σ1).
Proof. unfold mbind, prog_bind. by intros ->. Qed.

Lemma lift_inv {A} (r : result A) σ a σ' :
  lift r σ = (Ok a, σ') → r = Ok a ∧ σ' = σ.
Proof. unfold lift. by intros [= -> ->]. Qed.

Lemma read_text_inv path σ content σ' :
  read_text path σ = (Ok content, σ') →
  σ !! resolve path = Some (Text content) ∧ σ' = σ.
Proof.
  unfold read_text. destruct (σ !! resolve path) as [[c|ms]|]; [|done..].
  by intros [= -> ->].
Qed.

Lemma update_config_inv self in_path out_path σ σ' :
  update_config self in_path out_path σ = (Ok (), σ') →
  ∃ content out,
    σ !! resolve in_path = Some (Text content)
    ∧ update_config_text (user_name_map self) content = Ok out
    ∧ σ' = <[resolve out_path := Text out]> σ.
Proof.
  unfold update_config.
  intros (content & σ1 & [Hr ->]%read_text_inv & H)%bind_inv.
  apply bind_inv in H as (out & σ2 & [Ho ->]%lift_inv & H).
  unfold write_text in H. injection H as <-. by exists content, out.
Qed.

Lemma update_entities_inv self in_path out_path σ σ' :
  update_entities self in_path out_path σ = (Ok (), σ') →
  ∃ content out,
    σ !! resolve in_path = Some (Text content)
    ∧ update_entities_text (user_name_map self) content = Ok out
    ∧ σ' = <[resolve out_path := Text out]> σ.
Proof.
  unfold update_entities.
  intros (content & σ1 & [Hr ->]%read_text_inv & H)%bind_inv.
  apply bind_inv in H as (out & σ2 & [Ho ->]%lift_inv & H).
  unfold write_text in H. injection H as <-. by exists content, out.
Qed.

(** Extraction writes below its destination only. *)
Lemma extractall_outside members dest σ k :
  ¬ below (resolve dest) k →
  (extractall members dest σ).2 !! k = σ !! k.
Proof.
  intros Hk. unfold extractall. cbn [snd]. revert σ.
  induction members as [|[name f] members IH]; intros σ; [done|].
  cbn [foldl fst snd]. rewrite IH. apply lookup_insert_ne.
  intros <-. apply Hk. rewrite resolve_app. apply below_app.
Qed.

(** A file after an extraction was there before or is a member. *)
Lemma extractall_lookup members dest σ k f :
  (extractall members dest σ).2 !! k = Some f →
  σ !! k = Some f
  ∨ ∃ name, (name, f) ∈ members ∧ k = resolve (dest ++ u"/" ++ name).
Proof.
  unfold extractall. cbn [snd]. revert σ.
  induction members as [|[name g] members IH]; intros σ; [by left|].
  cbn [foldl fst snd]. intros [H|(n & Hn & ->)]%IH.
  - destruct (decide (resolve (dest ++ u"/" ++ name) = k)) as [<-|Hne].
    + rewrite lookup_insert_eq in H. injection H as ->. right.
      exists name. split; [apply list_elem_of_here|done].
    + rewrite lookup_insert_ne in H by done. by left.
  - right. exists n. split; [by apply list_elem_of_further|done].
Qed.


End Workspace.

(** * The runs of [massage] *)

Module Runs.
Import Spec ReFacts Examples Workspace.

Ltac literal := apply (bool_decide_unpack _); by vm_compute.

Lemma config_key self :
  resolve (_config_xml_path self)
  = resolve (_workspace self) ++ [u"config.xml"].
Proof. unfold _config_xml_path, workspace_path. by rewrite resolve_app. Qed.

Lemma entities_key self :
  resolve (_entities_xml_path self)
  = resolve (_workspace self) ++ [u"data"; u"entities.xml"].
Proof.
  unfold _entities_xml_path, data_path, workspace_path.
  by rewrite resolve_app.
Qed.

Lemma data_zip_key self :
  resolve (_data_zip_path self)
  = resolve (_workspace self) ++ [u"data"; u"data.zip"].
Proof.
  unfold _data_zip_path, data_path, workspace_path.
  by rewrite resolve_app.
Qed.





(** ** Normal mode *)

Lemma prepare_output_path_normal self path :
  debug self = false → _prepare_output_path self path = Ok path.
Proof. intros Hd. unfold _prepare_output_path. by rewrite Hd. Qed.

(** C10. When debug is off, [_prepare_output_path] returns every path
    as it is; [massage] is [unpack], then [update_config] and
    [update_entities] each reading and writing the same workspace file,
    then [pack]; and a rewrite that returns has put the rewritten text in
    the place of the text it read. *)
Theorem normal_mode_rewrites_in_place (self : Masseur)
    (export_zip_path : str) (σ : filesystem) :
  debug self = false →
  (∀ path, _prepare_output_path self path = Ok path)
  ∧ massage self export_zip_path σ
    = (unpack self export_zip_path;;
       update_config self (_config_xml_path self) (_config_xml_path self);;
       update_entities self (_entities_xml_path self)
         (_entities_xml_path self);;
       pack self export_zip_path) σ
  ∧ (∀ σ1 σ2,
       update_config self (_config_xml_path self) (_config_xml_path self) σ1
       = (Ok (), σ2) →
       ∃ content out,
         σ1 !! resolve (_config_xml_path self) = Some (Text content)
         ∧ update_config_text (user_name_map self) content = Ok out
         ∧ σ2 = <[resolve (_config_xml_path self) := Text out]> σ1
         ∧ σ2 !! resolve (_config_xml_path self) = Some (Text out))
  ∧ (∀ σ1 σ2,
       update_entities self (_entities_xml_path self)
         (_entities_xml_path self) σ1 = (Ok (), σ2) →
       ∃ content out,
         σ1 !! resolve (_entities_xml_path self) = Some (Text content)
         ∧ update_entities_text (user_name_map self) content = Ok out
         ∧ σ2 = <[resolve (_entities_xml_path self) := Text out]> σ1
         ∧ σ2 !! resolve (_entities_xml_path self) = Some (Text out)).
Proof.
  intros Hd. split; [intros path; by apply prepare_output_path_normal|].
  split.
  - unfold massage. rewrite !prepare_output_path_normal by done.
    rewrite Hd. cbn [negb]. unfold mbind, prog_bind, lift.
    destruct (unpack self export_zip_path σ) as [[[]|e] σ1]; [|done].
    destruct (update_config _ _ _ σ1) as [[[]|e] σ2]; [|done].
    by destruct (update_entities _ _ _ σ2) as [[[]|e] σ3].
  - split.
    + intros σ1 σ2 (content & out & H1 & H2 & ->)%update_config_inv.
      exists content, out. by rewrite lookup_insert_eq.
    + intros σ1 σ2 (content & out & H1 & H2 & ->)%update_entities_inv.
      exists content, out. by rewrite lookup_insert_eq.
Qed.

Lemma normal_mode_rewrites_in_place_witness :
  debug (masseur false) = false
  ∧ _prepare_output_path (masseur false) (u"/tmp/tmpab12cd34/config.xml")
    = Ok (u"/tmp/tmpab12cd34/config.xml").
Proof.
  split; [reflexivity|].
  exact (proj1 (normal_mode_rewrites_in_place (masseur false)
                  (u"/in/export.zip") ∅ eq_refl) _).
Defined.

(** ** A nested archive that is not there *)

(** C9, as amended. When the nested data archive is not in the
    workspace after the outer extraction, [unpack] raises the error of the
    missing file and [massage] stops there: the file system holds what it
    held before and the members of the outer archive as extracted, and no
    rewritten file. The other defects of the layout are not looked for by
    [unpack]. *)
Theorem missing_nested_archive_aborts (self : Masseur)
    (export_zip_path : str) (σ : filesystem) (members : list (str * file)) :
  σ !! resolve export_zip_path = Some (Zip members) →
  (extractall members (workspace_path self None) σ).2
    !! resolve (_data_zip_path self) = None →
  unpack self export_zip_path σ
  = (Raise OSError, (extractall members (workspace_path self None) σ).2)
  ∧ massage self export_zip_path σ
    = (Raise OSError, (extractall members (workspace_path self None) σ).2)
  ∧ (∀ k f,
       (extractall members (workspace_path self None) σ).2 !! k = Some f →
       σ !! k = Some f
       ∨ ∃ name, (name, f) ∈ members
                 ∧ k = resolve (workspace_path self None ++ u"/" ++ name)).
Proof.
  intros Hzip Hmiss.
  assert (unpack self export_zip_path σ
          = (Raise OSError,
             (extractall members (workspace_path self None) σ).2)) as Hu.
  { unfold unpack. erewrite bind_ok; [|unfold ZipFile_read; by rewrite Hzip].
    rewrite (bind_ok _ _ _ ()
               (extractall members (workspace_path self None) σ).2)
      by reflexivity.
    apply bind_raise. unfold ZipFile_read. by rewrite Hmiss. }
  split; [exact Hu|]. split.
  - unfold massage. by apply bind_raise.
  - intros k f. apply extractall_lookup.
Qed.

Lemma missing_nested_archive_aborts_witness :
  massage (masseur false) (u"/in/export.zip")
    (disk "/in/export.zip" export_zip_without_data)
  = (Raise OSError,
     (extractall [(u"config.xml", Text config_xml)] (u"/tmp/tmpab12cd34")
        (disk "/in/export.zip" export_zip_without_data)).2).
Proof.
  refine (proj1 (proj2 (missing_nested_archive_aborts (masseur false)
            (u"/in/export.zip") (disk "/in/export.zip" export_zip_without_data)
            [(u"config.xml", Text config_xml)] _ _))).
  - vm_compute. reflexivity.
  - vm_compute. reflexivity.
Defined.

(** C9 as stated fails: for an archive whose nested archive has no
    [entities.xml], [unpack] returns, and [massage] has written the
    rewritten [config.xml] when it raises. *)
Lemma absent_layout_counterexample :
  (unpack (masseur false) (u"/in/export.zip")
     (disk "/in/export.zip" export_zip_without_entities)).1 = Ok ()
  ∧ (massage (masseur false) (u"/in/export.zip")
       (disk "/in/export.zip" export_zip_without_entities)).1 = Raise OSError
  ∧ (massage (masseur false) (u"/in/export.zip")
       (disk "/in/export.zip" export_zip_without_entities)).2
      !! resolve (u"/tmp/tmpab12cd34/config.xml")
    = Some (Text (DECLARATION_LINE ++ u"<c><username>bob</username></c>")).
Proof. repeat split; vm_compute; reflexivity. Qed.

(** ** The name of the new archive *)

(** C7 on the failing input: for the export [/srv/jira.zips/export.zip]
    the new archive is [/srv/jira.fixed_userss/export.fixed_users.zip], in
    another directory, and nothing is at
    [/srv/jira.zips/export.fixed_users.zip]. *)
Lemma archive_name_replaces_every_zip :
  outfile (u"/srv/jira.zips/export.zip")
  = Ok (u"/srv/jira.fixed_userss/export.fixed_users")
  ∧ (massage (masseur false) (u"/srv/jira.zips/export.zip")
       (disk "/srv/jira.zips/export.zip" export_zip)).1 = Ok ()
  ∧ is_Some
      ((massage (masseur false) (u"/srv/jira.zips/export.zip")
          (disk "/srv/jira.zips/export.zip" export_zip)).2
         !! resolve (u"/srv/jira.fixed_userss/export.fixed_users.zip"))
  ∧ (massage (masseur false) (u"/srv/jira.zips/export.zip")
       (disk "/srv/jira.zips/export.zip" export_zip)).2
      !! resolve (u"/srv/jira.zips/export.fixed_users.zip") = None.
Proof.
  split; [vm_compute; reflexivity|]. split; [vm_compute; reflexivity|].
  split; [|vm_compute; reflexivity]. vm_compute. by eexists.
Qed.

(** An export whose path has [.zip] as its extension only: the new
    archive is next to it, with the rewritten files, and the export is
    as it was. *)
Lemma archive_example :
  (massage (masseur false) (u"/in/export.zip")
     (disk "/in/export.zip" export_zip)).1 = Ok ()
  ∧ (massage (masseur false) (u"/in/export.zip")
       (disk "/in/export.zip" export_zip)).2
      !! resolve (u"/in/export.fixed_users.zip")
    = Some (Zip [(u"data/data.zip",
                  Zip [(u"activeobjects.xml", Text (u"<ao/>"));
                       (u"entities.xml",
                        Text (DECLARATION_LINE ++ u"<r><e user="
                              ++ quoted "bob" ++ u"/></r>"))]);
                 (u"config.xml",
                  Text (DECLARATION_LINE
                        ++ u"<c><username>bob</username></c>"))])
  ∧ (massage (masseur false) (u"/in/export.zip")
       (disk "/in/export.zip" export_zip)).2 !! resolve (u"/in/export.zip")
    = Some export_zip.
Proof. repeat split; vm_compute; reflexivity. Qed.

End Runs.

(** * What the steps of a run write, and where *)

Module Frames.
Import Spec ReFacts Examples Workspace Runs Effects.

Ltac literal := apply (bool_decide_unpack _); by vm_compute.

(** ** Paths and the files they name *)

Lemma concat_split_on sep s :
  concat (split_on sep s) = filter (λ c, c ≠ sep) s.
Proof.
  induction s as [|c s IH]; [done|]. cbn [split_on].
  case_bool_decide as Hc.
  - cbn [concat app]. rewrite IH. by rewrite filter_cons_False by naive_solver.
  - rewrite filter_cons_True by done. rewrite <- IH.
    pose proof (split_on_nonempty sep s). by destruct (split_on sep s).
Qed.

Lemma concat_filter_nonempty (l : list str) :
  concat (filter (λ w, w ≠ []) l) = concat l.
Proof.
  induction l as [|w l IH]; [done|]. rewrite filter_cons. case_decide as Hw.
  - cbn [concat]. by rewrite IH.
  - subst w. by rewrite IH.
Qed.

(** The components of a path hold its characters but the separators. *)
Lemma concat_resolve p : concat (resolve p) = letters p.
Proof. unfold resolve. by rewrite concat_filter_nonempty, concat_split_on. Qed.

Lemma resolve_letters p q : resolve p = resolve q → letters p = letters q.
Proof. intros E. by rewrite <- !concat_resolve, E. Qed.

Lemma occurs_in_nil w : w ≠ [] → ¬ occurs_in w [].
Proof.
  intros Hw [i Hi]. rewrite drop_nil in Hi. by apply prefix_nil_inv in Hi.
Qed.

Lemma occurs_in_cons w c tl :
  occurs_in w (c :: tl) → w `prefix_of` (c :: tl) ∨ occurs_in w tl.
Proof.
  intros [[|i] Hi]; [by left|]. right. by exists i.
Qed.

(** A replacement that is no shorter to a filter than the literal makes
    the text no shorter to it. *)
Lemma replace_all_grows (P : N → Prop) `{∀ c, Decision (P c)} w r s :
  w ≠ [] → (length (filter P w) ≤ length (filter P r))%nat →
  (length (filter P s) ≤ length (filter P (replace_all w r s)))%nat.
Proof.
  intros Hw Hwr. remember (length s) as n eqn:Hn. revert s Hn.
  induction n as [n IH] using lt_wf_ind. intros s Hn.
  destruct s as [|c tl]; [by rewrite replace_all_nil|].
  destruct (decide (w `prefix_of` (c :: tl))) as [[rest Hp]|Hp].
  - rewrite Hp, replace_all_match by done. rewrite !filter_app, !length_app.
    assert (length rest < n)%nat as Hlt.
    { rewrite Hn, Hp, length_app. destruct w; [done|simpl; lia]. }
    pose proof (IH _ Hlt rest eq_refl). lia.
  - rewrite replace_all_step by done. rewrite !filter_cons.
    assert (length tl < n)%nat as Hlt by (rewrite Hn; simpl; lia).
    pose proof (IH _ Hlt tl eq_refl). case_decide; simpl; lia.
Qed.

Lemma replace_all_grows_strictly (P : N → Prop) `{∀ c, Decision (P c)}
    w r s :
  w ≠ [] → (length (filter P w) < length (filter P r))%nat →
  occurs_in w s →
  (length (filter P s) < length (filter P (replace_all w r s)))%nat.
Proof.
  intros Hw Hwr. induction s as [|c tl IH]; intros Ho.
  { by apply occurs_in_nil in Ho. }
  destruct (decide (w `prefix_of` (c :: tl))) as [[rest Hp]|Hp].
  - rewrite Hp, replace_all_match by done. rewrite !filter_app, !length_app.
    pose proof (replace_all_grows P w r rest Hw). lia.
  - rewrite replace_all_step by done. rewrite !filter_cons.
    apply occurs_in_cons in Ho as [Ho|Ho]; [done|]. specialize (IH Ho).
    case_decide; simpl; lia.
Qed.

Lemma sub_zip_spec (s : str) :
  Re.sub (u"\.zip") (u".fixed_users") s
  = Some (replace_all (u".zip") (u".fixed_users") s).
Proof.
  unfold Re.sub. replace (Re.compile (u"\.zip"))
    with (Some (Re.Lit <$> u".zip")) by by vm_compute.
  by replace (Re.template (u".fixed_users"))
    with (Some (u".fixed_users")) by by vm_compute.
Qed.

Lemma outfile_spec p :
  outfile p = Ok (replace_all (u".zip") (u".fixed_users") p).
Proof. unfold outfile. by rewrite sub_zip_spec. Qed.

(** The new archive is never the file the export was read from. *)
Lemma archive_is_not_the_export p name :
  outfile p = Ok name → resolve (name ++ u".zip") ≠ resolve p.
Proof.
  rewrite outfile_spec. intros [= <-] E%resolve_letters.
  apply (f_equal length) in E. unfold letters in E.
  rewrite filter_app, length_app in E.
  pose proof (replace_all_grows (λ c, c ≠ Xml.SLASH) (u".zip")
                (u".fixed_users") p) as Hg.
  assert (length (filter (λ c, c ≠ Xml.SLASH) (u".zip")) = 4%nat) as E4
    by by vm_compute.
  rewrite E4 in E.
  assert (4 ≤ length (filter (λ c, c ≠ Xml.SLASH) (u".fixed_users")))%nat
    as E12 by (vm_compute; lia).
  rewrite E4 in Hg. specialize (Hg ltac:(done) E12). lia.
Qed.

(** ** The steps one by one *)

Lemma writes_only_weaken {A} (D D' : list str → Prop) (m : prog A) :
  (∀ k, D k → D' k) → writes_only D m → writes_only D' m.
Proof. intros HD Hm σ k Hk. apply Hm. auto. Qed.

Lemma writes_only_ret {A} D (a : A) : writes_only D (mret a).
Proof. by intros σ k _. Qed.

Lemma writes_only_lift {A} D (r : result A) : writes_only D (lift r).
Proof. by intros σ k _. Qed.

Lemma writes_only_bind {A B} D (m : prog A) (f : A → prog B) :
  writes_only D m → (∀ a, writes_only D (f a)) → writes_only D (m ≫= f).
Proof.
  intros Hm Hf σ k Hk. unfold mbind, prog_bind.
  specialize (Hm σ k Hk). destruct (m σ) as [[a|e] σ1]; cbn [snd] in *.
  - by rewrite (Hf a σ1 k Hk).
  - done.
Qed.


Lemma raises_within_writes {A} D (m : prog A) :
  writes_only D m → raises_within D m.
Proof. intros Hm σ e k _ Hk. by apply Hm. Qed.

Lemma ZipFile_read_writes D path : writes_only D (ZipFile_read path).
Proof.
  intros σ k _. unfold ZipFile_read.
  by destruct (σ !! resolve path) as [[?|?]|].
Qed.

Lemma read_text_writes D path : writes_only D (read_text path).
Proof.
  intros σ k _. unfold read_text.
  by destruct (σ !! resolve path) as [[?|?]|].
Qed.

Lemma extractall_writes members dest :
  writes_only (below (resolve dest)) (extractall members dest).
Proof. intros σ k Hk. by apply extractall_outside. Qed.

Lemma write_text_writes path content :
  writes_only (λ k, k = resolve path) (write_text path content).
Proof.
  intros σ k Hk. unfold write_text. cbn [snd].
  by rewrite lookup_insert_ne by done.
Qed.

Lemma ZipFile_create_writes path :
  writes_only (λ k, k = resolve path) (ZipFile_create path).
Proof.
  intros σ k Hk. unfold ZipFile_create. cbn [snd].
  by rewrite lookup_insert_ne by done.
Qed.

Lemma ZipFile_write_writes path filename arcname :
  writes_only (λ k, k = resolve path) (ZipFile_write path filename arcname).
Proof.
  intros σ k Hk. unfold ZipFile_write.
  destruct (σ !! resolve filename) as [f|]; [|done].
  destruct (σ !! resolve path) as [[?|ms]|]; [done| |done]. cbn [snd].
  by rewrite lookup_insert_ne by done.
Qed.

Lemma unlink_writes path : writes_only (λ k, k = resolve path) (unlink path).
Proof.
  intros σ k Hk. unfold unlink.
  destruct (σ !! resolve path) as [f|]; [|done]. cbn [snd].
  by rewrite lookup_delete_ne by done.
Qed.

Lemma make_archive_writes base_name root_dir :
  writes_only (λ k, k = resolve (base_name ++ u".zip"))
    (make_archive base_name root_dir).
Proof.
  intros σ k Hk. unfold make_archive. cbn [snd].
  by rewrite lookup_insert_ne by done.
Qed.


Lemma rmtree_lookup dir σ k :
  (rmtree dir σ).2 !! k = if decide (below (resolve dir) k) then None
                          else σ !! k.
Proof.
  unfold rmtree. cbn [snd]. case_decide as Hk.
  - apply map_lookup_filter_None_2. right. intros f _ Hn. by apply Hn.
  - destruct (σ !! k) as [f|] eqn:E.
    + by apply map_lookup_filter_Some_2.
    + apply map_lookup_filter_None_2. by left.
Qed.

(** ** The methods *)

Lemma data_dir_below self k :
  below (resolve (data_path self None)) k → below (resolve (_workspace self)) k.
Proof.
  unfold data_path, workspace_path. rewrite resolve_app.
  intros [k' ->]. rewrite <- app_assoc. apply below_app.
Qed.

Lemma unpack_writes self p :
  writes_only (below (resolve (_workspace self))) (unpack self p).
Proof.
  unfold unpack. apply writes_only_bind; [apply ZipFile_read_writes|].
  intros ms. apply writes_only_bind; [apply extractall_writes|]. intros [].
  apply writes_only_bind; [apply ZipFile_read_writes|]. intros ms2.
  eapply writes_only_weaken; [|apply extractall_writes].
  apply data_dir_below.
Qed.

Lemma update_config_writes self in_path out_path :
  writes_only (λ k, k = resolve out_path)
    (update_config self in_path out_path).
Proof.
  unfold update_config. apply writes_only_bind; [apply read_text_writes|].
  intros content. apply writes_only_bind; [apply writes_only_lift|].
  intros out. apply write_text_writes.
Qed.

Lemma update_entities_writes self in_path out_path :
  writes_only (λ k, k = resolve out_path)
    (update_entities self in_path out_path).
Proof.
  unfold update_entities. apply writes_only_bind; [apply read_text_writes|].
  intros content. apply writes_only_bind; [apply writes_only_lift|].
  intros out. apply write_text_writes.
Qed.

Lemma objects_key self :
  resolve (_objects_xml_path self)
  = resolve (_workspace self) ++ [u"data"; u"activeobjects.xml"].
Proof.
  unfold _objects_xml_path, data_path, workspace_path.
  by rewrite resolve_app.
Qed.

Lemma in_workspace self k (rel : list str) :
  k = resolve (_workspace self) ++ rel → below (resolve (_workspace self)) k.
Proof. intros ->. apply below_app. Qed.

Lemma writes_only_lift_bind {A B} D (r : result A) (f : A → prog B) :
  (∀ a, r = Ok a → writes_only D (f a)) → writes_only D (lift r ≫= f).
Proof.
  intros Hf σ k Hk. unfold mbind, prog_bind, lift.
  destruct r as [a|e]; [|done]. by apply Hf.
Qed.


Ltac in_workspace :=
  let k := fresh "k" in
  intros k ->;
  first [ eapply in_workspace, data_zip_key
        | eapply in_workspace, objects_key
        | eapply in_workspace, entities_key
        | eapply in_workspace, config_key ].


(** The paths a run in normal mode may write: the workspace and the new
    archive. *)
Lemma pack_writes self p :
  debug self = false →
  writes_only
    (λ k, below (resolve (_workspace self)) k
          ∨ k = resolve (replace_all (u".zip") (u".fixed_users") p ++ u".zip"))
    (pack self p).
Proof.
  intros Hd. unfold pack. rewrite prepare_output_path_normal by done.
  apply writes_only_lift_bind. intros eo [= <-].
  apply writes_only_bind.
  { eapply writes_only_weaken; [|apply ZipFile_create_writes].
    intros k Hk. left. revert k Hk. in_workspace. }
  intros []. apply writes_only_bind.
  { eapply writes_only_weaken; [|apply ZipFile_write_writes].
    intros k Hk. left. revert k Hk. in_workspace. }
  intros []. apply writes_only_bind.
  { eapply writes_only_weaken; [|apply ZipFile_write_writes].
    intros k Hk. left. revert k Hk. in_workspace. }
  intros []. apply writes_only_bind.
  { eapply writes_only_weaken; [|apply unlink_writes].
    intros k Hk. left. revert k Hk. in_workspace. }
  intros []. apply writes_only_bind.
  { eapply writes_only_weaken; [|apply unlink_writes].
    intros k Hk. left. revert k Hk. in_workspace. }
  intros []. rewrite outfile_spec. apply writes_only_lift_bind.
  intros name [= <-].
  eapply writes_only_weaken; [|apply make_archive_writes]. intros k ->.
  by right.
Qed.

Lemma massage_writes self p :
  debug self = false →
  writes_only
    (λ k, below (resolve (_workspace self)) k
          ∨ k = resolve (replace_all (u".zip") (u".fixed_users") p ++ u".zip"))
    (massage self p).
Proof.
  intros Hd. unfold massage. rewrite !prepare_output_path_normal by done.
  rewrite Hd. cbn [negb].
  apply writes_only_bind.
  { eapply writes_only_weaken; [|apply unpack_writes]. by left. }
  intros []. apply writes_only_lift_bind. intros co [= <-].
  apply writes_only_bind.
  { eapply writes_only_weaken; [|apply update_config_writes].
    intros k Hk. left. revert k Hk. in_workspace. }
  intros []. apply writes_only_lift_bind. intros eo [= <-].
  apply writes_only_bind.
  { eapply writes_only_weaken; [|apply update_entities_writes].
    intros k Hk. left. revert k Hk. in_workspace. }
  intros []. by apply pack_writes.
Qed.



Lemma run_normal_lookup self p σ k :
  debug self = false →
  (run self p σ).2 !! k
  = if decide (below (resolve (_workspace self)) k) then None
    else (massage self p σ).2 !! k.
Proof.
  intros Hd. unfold run. destruct (massage self p σ) as [r σ'].
  unfold __exit__. rewrite Hd. cbn [snd]. apply rmtree_lookup.
Qed.

Lemma not_below_export : ¬ below (resolve (u"/tmp/tmpab12cd34"))
                             (resolve (u"/in/export.zip")).
Proof. literal. Qed.

(** ** The theorems *)

(** [unpack], whatever it finds at the path it is given and whether it
    returns or raises, writes below the workspace only: every other path
    holds what it held. *)
Theorem unpack_stays_in_workspace (self : Masseur) (export_zip_path : str)
    (σ : filesystem) (k : list str) :
  ¬ below (resolve (_workspace self)) k →
  (unpack self export_zip_path σ).2 !! k = σ !! k.
Proof. intros Hk. by apply unpack_writes. Qed.

Lemma unpack_stays_in_workspace_witness :
  (unpack (masseur false) (u"/in/export.zip")
     (disk "/in/export.zip" export_zip)).2 !! resolve (u"/in/export.zip")
  = Some export_zip.
Proof.
  rewrite (unpack_stays_in_workspace (masseur false) (u"/in/export.zip")
             (disk "/in/export.zip" export_zip) (resolve (u"/in/export.zip"))
             not_below_export).
  reflexivity.
Defined.

(** A run of the command in normal mode, whether [massage] returns or
    raises: the name of the new archive is never the path of the export;
    nothing is left below the workspace; and every path outside the
    workspace other than the new archive holds what it held before. *)
Theorem normal_run_leaves_only_the_archive (self : Masseur)
    (export_zip_path : str) (σ : filesystem) :
  debug self = false →
  ∃ name,
    outfile export_zip_path = Ok name
    ∧ resolve (name ++ u".zip") ≠ resolve export_zip_path
    ∧ (∀ k, below (resolve (_workspace self)) k →
            (run self export_zip_path σ).2 !! k = None)
    ∧ (∀ k, ¬ below (resolve (_workspace self)) k →
            k ≠ resolve (name ++ u".zip") →
            (run self export_zip_path σ).2 !! k = σ !! k).
Proof.
  intros Hd. eexists. split; [apply outfile_spec|].
  split; [apply archive_is_not_the_export, outfile_spec|]. split.
  - intros k Hk. rewrite run_normal_lookup by done. by rewrite decide_True.
  - intros k Hk Hne. rewrite run_normal_lookup by done.
    rewrite decide_False by done. apply massage_writes; [done|]. tauto.
Qed.

Lemma normal_run_leaves_only_the_archive_witness :
  ∃ name,
    outfile (u"/in/export.zip") = Ok name
    ∧ (run (masseur false) (u"/in/export.zip")
         (disk "/in/export.zip" export_zip)).2 !! resolve (u"/in/export.zip")
      = Some export_zip.
Proof.
  destruct (normal_run_leaves_only_the_archive (masseur false)
              (u"/in/export.zip") (disk "/in/export.zip" export_zip) eq_refl)
    as (name & Hname & Hne & _ & Hout).
  exists name. split; [exact Hname|].
  rewrite (Hout _ not_below_export (not_eq_sym Hne)). reflexivity.
Defined.




(** An export that is not there, or is not an archive: [massage] raises
    at once and the file system is as it was. *)
Theorem unreadable_export_changes_nothing (self : Masseur)
    (export_zip_path : str) (σ : filesystem) :
  (σ !! resolve export_zip_path = None →
   massage self export_zip_path σ = (Raise OSError, σ))
  ∧ (∀ content, σ !! resolve export_zip_path = Some (Text content) →
       massage self export_zip_path σ = (Raise BadZipFile, σ)).
Proof.
  split; [intros E|intros content E];
    unfold massage, unpack; apply bind_raise, bind_raise;
    unfold ZipFile_read; by rewrite E.
Qed.

End Frames.

(** * The archives [pack] makes *)

Module Packing.
Import Spec ReFacts Examples Workspace Runs Effects Frames.

Ltac literal := apply (bool_decide_unpack _); by vm_compute.

(** The members of a new archive are the files below the directory,
    each under the path that leads to it from there. *)
Lemma make_archive_members base_name root_dir σ :
  ∃ members,
    (make_archive base_name root_dir σ).2
    = <[resolve (base_name ++ u".zip") := Zip members]> σ
    ∧ ∀ nm f, (nm, f) ∈ members
              ↔ ∃ rel, nm = join_path rel
                       ∧ σ !! (resolve root_dir ++ rel) = Some f.
Proof.
  unfold make_archive. cbn [snd]. eexists. split; [reflexivity|].
  intros nm f. rewrite list_elem_of_fmap. split.
  - intros ([k f'] & Heq & Hin). cbn [fst snd] in Heq.
    injection Heq as -> ->.
    apply elem_of_map_to_list, map_lookup_filter_Some in Hin as [Hk Hb].
    cbn [fst] in Hb. destruct Hb as [rel ->].
    exists rel. by rewrite drop_app_length.
  - intros (rel & -> & Hk). exists (resolve root_dir ++ rel, f).
    cbn [fst snd]. rewrite drop_app_length. split; [done|].
    apply elem_of_map_to_list, map_lookup_filter_Some. split; [done|].
    apply below_app.
Qed.

Lemma ZipFile_write_inv path filename arcname σ σ' :
  ZipFile_write path filename arcname σ = (Ok (), σ') →
  ∃ f members,
    σ !! resolve filename = Some f
    ∧ σ !! resolve path = Some (Zip members)
    ∧ σ' = <[resolve path := Zip (members ++ [(arcname, f)])]> σ.
Proof.
  unfold ZipFile_write. destruct (σ !! resolve filename) as [f|]; [|done].
  destruct (σ !! resolve path) as [[?|ms]|]; [done| |done].
  intros [= <-]. by exists f, ms.
Qed.

Lemma unlink_inv path σ σ' :
  unlink path σ = (Ok (), σ') → σ' = delete (resolve path) σ.
Proof.
  unfold unlink. destruct (σ !! resolve path); [|done]. by intros [= <-].
Qed.

Lemma keys_differ (ws : list str) (a b : list str) :
  a ≠ b → ws ++ a ≠ ws ++ b.
Proof. intros Hab E. by apply app_inv_head in E. Qed.

(** The state [pack] archives. *)
Lemma pack_inv self p σ σ' :
  debug self = false →
  pack self p σ = (Ok (), σ') →
  ∃ ao e,
    σ !! resolve (_objects_xml_path self) = Some ao
    ∧ σ !! resolve (_entities_xml_path self) = Some e
    ∧ σ' = (make_archive (replace_all (u".zip") (u".fixed_users") p)
              (workspace_path self None)
              (delete (resolve (_entities_xml_path self))
                 (delete (resolve (_objects_xml_path self))
                    (<[resolve (_data_zip_path self)
                         := Zip [(u"activeobjects.xml", ao);
                                 (u"entities.xml", e)]]> σ)))).2.
Proof.
  intros Hd. unfold pack. rewrite prepare_output_path_normal by done.
  rewrite outfile_spec. intros H.
  apply bind_inv in H as (eo & σ0 & [[= <-] ->]%lift_inv & H).
  apply bind_inv in H as ([] & σ1 & H1 & H).
  unfold ZipFile_create in H1. injection H1 as <-.
  apply bind_inv in H as ([] & σ2 & H2 & H).
  apply ZipFile_write_inv in H2 as (ao & ms & Hao & Hms & ->).
  rewrite lookup_insert_eq in Hms. injection Hms as <-.
  rewrite insert_insert_eq in H. cbn [app] in H.
  apply bind_inv in H as ([] & σ3 & H3 & H).
  apply ZipFile_write_inv in H3 as (e & ms & He & Hms & ->).
  rewrite lookup_insert_eq in Hms. injection Hms as <-.
  rewrite insert_insert_eq in H. cbn [app] in H.
  apply bind_inv in H as ([] & σ4 & ->%unlink_inv & H).
  apply bind_inv in H as ([] & σ5 & ->%unlink_inv & H).
  apply bind_inv in H as (name & σ6 & [[= <-] ->]%lift_inv & H).
  rewrite objects_key, data_zip_key in Hao.
  rewrite lookup_insert_ne in Hao by (apply keys_differ; discriminate).
  rewrite entities_key, data_zip_key in He.
  rewrite lookup_insert_ne in He by (apply keys_differ; discriminate).
  exists ao, e. split; [by rewrite objects_key|].
  split; [by rewrite entities_key|]. by rewrite H.
Qed.

(** What [pack] leaves in normal mode: the state it archives, with the
    new archive added, whose members are the files below the workspace. *)
Lemma pack_spec self export_zip_path σ σ' :
  debug self = false →
  pack self export_zip_path σ = (Ok (), σ') →
  ∃ ao e members,
    σ !! resolve (_objects_xml_path self) = Some ao
    ∧ σ !! resolve (_entities_xml_path self) = Some e
    ∧ let data_zip :=
        Zip [(u"activeobjects.xml", ao); (u"entities.xml", e)] in
      let σ2 :=
        delete (resolve (_entities_xml_path self))
          (delete (resolve (_objects_xml_path self))
             (<[resolve (_data_zip_path self) := data_zip]> σ)) in
      σ' = <[resolve (replace_all (u".zip") (u".fixed_users")
                        export_zip_path ++ u".zip") := Zip members]> σ2
      ∧ (∀ nm f, (nm, f) ∈ members
                 ↔ ∃ rel, nm = join_path rel
                          ∧ σ2 !! (resolve (_workspace self) ++ rel)
                            = Some f).
Proof.
  intros Hd (ao & e & Hao & He & ->)%pack_inv; [|done].
  destruct (make_archive_members
              (replace_all (u".zip") (u".fixed_users") export_zip_path)
              (workspace_path self None)
              (delete (resolve (_entities_xml_path self))
                 (delete (resolve (_objects_xml_path self))
                    (<[resolve (_data_zip_path self)
                         := Zip [(u"activeobjects.xml", ao);
                                 (u"entities.xml", e)]]> σ))))
    as (members & Hσ & Hm).
  exists ao, e, members. split; [done|]. split; [done|]. cbv zeta.
  split; [exact Hσ|exact Hm].
Qed.

(** [pack] in normal mode, when it returns: the two loose files were
    there; [data.zip] is a new archive of exactly these two, under the
    names [activeobjects.xml] and [entities.xml]; the loose files are
    removed; and the new archive, at the export's name with every [.zip]
    replaced and [.zip] appended, holds the files then below the
    workspace, each under its path from there, the rebuilt
    [data/data.zip] among them. *)
Theorem pack_rebuilds_archives (self : Masseur) (export_zip_path : str)
    (σ σ' : filesystem) :
  debug self = false →
  pack self export_zip_path σ = (Ok (), σ') →
  ∃ ao e members,
    σ !! resolve (_objects_xml_path self) = Some ao
    ∧ σ !! resolve (_entities_xml_path self) = Some e
    ∧ let data_zip :=
        Zip [(u"activeobjects.xml", ao); (u"entities.xml", e)] in
      let σ2 :=
        delete (resolve (_entities_xml_path self))
          (delete (resolve (_objects_xml_path self))
             (<[resolve (_data_zip_path self) := data_zip]> σ)) in
      σ' = <[resolve (replace_all (u".zip") (u".fixed_users")
                        export_zip_path ++ u".zip") := Zip members]> σ2
      ∧ (∀ nm f, (nm, f) ∈ members
                 ↔ ∃ rel, nm = join_path rel
                          ∧ σ2 !! (resolve (_workspace self) ++ rel)
                            = Some f)
      ∧ (u"data/data.zip", data_zip) ∈ members
      ∧ σ2 !! resolve (_objects_xml_path self) = None
      ∧ σ2 !! resolve (_entities_xml_path self) = None.
Proof.
  intros Hd (ao & e & members & Hao & He & Hσ & Hm)%pack_spec; [|done].
  cbv zeta in Hσ, Hm.
  exists ao, e, members. split; [done|]. split; [done|]. cbv zeta.
  split; [exact Hσ|]. split; [exact Hm|]. split; [|split].
  - apply Hm. exists [u"data"; u"data.zip"]. split; [reflexivity|].
    rewrite objects_key, entities_key, data_zip_key.
    rewrite !lookup_delete_ne by (apply keys_differ; discriminate).
    apply lookup_insert_eq.
  - rewrite objects_key, entities_key.
    rewrite lookup_delete_ne by (apply keys_differ; discriminate).
    apply lookup_delete_eq.
  - apply lookup_delete_eq.
Qed.

Lemma pack_rebuilds_archives_witness :
  ∃ members,
    (pack (masseur false) (u"/in/export.zip")
       (<[resolve (u"/tmp/tmpab12cd34/data/entities.xml")
            := Text entities_xml]>
          (disk "/tmp/tmpab12cd34/data/activeobjects.xml"
             (Text (u"<ao/>"))))).2
      !! resolve (u"/in/export.fixed_users.zip") = Some (Zip members)
    ∧ (u"data/data.zip",
       Zip [(u"activeobjects.xml", Text (u"<ao/>"));
            (u"entities.xml", Text entities_xml)]) ∈ members.
Proof.
  set (σ := <[resolve (u"/tmp/tmpab12cd34/data/entities.xml")
                := Text entities_xml]>
              (disk "/tmp/tmpab12cd34/data/activeobjects.xml"
                 (Text (u"<ao/>")))).
  set (m := pack (masseur false) (u"/in/export.zip") σ).
  assert (m.1 = Ok ()) as H1 by (vm_compute; reflexivity).
  assert (m = (Ok (), m.2)) as Hm.
  { destruct m as [r s]. cbn [fst snd] in *. by rewrite H1. }
  destruct (pack_rebuilds_archives (masseur false) (u"/in/export.zip")
              σ m.2 eq_refl Hm)
    as (ao & e & members & Hao & He & Hσ & _ & Hin & _).
  exists members. split.
  - rewrite Hσ. apply lookup_insert_eq.
  - assert (ao = Text (u"<ao/>")) as <-.
    { assert (σ !! resolve (_objects_xml_path (masseur false))
              = Some (Text (u"<ao/>"))) as E by (vm_compute; reflexivity).
      congruence. }
    assert (e = Text entities_xml) as <-.
    { assert (σ !! resolve (_entities_xml_path (masseur false))
              = Some (Text entities_xml)) as E by (vm_compute; reflexivity).
      congruence. }
    exact Hin.
Defined.

(** With a [data.zip] and without [activeobjects.xml] in the workspace
    [pack] raises the error of the missing file, and by then [data.zip]
    has been replaced by an empty archive: the archive is opened for
    writing before the file to add is looked for. Nothing else is
    changed. *)
Theorem pack_without_objects_empties_data_zip (self : Masseur)
    (export_zip_path : str) (σ : filesystem) :
  is_Some (σ !! resolve (_data_zip_path self)) →
  σ !! resolve (_objects_xml_path self) = None →
  pack self export_zip_path σ
  = (Raise OSError, <[resolve (_data_zip_path self) := Zip []]> σ).
Proof.
  intros _ Hao. unfold pack.
  assert (∃ eo, _prepare_output_path self (_entities_xml_path self) = Ok eo)
    as [eo ->].
  { unfold _prepare_output_path. destruct (negb (debug self)); [by eexists|].
    rewrite sub_xml_spec. by eexists. }
  erewrite bind_ok; [|reflexivity].
  erewrite bind_ok; [|reflexivity].
  apply bind_raise. unfold ZipFile_write.
  rewrite lookup_insert_ne.
  - by rewrite Hao.
  - rewrite objects_key, data_zip_key. apply keys_differ. discriminate.
Qed.

Lemma pack_without_objects_empties_data_zip_witness :
  pack (masseur false) (u"/in/export.zip")
    (disk "/tmp/tmpab12cd34/data/data.zip" data_zip)
  = (Raise OSError,
     <[resolve (u"/tmp/tmpab12cd34/data/data.zip") := Zip []]>
       (disk "/tmp/tmpab12cd34/data/data.zip" data_zip)).
Proof.
  rewrite (pack_without_objects_empties_data_zip (masseur false)
             (u"/in/export.zip")
             (disk "/tmp/tmpab12cd34/data/data.zip" data_zip)).
  - f_equal.
  - exists data_zip. vm_compute. reflexivity.
  - vm_compute. reflexivity.
Defined.

(** ** The whole of a run in normal mode *)

Lemma archived_state_lookup (ws : list str) (σu : filesystem)
    (config_out dz : file) (entities_out : file) (rel : list str) :
  delete (ws ++ [u"data"; u"entities.xml"])
    (delete (ws ++ [u"data"; u"activeobjects.xml"])
       (<[ws ++ [u"data"; u"data.zip"] := dz]>
          (<[ws ++ [u"data"; u"entities.xml"] := entities_out]>
             (<[ws ++ [u"config.xml"] := config_out]> σu))))
    !! (ws ++ rel)
  = if decide (rel = [u"data"; u"entities.xml"]) then None
    else if decide (rel = [u"data"; u"activeobjects.xml"]) then None
    else if decide (rel = [u"data"; u"data.zip"]) then Some dz
    else if decide (rel = [u"config.xml"]) then Some config_out
    else σu !! (ws ++ rel).
Proof.
  case_decide as H1; [subst; apply lookup_delete_eq|].
  rewrite lookup_delete_ne by (by apply keys_differ).
  case_decide as H2; [subst; apply lookup_delete_eq|].
  rewrite lookup_delete_ne by (by apply keys_differ).
  case_decide as H3; [subst; apply lookup_insert_eq|].
  rewrite lookup_insert_ne by (by apply keys_differ).
  rewrite lookup_insert_ne by (by apply keys_differ).
  case_decide as H4; [subst; apply lookup_insert_eq|].
  by rewrite lookup_insert_ne by (by apply keys_differ).
Qed.

(** A run of [massage] in normal mode that returns. The export was
    unpacked; [config.xml] and [data/entities.xml] of the workspace were
    texts and [data/activeobjects.xml] was there. The new archive holds
    [config.xml] with the rewritten text, [data/data.zip] as an archive of
    [activeobjects.xml] as unpacked and of [entities.xml] with the
    rewritten text, and every other file unpacked into the workspace as it
    was unpacked; the loose [data/entities.xml] and
    [data/activeobjects.xml] are not in it. *)
Theorem normal_mode_archive_contents (self : Masseur)
    (export_zip_path : str) (σ σ' : filesystem) :
  debug self = false →
  massage self export_zip_path σ = (Ok (), σ') →
  ∃ σu config entities ao config_out entities_out members,
    unpack self export_zip_path σ = (Ok (), σu)
    ∧ σu !! (resolve (_workspace self) ++ [u"config.xml"])
      = Some (Text config)
    ∧ σu !! (resolve (_workspace self) ++ [u"data"; u"entities.xml"])
      = Some (Text entities)
    ∧ σu !! (resolve (_workspace self) ++ [u"data"; u"activeobjects.xml"])
      = Some ao
    ∧ update_config_text (user_name_map self) config = Ok config_out
    ∧ update_entities_text (user_name_map self) entities = Ok entities_out
    ∧ σ' !! resolve (replace_all (u".zip") (u".fixed_users")
                       export_zip_path ++ u".zip") = Some (Zip members)
    ∧ (u"config.xml", Text config_out) ∈ members
    ∧ (u"data/data.zip",
       Zip [(u"activeobjects.xml", ao);
            (u"entities.xml", Text entities_out)]) ∈ members
    ∧ (∀ nm f,
         (nm, f) ∈ members
         ↔ ∃ rel,
             nm = join_path rel
             ∧ (rel = [u"config.xml"] ∧ f = Text config_out
                ∨ rel = [u"data"; u"data.zip"]
                  ∧ f = Zip [(u"activeobjects.xml", ao);
                             (u"entities.xml", Text entities_out)]
                ∨ (rel ∉ [[u"config.xml"]; [u"data"; u"data.zip"];
                          [u"data"; u"entities.xml"];
                          [u"data"; u"activeobjects.xml"]])
                  ∧ σu !! (resolve (_workspace self) ++ rel) = Some f)).
Proof.
  intros Hd Hm. unfold massage in Hm.
  rewrite !prepare_output_path_normal in Hm by done.
  rewrite Hd in Hm. cbn [negb] in Hm.
  apply bind_inv in Hm as ([] & σu & Hu & Hm).
  apply bind_inv in Hm as (co & σ1 & [[= <-] ->]%lift_inv & Hm).
  apply bind_inv in Hm as ([] & σ2 & Hc & Hm).
  apply bind_inv in Hm as (eo & σ3 & [[= <-] ->]%lift_inv & Hm).
  apply bind_inv in Hm as ([] & σ4 & He & Hm).
  apply update_config_inv in Hc as (config & config_out & Hc1 & Hc2 & ->).
  apply update_entities_inv in He as (entities & entities_out & He1 & He2 & ->).
  apply pack_spec in Hm
    as (ao & e & members & Hao & Hent & Hσ & Hmem); [|done].
  cbv zeta in Hσ, Hmem.
  rewrite lookup_insert_eq in Hent. injection Hent as <-.
  rewrite config_key in *. rewrite entities_key in *.
  rewrite objects_key, data_zip_key in *.
  rewrite !lookup_insert_ne in Hao by (apply keys_differ; discriminate).
  rewrite lookup_insert_ne in He1 by (apply keys_differ; discriminate).
  assert (∀ nm f,
            (nm, f) ∈ members
            ↔ ∃ rel,
                nm = join_path rel
                ∧ (rel = [u"config.xml"] ∧ f = Text config_out
                   ∨ rel = [u"data"; u"data.zip"]
                     ∧ f = Zip [(u"activeobjects.xml", ao);
                                (u"entities.xml", Text entities_out)]
                   ∨ (rel ∉ [[u"config.xml"]; [u"data"; u"data.zip"];
                             [u"data"; u"entities.xml"];
                             [u"data"; u"activeobjects.xml"]])
                     ∧ σu !! (resolve (_workspace self) ++ rel) = Some f))
    as Hall.
  { intros nm f. rewrite Hmem. split.
    - intros (rel & -> & Hl). exists rel. split; [done|].
      rewrite archived_state_lookup in Hl.
      repeat case_decide; try done.
      + right. left. split; [done|]. congruence.
      + left. split; [done|]. congruence.
      + right. right. split; [|done].
        rewrite !not_elem_of_cons. repeat split; try done.
        apply not_elem_of_nil.
    - intros (rel & -> & Hrel). exists rel. split; [done|].
      rewrite archived_state_lookup.
      destruct Hrel as [[-> ->]|[[-> ->]|[Hrel Hl]]].
      + by rewrite !decide_False, decide_True by done.
      + by rewrite !decide_False, decide_True by done.
      + rewrite !not_elem_of_cons in Hrel.
        destruct Hrel as (? & ? & ? & ? & _).
        by rewrite !decide_False by done. }
  exists σu, config, entities, ao, config_out, entities_out, members.
  split; [done|]. split; [done|]. split; [done|]. split; [done|].
  split; [done|]. split; [done|].
  split; [rewrite Hσ; apply lookup_insert_eq|].
  split; [apply Hall; exists [u"config.xml"]; split; [done|by left]|].
  split; [|exact Hall].
  apply Hall. exists [u"data"; u"data.zip"]. split; [done|]. right. by left.
Qed.

Lemma normal_mode_archive_contents_witness :
  ∃ σ' members,
    massage (masseur false) (u"/in/export.zip")
      (disk "/in/export.zip" export_zip) = (Ok (), σ')
    ∧ σ' !! resolve (u"/in/export.fixed_users.zip") = Some (Zip members)
    ∧ (u"config.xml",
       Text (DECLARATION_LINE ++ u"<c><username>bob</username></c>"))
      ∈ members.
Proof.
  set (m := massage (masseur false) (u"/in/export.zip")
              (disk "/in/export.zip" export_zip)).
  assert (m.1 = Ok ()) as H1 by (vm_compute; reflexivity).
  assert (m = (Ok (), m.2)) as Hm.
  { destruct m as [r s]. cbn [fst snd] in *. by rewrite H1. }
  destruct (normal_mode_archive_contents (masseur false) (u"/in/export.zip")
              (disk "/in/export.zip" export_zip) m.2 eq_refl Hm)
    as (σu & config & entities & ao & co & eo & members
        & Hu & Hc & _ & _ & Hco & _ & Hσ & Hin & _).
  assert (resolve (replace_all (u".zip") (u".fixed_users")
                     (u"/in/export.zip") ++ u".zip")
          = resolve (u"/in/export.fixed_users.zip")) as Ek
    by (vm_compute; reflexivity).
  rewrite Ek in Hσ.
  exists m.2, members. split; [exact Hm|]. split; [exact Hσ|].
  assert (σu = (unpack (masseur false) (u"/in/export.zip")
                  (disk "/in/export.zip" export_zip)).2) as ->
    by (by rewrite Hu).
  assert (config = config_xml) as ->.
  { assert ((unpack (masseur false) (u"/in/export.zip")
               (disk "/in/export.zip" export_zip)).2
              !! (resolve (_workspace (masseur false)) ++ [u"config.xml"])
            = Some (Text config_xml)) as E by (vm_compute; reflexivity).
    congruence. }
  assert (co = DECLARATION_LINE ++ u"<c><username>bob</username></c>") as <-.
  { assert (update_config_text (user_name_map (masseur false)) config_xml
            = Ok (DECLARATION_LINE ++ u"<c><username>bob</username></c>"))
      as E by (vm_compute; reflexivity).
    congruence. }
  exact Hin.
Defined.

(** The script at the top of the repository never runs [__exit__]:
    after its [main] has returned in normal mode the workspace is still
    on the disk, with the rewritten [config.xml] and the rebuilt
    [data/data.zip] in it, whereas the command of the package leaves
    nothing below the workspace. *)
Theorem script_keeps_the_workspace (self : Masseur) (file : str)
    (σ σ' : filesystem) :
  debug self = false →
  ¬ below (resolve (_workspace self))
      (resolve (replace_all (u".zip") (u".fixed_users") file ++ u".zip")) →
  Standalone.main self file σ = (Ok (), σ') →
  (∃ config_out,
     σ' !! (resolve (_workspace self) ++ [u"config.xml"])
     = Some (Text config_out))
  ∧ (∃ ao entities_out,
       σ' !! (resolve (_workspace self) ++ [u"data"; u"data.zip"])
       = Some (Zip [(u"activeobjects.xml", ao);
                    (u"entities.xml", Text entities_out)]))
  ∧ σ' !! (resolve (_workspace self) ++ [u"data"; u"entities.xml"]) = None
  ∧ (∀ k, below (resolve (_workspace self)) k →
          (run self file σ).2 !! k = None)
  ∧ (∀ k, below (resolve (_workspace self)) k →
          (Standalone.__exit__ self σ').2 !! k = None).
Proof.
  intros Hd Hout Hm. unfold Standalone.main in Hm.
  pose proof Hm as Hm'. unfold massage in Hm.
  rewrite !prepare_output_path_normal in Hm by done.
  rewrite Hd in Hm. cbn [negb] in Hm.
  apply bind_inv in Hm as ([] & σu & Hu & Hm).
  apply bind_inv in Hm as (co & σ1 & [[= <-] ->]%lift_inv & Hm).
  apply bind_inv in Hm as ([] & σ2 & Hc & Hm).
  apply bind_inv in Hm as (eo & σ3 & [[= <-] ->]%lift_inv & Hm).
  apply bind_inv in Hm as ([] & σ4 & He & Hm).
  apply update_config_inv in Hc as (config & config_out & Hc1 & Hc2 & ->).
  apply update_entities_inv in He as (entities & entities_out & He1 & He2 & ->).
  apply pack_spec in Hm
    as (ao & e & members & Hao & Hent & Hσ & _); [|done].
  cbv zeta in Hσ.
  rewrite lookup_insert_eq in Hent. injection Hent as <-.
  rewrite config_key, entities_key, objects_key, data_zip_key in Hσ.
  assert (∀ rel, σ' !! (resolve (_workspace self) ++ rel)
                 = delete (resolve (_workspace self)
                           ++ [u"data"; u"entities.xml"])
                     (delete (resolve (_workspace self)
                              ++ [u"data"; u"activeobjects.xml"])
                        (<[resolve (_workspace self) ++ [u"data"; u"data.zip"]
                             := Zip [(u"activeobjects.xml", ao);
                                     (u"entities.xml", Text entities_out)]]>
                           (<[resolve (_workspace self)
                              ++ [u"data"; u"entities.xml"]
                                := Text entities_out]>
                              (<[resolve (_workspace self) ++ [u"config.xml"]
                                   := Text config_out]> σu))))
                     !! (resolve (_workspace self) ++ rel)) as Hin.
  { intros rel. rewrite Hσ. apply lookup_insert_ne. intros E.
    apply Hout. rewrite E. apply below_app. }
  split; [exists config_out; by rewrite Hin, archived_state_lookup|].
  split; [exists ao, entities_out; by rewrite Hin, archived_state_lookup|].
  split; [by rewrite Hin, archived_state_lookup|]. split.
  - intros k Hk. rewrite run_normal_lookup by done. by rewrite decide_True.
  - intros k Hk. unfold Standalone.__exit__. rewrite rmtree_lookup.
    by rewrite decide_True.
Qed.

Lemma script_keeps_the_workspace_witness :
  ∃ σ' config_out,
    Standalone.main (masseur false) (u"/in/export.zip")
      (disk "/in/export.zip" export_zip) = (Ok (), σ')
    ∧ σ' !! (resolve (_workspace (masseur false)) ++ [u"config.xml"])
      = Some (Text config_out).
Proof.
  set (m := Standalone.main (masseur false) (u"/in/export.zip")
              (disk "/in/export.zip" export_zip)).
  assert (m.1 = Ok ()) as H1 by (vm_compute; reflexivity).
  assert (m = (Ok (), m.2)) as Hm.
  { destruct m as [r s]. cbn [fst snd] in *. by rewrite H1. }
  destruct (script_keeps_the_workspace (masseur false) (u"/in/export.zip")
              (disk "/in/export.zip" export_zip) m.2 eq_refl)
    as ([co Hco] & _); [literal|exact Hm|].
  exists m.2, co. split; [exact Hm|exact Hco].
Defined.

(** ** The names of the files *)

Lemma resolve_nil : resolve [] = [].
Proof. done. Qed.

Lemma resolve_slash name : resolve (u"/" ++ name) = resolve name.
Proof.
  change (u"/" ++ name) with ([] ++ u"/" ++ name). by rewrite resolve_app.
Qed.

(** The data paths of [__init__] are made with a slash too many, and
    it does no harm: [data_path] of a name with a slash in front and of
    the name without it lead to the same file, the one at [data] and then
    the name below the workspace, which is where [extractall] into
    [data_path()] puts the member of that name; and [workspace_path] of a
    name leads to the name below the workspace. *)
Theorem data_path_names_data_file (self : Masseur) (name : str) :
  resolve (data_path self (Some (u"/" ++ name)))
  = resolve (data_path self (Some name))
  ∧ resolve (data_path self (Some name))
    = resolve (_workspace self) ++ [u"data"] ++ resolve name
  ∧ resolve (data_path self None ++ u"/" ++ name)
    = resolve (data_path self (Some name))
  ∧ resolve (workspace_path self (Some name))
    = resolve (_workspace self) ++ resolve name.
Proof.
  assert (∀ n, resolve (data_path self (Some n))
               = resolve (_workspace self) ++ [u"data"] ++ resolve n) as Hd.
  { intros n. unfold data_path, workspace_path. rewrite resolve_app.
    change (u"data/" ++ n) with (u"data" ++ u"/" ++ n).
    by rewrite resolve_app. }
  split; [by rewrite !Hd, resolve_slash|]. split; [apply Hd|]. split.
  - rewrite Hd. unfold data_path, workspace_path.
    rewrite resolve_app, resolve_app. by rewrite <- app_assoc.
  - unfold workspace_path. apply resolve_app.
Qed.

(** [_prepare_output_path] never raises. In normal mode it gives the
    path back. In debug mode it replaces every [.xml] of the path, also
    in the names of the directories, by [.proc.xml]: the result names
    another file when the path holds [.xml], and is the path itself, so
    that a rewrite overwrites its input, when the path holds none. *)
Theorem prepare_output_path_behaviour (self : Masseur) (path : str) :
  ∃ out,
    _prepare_output_path self path = Ok out
    ∧ out = (if debug self
             then replace_all (u".xml") (u".proc.xml") path else path)
    ∧ (debug self = true → occurs_in (u".xml") path →
       resolve out ≠ resolve path)
    ∧ (debug self = true → ¬ occurs_in (u".xml") path → out = path).
Proof.
  eexists. split; [|split; [reflexivity|]].
  - unfold _prepare_output_path. destruct (debug self); cbn [negb]; [|done].
    by rewrite sub_xml_spec.
  - split; intros -> Ho.
    + intros E%resolve_letters. apply (f_equal length) in E.
      unfold letters in E.
      pose proof (replace_all_grows_strictly (λ c, c ≠ Xml.SLASH)
                    (u".xml") (u".proc.xml") path) as Hg.
      assert (length (filter (λ c, c ≠ Xml.SLASH) (u".xml"))
              < length (filter (λ c, c ≠ Xml.SLASH) (u".proc.xml")))%nat
        as Hlt by (vm_compute; lia).
      specialize (Hg ltac:(done) Hlt Ho). lia.
    + by apply Rewriting.replace_all_absent.
Qed.

End Packing.

(** * The text [update_entities] writes *)

Module Written.
Import Xml Spec ReFacts TreeFacts PassFacts Rewriting Examples Frames.

Ltac literal := apply (bool_decide_unpack _); by vm_compute.

(** What is written is the declaration line and a decoded text. *)
Lemma update_entities_text_inv d content out :
  update_entities_text d content = Ok out →
  ∃ s, out = DECLARATION_LINE ++ comment_fix (s ≫= final_char).
Proof.
  unfold update_entities_text.
  destruct (sentinel_encode content) as [c1|]; [|done].
  cbn [or_raise mbind result_bind].
  destruct (parse c1) as [root|]; [|done]. cbn [or_raise mbind result_bind].
  destruct (entities_pass d root) as [root'|]; [|done].
  cbn [or_raise mbind result_bind]. rewrite sentinel_decode_spec.
  cbn [or_raise mbind result_bind]. intros [= <-]. by eexists.
Qed.

(** ** No sentinel is left *)

Lemma elem_of_filter_eq (c : N) (s : str) : c ∈ s ↔ filter (λ x, x = c) s ≠ [].
Proof.
  split.
  - intros Hc E. assert (c ∈ filter (λ x, x = c) s) as Hin
      by (by apply list_elem_of_filter). rewrite E in Hin.
    by apply not_elem_of_nil in Hin.
  - intros Hne. destruct (filter (λ x, x = c) s) as [|x l] eqn:E; [done|].
    assert (x ∈ filter (λ x, x = c) s) as Hin
      by (rewrite E; apply list_elem_of_here).
    apply list_elem_of_filter in Hin as [-> Hin]. done.
Qed.

Lemma filter_eq_absent (c : N) (s : str) : c ∉ s → filter (λ x, x = c) s = [].
Proof.
  intros Hc. destruct (filter (λ x, x = c) s) eqn:E; [done|].
  exfalso. apply Hc, elem_of_filter_eq. by rewrite E.
Qed.

(** A character that is in neither the literal nor what replaces it is
    in the result where it was in the text. *)
Lemma elem_of_replace_all (c : N) w r s :
  w ≠ [] → c ∉ w → c ∉ r → c ∈ replace_all w r s ↔ c ∈ s.
Proof.
  intros Hw Hcw Hcr. rewrite !elem_of_filter_eq.
  by rewrite filter_replace_all by (done || by apply filter_eq_absent).
Qed.

Lemma final_char_no_sentinel c x :
  x = SENTINEL_FF ∨ x = SENTINEL_CR ∨ x = SENTINEL_QUOTE → x ∉ final_char c.
Proof.
  intros Hx. unfold final_char.
  case_bool_decide as H1; [destruct Hx as [->|[->| ->]]; literal|].
  case_bool_decide as H2; [destruct Hx as [->|[->| ->]]; literal|].
  case_bool_decide as H3; [destruct Hx as [->|[->| ->]]; literal|].
  rewrite list_elem_of_singleton. intros ->. by destruct Hx as [?|[?|?]].
Qed.

Lemma decoded_no_sentinel (s : str) x :
  x = SENTINEL_FF ∨ x = SENTINEL_CR ∨ x = SENTINEL_QUOTE →
  x ∉ s ≫= final_char.
Proof.
  intros Hx. induction s as [|c s IH]; [apply not_elem_of_nil|].
  cbn [mbind list_bind]. rewrite elem_of_app. intros [H|H]; [|done].
  by apply (final_char_no_sentinel c x).
Qed.

Lemma written_no_sentinel (s : str) x :
  x = SENTINEL_FF ∨ x = SENTINEL_CR ∨ x = SENTINEL_QUOTE →
  x ∉ DECLARATION_LINE ++ comment_fix (s ≫= final_char).
Proof.
  intros Hx. rewrite elem_of_app. intros [H|H].
  - revert H. destruct Hx as [->|[->| ->]]; literal.
  - unfold comment_fix in H. apply elem_of_replace_all in H.
    + by apply (decoded_no_sentinel s x).
    + done.
    + destruct Hx as [->|[->| ->]]; literal.
    + destruct Hx as [->|[->| ->]]; literal.
Qed.

(** None of the three sentinel code points is in a text
    [update_entities] writes, whatever the document and the mapping: a
    sentinel that was in the document, in a value of the mapping or put by
    the program is decoded alike. *)
Theorem output_holds_no_sentinel (d : dict) (content out : str) :
  update_entities_text d content = Ok out →
  (SENTINEL_FF ∉ out) ∧ (SENTINEL_CR ∉ out) ∧ (SENTINEL_QUOTE ∉ out).
Proof.
  intros [s ->]%update_entities_text_inv.
  repeat split; apply written_no_sentinel; auto.
Qed.

Lemma output_holds_no_sentinel_witness :
  SENTINEL_QUOTE ∉ entities_with_quote_out.
Proof.
  refine (proj2 (proj2 (output_holds_no_sentinel [] entities_with_quote
                          entities_with_quote_out _))).
  vm_compute. reflexivity.
Defined.

(** ** A sentinel in the document is a control character *)

Lemma encode_char_idem c : encode_char (encode_char c) = encode_char c.
Proof.
  unfold encode_char.
  destruct (decide (c = FF)) as [->|H1]; [by vm_compute|].
  destruct (decide (c = CR)) as [->|H2]; [by vm_compute|].
  repeat first [ rewrite (bool_decide_eq_false_2 (c = FF)) by done
               | rewrite (bool_decide_eq_false_2 (c = CR)) by done ].
  done.
Qed.

(** [update_entities] cannot tell a form feed from U+2622, nor a
    carriage return from U+2623: two documents that are alike once the
    control characters are encoded are rewritten to the same text, or
    fail alike. So a document with the sentinels in place of its control
    characters gives what the document gives. *)
Theorem sentinels_read_as_control_characters (d : dict) (c1 c2 : str) :
  encode_char <$> c1 = encode_char <$> c2 →
  update_entities_text d c1 = update_entities_text d c2
  ∧ update_entities_text d (encode_char <$> c1) = update_entities_text d c1.
Proof.
  intros E. unfold update_entities_text.
  rewrite !sentinel_encode_spec, E. split; [done|].
  replace (encode_char <$> (encode_char <$> c2)) with (encode_char <$> c2);
    [done|].
  clear E. induction c2 as [|c s IH]; [done|].
  by rewrite !fmap_cons, encode_char_idem, <- IH.
Qed.

Lemma sentinels_read_as_control_characters_witness :
  update_entities_text [] (u"<r>" ++ [SENTINEL_FF] ++ u"</r>")
  = update_entities_text [] (u"<r>" ++ [FF] ++ u"</r>").
Proof.
  refine (proj1 (sentinels_read_as_control_characters []
                   (u"<r>" ++ [SENTINEL_FF] ++ u"</r>")
                   (u"<r>" ++ [FF] ++ u"</r>") _)).
  vm_compute. reflexivity.
Defined.

(** ** No tag right after a comment end *)

Lemma comment_fix_unfold s :
  comment_fix s = replace_all [45; 45; 62; 60] [45; 45; 62; 10; 60] s.
Proof. reflexivity. Qed.

Lemma fix_match rest :
  replace_all [45; 45; 62; 60] [45; 45; 62; 10; 60]
    (45 :: 45 :: 62 :: 60 :: rest)
  = 45 :: 45 :: 62 :: 10 :: 60
    :: replace_all [45; 45; 62; 60] [45; 45; 62; 10; 60] rest.
Proof. by apply (replace_all_match [45; 45; 62; 60]). Qed.

(** The scan keeps the first character of a text. *)
Lemma fix_head s x o :
  replace_all [45; 45; 62; 60] [45; 45; 62; 10; 60] s = x :: o →
  ∃ tl, s = x :: tl.
Proof.
  destruct s as [|c tl]; [by rewrite replace_all_nil|].
  destruct (decide ([45; 45; 62; 60] `prefix_of` (c :: tl)))
    as [[rest Hp]|Hp].
  - cbn [app] in Hp. rewrite Hp, fix_match. intros [= <- _]. by eexists.
  - rewrite replace_all_step by done. intros [= <- _]. by eexists.
Qed.

Lemma fix_no_prefix s :
  ¬ [45; 45; 62; 60]
      `prefix_of` replace_all [45; 45; 62; 60] [45; 45; 62; 10; 60] s.
Proof.
  intros [k Hk]. cbn [app] in Hk.
  destruct s as [|c tl]; [by rewrite replace_all_nil in Hk|].
  destruct (decide ([45; 45; 62; 60] `prefix_of` (c :: tl)))
    as [[rest Hp]|Hp].
  { cbn [app] in Hp. rewrite Hp, fix_match in Hk. discriminate Hk. }
  rewrite replace_all_step in Hk by done. injection Hk as -> Hk.
  destruct (fix_head _ _ _ Hk) as [tl2 ->].
  destruct (decide ([45; 45; 62; 60] `prefix_of` (45 :: tl2)))
    as [[rest2 Hp2]|Hp2].
  { cbn [app] in Hp2. rewrite Hp2, fix_match in Hk. discriminate Hk. }
  rewrite replace_all_step in Hk by done. injection Hk as Hk.
  destruct (fix_head _ _ _ Hk) as [tl3 ->].
  rewrite replace_all_step in Hk
    by (done || (intros [? E]; discriminate E)).
  injection Hk as Hk. destruct (fix_head _ _ _ Hk) as [tl4 ->].
  apply Hp. by exists tl4.
Qed.

Lemma fix_no_occurrence s :
  ¬ occurs_in [45; 45; 62; 60]
      (replace_all [45; 45; 62; 60] [45; 45; 62; 10; 60] s).
Proof.
  remember (length s) as n eqn:Hn. revert s Hn.
  induction n as [n IH] using lt_wf_ind. intros s Hn [i Hi].
  destruct i as [|i]; [by apply fix_no_prefix in Hi|].
  destruct s as [|c tl].
  { rewrite replace_all_nil in Hi by done. by destruct Hi as [? ?]. }
  destruct (decide ([45; 45; 62; 60] `prefix_of` (c :: tl)))
    as [[rest Hp]|Hp].
  - cbn [app] in Hp. rewrite Hp, fix_match in Hi.
    destruct i as [|[|[|[|i]]]]; cbn [drop] in Hi;
      try (destruct Hi as [? E]; discriminate E).
    apply (IH (length rest)) with (s := rest); [|done|by exists i].
    rewrite Hn, Hp. simpl. lia.
  - rewrite replace_all_step in Hi by done. cbn [drop] in Hi.
    apply (IH (length tl)) with (s := tl); [|done|by exists i].
    rewrite Hn. simpl. lia.
Qed.

Lemma no_fix_from_declaration x :
  occurs_in [45; 45; 62; 60] (DECLARATION_LINE ++ x) →
  occurs_in [45; 45; 62; 60] x.
Proof.
  let l := eval vm_compute in DECLARATION_LINE in
  change DECLARATION_LINE with l.
  cbn [app]. intros H.
  repeat (apply occurs_in_cons in H as [[? E]|H]; [discriminate E|]).
  exact H.
Qed.

(** In a text [update_entities] writes, no comment end is followed at
    once by a tag: the four characters [--><] occur nowhere, the last
    replacement having put a newline into each such place and made no new
    one. *)
Theorem no_tag_right_after_comment_end (d : dict) (content out : str) :
  update_entities_text d content = Ok out → ¬ occurs_in (u"--><") out.
Proof.
  intros [s ->]%update_entities_text_inv.
  change (u"--><") with [45; 45; 62; 60].
  intros H%no_fix_from_declaration. rewrite comment_fix_unfold in H.
  by apply fix_no_occurrence in H.
Qed.

Lemma no_tag_right_after_comment_end_witness :
  update_entities_text [] (u"<r><!--c--><e/></r>")
  = Ok (DECLARATION_LINE ++ u"<r><!--c-->" ++ [LF] ++ u"<e/></r>")
  ∧ ¬ occurs_in (u"--><")
        (DECLARATION_LINE ++ u"<r><!--c-->" ++ [LF] ++ u"<e/></r>").
Proof.
  assert (update_entities_text [] (u"<r><!--c--><e/></r>")
          = Ok (DECLARATION_LINE ++ u"<r><!--c-->" ++ [LF] ++ u"<e/></r>"))
    as E by (vm_compute; reflexivity).
  split; [exact E|].
  exact (no_tag_right_after_comment_end [] _ _ E).
Defined.

(** ** Two mappings in a row *)

Lemma dict_set_comm a b x y (d : dict) :
  a ≠ b → is_Some (dict_get a d) → is_Some (dict_get b d) →
  dict_set a x (dict_set b y d) = dict_set b y (dict_set a x d).
Proof.
  intros Hab. induction d as [|[k v] d IH]; [by intros [? [=]]|].
  cbn [dict_get dict_set]. intros Ha Hb.
  destruct (decide (k = a)) as [Hka|Hka], (decide (k = b)) as [Hkb|Hkb];
    cbn [dict_set].
  - congruence.
  - by rewrite decide_True, decide_False by done.
  - by rewrite decide_False, decide_True by done.
  - rewrite !decide_False by done. f_equal. by apply IH.
Qed.

Lemma rewrite_attr_some f a h v :
  dict_get a (attrib h) = Some v → rewrite_attr f a h = set_attrib a (f v) h.
Proof. intros Hv. unfold rewrite_attr. by rewrite Hv. Qed.

Lemma rewrite_attr_none f a h :
  dict_get a (attrib h) = None → rewrite_attr f a h = h.
Proof. intros Hv. unfold rewrite_attr. by rewrite Hv. Qed.

Lemma set_attrib_get_ne a b x h :
  a ≠ b → dict_get b (attrib (set_attrib a x h)) = dict_get b (attrib h).
Proof. intros Hab. cbn [set_attrib attrib]. by apply dict_get_set_ne. Qed.

Lemma rewrite_attr_comm f g a b h :
  a ≠ b →
  rewrite_attr g b (rewrite_attr f a h) = rewrite_attr f a (rewrite_attr g b h).
Proof.
  intros Hab.
  destruct (dict_get a (attrib h)) as [va|] eqn:Ha,
    (dict_get b (attrib h)) as [vb|] eqn:Hb.
  - rewrite (rewrite_attr_some f a h va Ha), (rewrite_attr_some g b h vb Hb).
    rewrite (rewrite_attr_some g b _ vb)
      by (by rewrite set_attrib_get_ne).
    rewrite (rewrite_attr_some f a _ va)
      by (by rewrite set_attrib_get_ne).
    unfold set_attrib. cbn [attrib tag text tail]. f_equal.
    symmetry. apply dict_set_comm; [done|by rewrite Ha|by rewrite Hb].
  - rewrite (rewrite_attr_some f a h va Ha), (rewrite_attr_none g b h Hb).
    rewrite (rewrite_attr_none g b) by (by rewrite set_attrib_get_ne).
    by rewrite (rewrite_attr_some f a h va Ha).
  - rewrite (rewrite_attr_none f a h Ha), (rewrite_attr_some g b h vb Hb).
    by rewrite (rewrite_attr_none f a) by (by rewrite set_attrib_get_ne).
  - by rewrite (rewrite_attr_none f a h Ha), (rewrite_attr_none g b h Hb),
      (rewrite_attr_none f a h Ha).
Qed.

Lemma dict_set_set k x y (d : dict) :
  dict_set k x (dict_set k y d) = dict_set k x d.
Proof.
  induction d as [|[k' v] d IH]; cbn [dict_set].
  - by rewrite decide_True.
  - case_decide; cbn [dict_set].
    + by rewrite decide_True.
    + rewrite decide_False by done. by rewrite IH.
Qed.

Lemma rewrite_attr_twice f g a h :
  rewrite_attr g a (rewrite_attr f a h) = rewrite_attr (g ∘ f) a h.
Proof.
  destruct (dict_get a (attrib h)) as [v|] eqn:Ha.
  - rewrite (rewrite_attr_some f a h v Ha), (rewrite_attr_some (g ∘ f) a h v Ha).
    rewrite (rewrite_attr_some g a _ (f v))
      by (cbn [set_attrib attrib]; apply dict_get_set_eq).
    unfold set_attrib. cbn [attrib tag text tail]. by rewrite dict_set_set.
  - by rewrite !(rewrite_attr_none _ a h Ha).
Qed.

Lemma rewrite_attrs_cons f a names h :
  rewrite_attrs f (a :: names) h = rewrite_attrs f names (rewrite_attr f a h).
Proof. done. Qed.

Lemma rewrite_attr_attrs_comm f g a names h :
  a ∉ names →
  rewrite_attr g a (rewrite_attrs f names h)
  = rewrite_attrs f names (rewrite_attr g a h).
Proof.
  revert h. induction names as [|b names IH]; intros h Ha; [done|].
  apply not_elem_of_cons in Ha as [Hab Ha].
  rewrite !rewrite_attrs_cons, IH by done.
  by rewrite (rewrite_attr_comm g f a b) by done.
Qed.

Lemma rewrite_attrs_twice f g names h :
  NoDup names →
  rewrite_attrs g names (rewrite_attrs f names h)
  = rewrite_attrs (g ∘ f) names h.
Proof.
  intros Hnd. revert h. induction Hnd as [|a names Ha _ IH]; intros h; [done|].
  rewrite !rewrite_attrs_cons.
  rewrite <- rewrite_attr_attrs_comm by done.
  by rewrite IH, rewrite_attr_attrs_comm, rewrite_attr_twice by done.
Qed.

Lemma rewrite_chain_app d1 d2 v :
  rewrite_chain (d1 ++ d2) v = rewrite_chain d2 (rewrite_chain d1 v).
Proof. unfold rewrite_chain. by rewrite foldl_app. Qed.

Lemma plain_map_app d1 d2 : plain_map d1 → plain_map d2 → plain_map (d1 ++ d2).
Proof. apply Forall_app_2. Qed.

(** For two mappings with no old name in common, whose old names [re]
    reads as themselves, the loop over the identity attributes with the
    entries of the first followed by those of the second does to every
    tree what the loop with the first and then the loop with the second
    do: a name the first mapping puts is rewritten by the second. *)
Theorem mappings_in_a_row (d1 d2 : dict) (root : node) :
  NoDup (d1 ++ d2).*1 →
  plain_map d1 → plain_map d2 →
  identity_pass (d1 ++ d2) root
  = identity_pass d1 root ≫= identity_pass d2.
Proof.
  intros _ H1 H2. rewrite !identity_pass_spec by (done || by apply plain_map_app).
  cbn [mbind option_bind]. rewrite identity_pass_spec by done.
  rewrite map_descendants_compose. f_equal. apply map_descendants_ext.
  intros h. unfold compose.
  rewrite rewrite_attrs_twice by apply NoDup_IDENTITY_ATTRS.
  clear. revert h. induction IDENTITY_ATTRS as [|a names IH]; intros h; [done|].
  rewrite !rewrite_attrs_cons, IH. f_equal.
  unfold rewrite_attr. destruct (dict_get a (attrib h)); [|done].
  unfold compose. by rewrite rewrite_chain_app.
Qed.

Lemma mappings_in_a_row_witness :
  identity_pass ([(u"alice", u"bob")] ++ [(u"bob", u"carol")]) audit_tree
  = identity_pass [(u"alice", u"bob")] audit_tree
      ≫= identity_pass [(u"bob", u"carol")].
Proof.
  apply (mappings_in_a_row [(u"alice", u"bob")] [(u"bob", u"carol")]);
    literal.
Defined.

End Written.

(** * The elements a loop visits *)

Module Visits.
Import Spec Canon TreeFacts Examples.

Lemma elem_of_self_path i c p : p ∈ self_path i c ↔ p = [i] ∧ is_element c.
Proof.
  destruct c as [h ch|b t]; cbn [self_path is_element].
  - rewrite list_elem_of_singleton. tauto.
  - split; [by intros ?%not_elem_of_nil|tauto].
Qed.

(** The references [walk] gives: to each child that is an element, and
    to what [F] gives in a child, under the index of the child. *)
Lemma elem_of_walk F i l p :
  p ∈ walk F i l
  ↔ ∃ j c, l !! j = Some c
           ∧ (p = [(i + j)%nat] ∧ is_element c
              ∨ ∃ q, p = (i + j)%nat :: q ∧ q ∈ F c).
Proof.
  revert i. induction l as [|c l IH]; intros i; cbn [walk].
  - split; [by intros ?%not_elem_of_nil|]. by intros (j & c & [=] & _).
  - rewrite !elem_of_app, elem_of_self_path, list_elem_of_fmap, IH. split.
    + intros [[-> Hc]|[(q & -> & Hq)|(j & d & Hd & H)]].
      * exists 0%nat, c. rewrite Nat.add_0_r. split; [done|]. by left.
      * exists 0%nat, c. rewrite Nat.add_0_r. split; [done|]. right.
        by exists q.
      * exists (S j), d. split; [done|].
        by replace (i + S j)%nat with (S i + j)%nat by lia.
    + intros ([|j] & d & Hd & H).
      * injection Hd as ->. rewrite Nat.add_0_r in H.
        destruct H as [[-> Hc]|(q & -> & Hq)]; [by left|].
        right. left. by exists q.
      * right. right. exists j, d. split; [done|].
        by replace (S i + j)%nat with (i + S j)%nat by lia.
Qed.

Lemma walk_head F i l p :
  p ∈ walk F i l → ∃ j q, p = j :: q ∧ (i ≤ j)%nat.
Proof.
  intros (j & c & _ & [[-> _]|(q & -> & _)])%elem_of_walk;
    eexists _, _; (split; [done|lia]).
Qed.

Lemma NoDup_walk F i l :
  Forall (λ c, NoDup (F c) ∧ Forall (λ q : path, q ≠ []) (F c)) l →
  NoDup (walk F i l).
Proof.
  intros Hl. revert i. induction Hl as [|c l [Hc Hne] _ IH]; intros i;
    cbn [walk]; [constructor|].
  apply NoDup_app. split; [|split].
  - destruct c; cbn [self_path]; [apply NoDup_singleton|constructor].
  - intros p [-> _]%elem_of_self_path. rewrite elem_of_app.
    intros [(q & [= <-] & Hq)%list_elem_of_fmap|(j & q & [= <- _] & Hj)%walk_head].
    + rewrite Forall_forall in Hne. by apply (Hne []).
    + lia.
  - apply NoDup_app. split; [|split].
    + apply NoDup_fmap_2; [|done]. by intros ?? [=].
    + intros p (q & -> & Hq)%list_elem_of_fmap
        (j & q' & [= <- _] & Hj)%walk_head. lia.
    + apply IH.
Qed.

Lemma iterdescendants_spec n :
  NoDup (iterdescendants n)
  ∧ ∀ p, p ∈ iterdescendants n
         ↔ p ≠ [] ∧ ∃ h ch, node_at p n = Some (Element h ch).
Proof.
  induction n as [h ch IH|body t] using node_induction.
  2:{ split; [constructor|]. intros p. cbn [iterdescendants].
      split; [by intros ?%not_elem_of_nil|].
      intros [Hp (h & ch & Hn)]. by destruct p. }
  cbn [iterdescendants]. split.
  { apply NoDup_walk. eapply Forall_impl; [exact IH|].
    intros c [Hc _]. split; [done|apply iterdescendants_nonempty]. }
  intros p. rewrite elem_of_walk. rewrite Forall_forall in IH. split.
  - intros (j & c & Hc & [[-> Hel]|(q & -> & Hq)]); cbn [Nat.add].
    + split; [done|]. cbn [node_at]. rewrite Hc. cbn.
      destruct c; [by eexists _, _|done].
    + split; [done|]. cbn [node_at]. rewrite Hc. cbn.
      apply (IH c) in Hq; [tauto|]. by eapply list_elem_of_lookup_2.
  - intros [Hp (h' & ch' & Hn)]. destruct p as [|j q]; [done|].
    cbn [node_at] in Hn. destruct (ch !! j) as [c|] eqn:Hc; [|done].
    cbn in Hn. exists j, c. split; [done|]. cbn [Nat.add].
    destruct q as [|k q].
    + left. split; [done|]. injection Hn as ->. done.
    + right. exists (k :: q). split; [done|].
      apply (IH c); [by eapply list_elem_of_lookup_2|]. split; [done|].
      by exists h', ch'.
Qed.

(** [root.findall('.//' + step)] gives a reference to every element
    below the root that passes the test of the step, to each of them
    once, and to nothing else: never to the root, never to a comment. So
    the body of a loop over it runs once on each such element. *)
Theorem findall_visits_each_descendant_once (sel : header → bool)
    (root : node) :
  NoDup (findall sel root)
  ∧ ∀ p, p ∈ findall sel root
         ↔ p ≠ []
           ∧ ∃ h ch, node_at p root = Some (Element h ch) ∧ sel h = true.
Proof.
  destruct (iterdescendants_spec root) as [Hnd Hin]. unfold findall. split.
  - by apply NoDup_filter.
  - intros p. rewrite list_elem_of_filter, Hin. unfold selects. split.
    + intros [Hs [Hp (h & ch & Hn)]]. rewrite Hn in Hs. split; [done|].
      by exists h, ch.
    + intros [Hp (h & ch & Hn & Hs)]. rewrite Hn. split; [done|].
      split; [done|]. by exists h, ch.
Qed.

End Visits.

(** * Reading back what was written *)

Module ReadBack.
Import Xml Spec Canon ReFacts TreeFacts PassFacts Rewriting ParserFacts.

Ltac literal := apply (bool_decide_unpack _); by vm_compute.

(** ** The scanners on a text put together *)

Lemma forallb_Forall {A} (f : A → bool) (l : list A) :
  forallb f l = true ↔ Forall (λ x, f x = true) l.
Proof.
  induction l as [|x l IH]; cbn [forallb]; [by split|].
  rewrite andb_true_iff, IH. split.
  - intros [??]. by constructor.
  - by intros [??]%Forall_cons.
Qed.

Lemma span_stop f (a b : str) :
  Forall (λ c, f c = true) a → stops f b → span f (a ++ b) = (a, b).
Proof.
  intros Ha Hb. induction Ha as [|c a Hc _ IH]; cbn [app span].
  - destruct b as [|c b]; [done|]. cbn [stops] in Hb. cbn [span]. by rewrite Hb.
  - by rewrite Hc, IH.
Qed.

Lemma starts_with_app p s : starts_with p (p ++ s) = true.
Proof. apply bool_decide_eq_true_2. by exists s. Qed.

Lemma starts_with_head a p c s : a ≠ c → starts_with (a :: p) (c :: s) = false.
Proof.
  intros Hne. apply bool_decide_eq_false_2. intros [k Hk].
  cbn [app] in Hk. congruence.
Qed.

Lemma expect_app p s : expect p (p ++ s) = Some s.
Proof. unfold expect. by rewrite starts_with_app, drop_app_length. Qed.

Lemma skip_ws_stop s : stops is_space s → skip_ws s = s.
Proof.
  intros Hs. unfold skip_ws. destruct s as [|c s]; [done|].
  cbn [stops] in Hs. cbn [span]. by rewrite Hs.
Qed.

Lemma skip_ws_space s : stops is_space s → skip_ws (SPACE :: s) = s.
Proof.
  intros Hs. unfold skip_ws. cbn [span].
  replace (is_space SPACE) with true by done.
  pose proof (skip_ws_stop s Hs) as E. unfold skip_ws in E.
  destruct (span is_space s). cbn [snd] in *. done.
Qed.

(** ** Classes of characters *)

Lemma name_start_facts c :
  is_name_start c = true →
  is_name_char c = true ∧ is_space c = false
  ∧ c ≠ SLASH ∧ c ≠ GT ∧ c ≠ 33 ∧ c ≠ 63 ∧ c ≠ LT.
Proof.
  unfold is_name_char, is_name_start, is_letter, is_space, SLASH, GT, LT,
    SPACE, TAB, LF.
  rewrite !orb_true_iff, !andb_true_iff, !bool_decide_eq_true, !N.leb_le.
  intros H. split; [tauto|]. split.
  - apply not_true_is_false.
    rewrite !orb_true_iff, !bool_decide_eq_true. lia.
  - lia.
Qed.

Lemma not_name_char c :
  c = SPACE ∨ c = SLASH ∨ c = GT ∨ c = 61 → is_name_char c = false.
Proof. intros [->|[->|[->| ->]]]; done. Qed.

Lemma content_char_facts c :
  is_content_char c = true → c ≠ CR ∧ c ≠ FF.
Proof.
  unfold is_content_char, is_xml_char, CR, FF, TAB, LF.
  rewrite !andb_true_iff, !orb_true_iff, !andb_true_iff, !negb_true_iff,
    !bool_decide_eq_true, !bool_decide_eq_false, !N.leb_le.
  lia.
Qed.

Lemma name_ok_inv s :
  name_ok s = true →
  ∃ c s', s = c :: s' ∧ is_name_start c = true
          ∧ Forall (λ x, is_name_char x = true) s.
Proof.
  unfold name_ok. destruct s as [|c s']; [done|].
  intros [Hc Hs]%andb_true_iff. exists c, s'. split; [done|].
  split; [done|]. by apply forallb_Forall.
Qed.

Lemma parse_name_print name rest :
  name_ok name = true → stops is_name_char rest →
  parse_name (name ++ rest) = Some (name, rest).
Proof.
  intros (c & s' & -> & Hc & Hall)%name_ok_inv Hrest. unfold parse_name.
  rewrite span_stop by done. by rewrite Hc.
Qed.

(** ** References *)

Lemma parse_entity_amp s : parse_entity (u"amp;" ++ s) = Some (AMP, s).
Proof. by vm_compute. Qed.

Lemma parse_entity_lt s : parse_entity (u"lt;" ++ s) = Some (LT, s).
Proof. by vm_compute. Qed.

Lemma parse_entity_gt s : parse_entity (u"gt;" ++ s) = Some (GT, s).
Proof. by vm_compute. Qed.

Lemma parse_entity_quot s : parse_entity (u"quot;" ++ s) = Some (DQUOTE, s).
Proof. by vm_compute. Qed.

Lemma unescape_plain fuel c s :
  c ≠ AMP → is_content_char c = true → c ≠ LT →
  unescape (S fuel) (c :: s) = (c ::.) <$> unescape fuel s.
Proof.
  intros H1 H2 H3. cbn [unescape].
  by rewrite (bool_decide_eq_false_2 _ H1), H2,
    (bool_decide_eq_false_2 _ H3).
Qed.

Lemma unescape_entity fuel s d rest :
  parse_entity s = Some (d, rest) →
  unescape (S fuel) (AMP :: s) = (d ::.) <$> unescape fuel rest.
Proof. intros E. cbn [unescape]. by rewrite bool_decide_eq_true_2, E by done. Qed.

Lemma unescape_escape_text_char fuel c s :
  is_content_char c = true →
  unescape (S fuel) (escape_text_char c ++ s) = (c ::.) <$> unescape fuel s.
Proof.
  intros Hc. unfold escape_text_char.
  case_bool_decide as H1.
  { subst c. apply (unescape_entity fuel (u"amp;" ++ s)), parse_entity_amp. }
  case_bool_decide as H2.
  { subst c. apply (unescape_entity fuel (u"lt;" ++ s)), parse_entity_lt. }
  case_bool_decide as H3.
  { subst c. apply (unescape_entity fuel (u"gt;" ++ s)), parse_entity_gt. }
  case_bool_decide as H4; [by subst c|].
  by apply unescape_plain.
Qed.

Lemma is_value_char_inv c :
  is_value_char c = true → is_content_char c = true ∧ c ≠ TAB ∧ c ≠ LF.
Proof.
  unfold is_value_char.
  rewrite !andb_true_iff, !negb_true_iff, !bool_decide_eq_false. tauto.
Qed.

Lemma unescape_escape_attr_char fuel c s :
  is_value_char c = true →
  unescape (S fuel) (escape_attr_char c ++ s) = (c ::.) <$> unescape fuel s.
Proof.
  intros (Hc & Ht & Hl)%is_value_char_inv. unfold escape_attr_char.
  case_bool_decide as H1.
  { subst c. apply (unescape_entity fuel (u"amp;" ++ s)), parse_entity_amp. }
  case_bool_decide as H2.
  { subst c. apply (unescape_entity fuel (u"lt;" ++ s)), parse_entity_lt. }
  case_bool_decide as H3.
  { subst c. apply (unescape_entity fuel (u"gt;" ++ s)), parse_entity_gt. }
  case_bool_decide as H4.
  { subst c. apply (unescape_entity fuel (u"quot;" ++ s)), parse_entity_quot. }
  case_bool_decide as H5; [done|].
  case_bool_decide as H6; [by subst c|].
  case_bool_decide as H7; [done|].
  by apply unescape_plain.
Qed.

Lemma escape_text_char_length c : (1 ≤ length (escape_text_char c))%nat.
Proof. unfold escape_text_char. repeat case_bool_decide; simpl; lia. Qed.

Lemma escape_attr_char_length c : (1 ≤ length (escape_attr_char c))%nat.
Proof. unfold escape_attr_char. repeat case_bool_decide; simpl; lia. Qed.

Lemma escape_text_cons c t :
  escape_text (c :: t) = escape_text_char c ++ escape_text t.
Proof. done. Qed.

Lemma escape_attr_cons c t :
  escape_attr (c :: t) = escape_attr_char c ++ escape_attr t.
Proof. done. Qed.

Lemma unescape_escape_text t fuel :
  chars_ok t = true → (length (escape_text t) ≤ fuel)%nat →
  unescape fuel (escape_text t) = Some t.
Proof.
  unfold chars_ok. rewrite forallb_Forall. intros Hok. revert fuel.
  induction Hok as [|c t Hc _ IH]; intros fuel Hf; [by destruct fuel|].
  rewrite escape_text_cons in *. rewrite length_app in Hf.
  pose proof (escape_text_char_length c).
  destruct fuel as [|fuel]; [lia|].
  rewrite unescape_escape_text_char by done. by rewrite IH by lia.
Qed.

Lemma unescape_escape_attr v fuel :
  value_ok v = true → (length (escape_attr v) ≤ fuel)%nat →
  unescape fuel (escape_attr v) = Some v.
Proof.
  unfold value_ok. rewrite forallb_Forall. intros Hok. revert fuel.
  induction Hok as [|c t Hc _ IH]; intros fuel Hf; [by destruct fuel|].
  rewrite escape_attr_cons in *. rewrite length_app in Hf.
  pose proof (escape_attr_char_length c).
  destruct fuel as [|fuel]; [lia|].
  rewrite unescape_escape_attr_char by done. by rewrite IH by lia.
Qed.

(** ** What the escaping leaves out *)

Lemma escape_text_chars t :
  chars_ok t = true →
  Forall (λ x, x ≠ LT ∧ x ≠ GT ∧ x ≠ CR) (escape_text t).
Proof.
  unfold chars_ok. rewrite forallb_Forall.
  induction 1 as [|c t Hc _ IH]; [constructor|].
  rewrite escape_text_cons. apply Forall_app. split; [|done].
  unfold escape_text_char.
  repeat (case_bool_decide; [literal|]).
  constructor; [|constructor]. apply content_char_facts in Hc. tauto.
Qed.

Lemma escape_attr_chars v :
  value_ok v = true →
  Forall (λ x, x ≠ LT ∧ x ≠ DQUOTE ∧ x ≠ TAB ∧ x ≠ LF ∧ x ≠ CR)
    (escape_attr v).
Proof.
  unfold value_ok. rewrite forallb_Forall.
  induction 1 as [|c t Hc _ IH]; [constructor|].
  rewrite escape_attr_cons. apply Forall_app. split; [|done].
  unfold escape_attr_char.
  repeat (case_bool_decide; [literal|]).
  constructor; [|constructor]. tauto.
Qed.

Lemma occurs_absent (p s : str) c : c ∈ p → c ∉ s → occurs p s = false.
Proof.
  intros Hp. induction s as [|d s IH]; intros Hs.
  - cbn [occurs]. rewrite orb_false_r. apply bool_decide_eq_false_2.
    intros ->%prefix_nil_inv. by apply not_elem_of_nil in Hp.
  - cbn [occurs]. rewrite IH, orb_false_r.
    + apply bool_decide_eq_false_2. intros [k Hk]. apply Hs. rewrite Hk.
      apply elem_of_app. by left.
    + by apply not_elem_of_cons in Hs as [_ Hs].
Qed.

(** ** Text *)

Lemma parse_text_print ot rest :
  text_ok ot = true → stops (λ c, negb (bool_decide (c = LT))) rest →
  parse_text (tostring_opt ot ++ rest) = Some (ot, rest).
Proof.
  intros Hok Hrest. unfold parse_text, tostring_opt.
  destruct ot as [t|]; cbn [default text_ok] in *.
  - apply andb_true_iff in Hok as [Hne Hok].
    apply negb_true_iff, bool_decide_eq_false in Hne.
    pose proof (escape_text_chars t Hok) as Hch.
    rewrite span_stop; [|by eapply Forall_impl; [exact Hch|];
      intros x (Hx & _); apply negb_true_iff, bool_decide_eq_false_2|done].
    rewrite (occurs_absent _ _ GT); [|literal|].
    2:{ intros Hin. rewrite Forall_forall in Hch.
        by destruct (Hch _ Hin) as (_ & ? & _). }
    rewrite unescape_escape_text by done. cbn [mbind option_bind].
    by destruct t.
  - change (escape_text []) with (@nil N). cbn [app].
    rewrite (span_stop _ [] rest) by done. done.
Qed.

(** ** Attributes *)

Lemma parse_attvalue_print v rest :
  value_ok v = true →
  parse_attvalue DQUOTE (escape_attr v ++ DQUOTE :: rest) = Some (v, rest).
Proof.
  intros Hok. unfold parse_attvalue.
  pose proof (escape_attr_chars v Hok) as Hch.
  rewrite span_stop; [| |by cbn; rewrite bool_decide_eq_true_2].
  2:{ eapply Forall_impl; [exact Hch|]. intros x (_ & Hx & _).
      by apply negb_true_iff, bool_decide_eq_false_2. }
  replace (normalize_attr_char <$> escape_attr v) with (escape_attr v).
  - rewrite length_fmap || idtac.
    rewrite unescape_escape_attr by done. done.
  - induction Hch as [|x l (_ & _ & Ht & Hl & _) _ IH]; [done|].
    rewrite fmap_cons, <- IH. f_equal. unfold normalize_attr_char.
    by rewrite !bool_decide_eq_false_2 by done.
Qed.

Lemma parse_attribute_print name v rest :
  name_ok name = true → value_ok v = true →
  parse_attribute (name ++ u"=" ++ DQUOTE :: escape_attr v
                   ++ DQUOTE :: rest)
  = Some (name, v, rest).
Proof.
  intros Hn Hv. unfold parse_attribute.
  rewrite parse_name_print by done. cbn [mbind option_bind].
  rewrite skip_ws_stop by done. rewrite expect_app. cbn [mbind option_bind].
  rewrite skip_ws_stop by done. cbn [app].
  rewrite bool_decide_eq_true_2 by done. cbn [orb].
  by rewrite parse_attvalue_print.
Qed.

Lemma attrib_ok_inv d :
  attrib_ok d = true →
  NoDup d.*1 ∧ Forall (λ a, name_ok a.1 = true ∧ value_ok a.2 = true) d.
Proof.
  unfold attrib_ok. rewrite andb_true_iff, bool_decide_eq_true, forallb_Forall.
  intros [Hnd Hall]. split; [done|]. eapply Forall_impl; [exact Hall|].
  intros a. by rewrite andb_true_iff.
Qed.

Lemma tostring_attrs_cons a d :
  tostring_attrs (a :: d) = tostring_attr a ++ tostring_attrs d.
Proof. done. Qed.

Lemma parse_attrs_print attrs closer closed rest fuel :
  attrib_ok attrs = true →
  closer = u"/>" ∧ closed = true ∨ closer = [GT] ∧ closed = false →
  (length attrs < fuel)%nat →
  parse_attrs fuel (tostring_attrs attrs ++ closer ++ rest)
  = Some (attrs, closed, rest).
Proof.
  intros [Hnd Hall]%attrib_ok_inv Hcl. revert fuel Hnd.
  induction Hall as [|[name v] more [Hn Hv] _ IH]; intros fuel Hnd Hf.
  - destruct fuel as [|fuel]; [simpl in Hf; lia|].
    cbn [parse_attrs tostring_attrs fmap list_fmap concat app]. cbv zeta.
    destruct Hcl as [[-> ->]|[-> ->]].
    + rewrite skip_ws_stop by done. by rewrite starts_with_app.
    + rewrite skip_ws_stop by done. cbn [app].
      change (u"/>") with [SLASH; GT].
      rewrite starts_with_head by done.
      by replace (starts_with [GT] (GT :: rest)) with true
        by (symmetry; apply (starts_with_app [GT])).
  - destruct fuel as [|fuel]; [simpl in Hf; lia|].
    cbn [fst snd] in *. rewrite fmap_cons in Hnd.
    apply NoDup_cons in Hnd as [Hnew Hnd].
    rewrite tostring_attrs_cons. unfold tostring_attr at 1. cbn [fst snd].
    destruct (name_ok_inv _ Hn) as (c & name' & -> & Hc & _).
    destruct (name_start_facts c Hc) as (_ & Hsp & Hsl & Hgt & _).
    rewrite <- !app_assoc. cbn [app parse_attrs]. cbv zeta.
    rewrite skip_ws_space by done. change (u"/>") with [SLASH; GT].
    rewrite starts_with_head by done. rewrite starts_with_head by done.
    rewrite bool_decide_eq_false_2 by (cbn [length]; lia).
    change (c :: name' ++ ?x) with ((c :: name') ++ x).
    rewrite (parse_attribute_print (c :: name') v) by done.
    cbn [mbind option_bind]. rewrite IH by (done || simpl in Hf; lia).
    cbn [mbind option_bind].
    rewrite bool_decide_eq_false_2; [done|]. intros [x Hx].
    apply Hnew. apply dict_get_Some_elem in Hx.
    apply list_elem_of_fmap. by exists (c :: name', x).
Qed.

(** ** Comments *)

Lemma starts_with_two a b c d (s : str) :
  starts_with [a; b] (c :: d :: s) = bool_decide (c = a) && bool_decide (d = b).
Proof.
  destruct (decide (c = a)) as [->|H1], (decide (d = b)) as [->|H2].
  - rewrite !bool_decide_eq_true_2 by done. apply bool_decide_eq_true_2.
    by exists s.
  - rewrite (bool_decide_eq_false_2 (d = b)) by done. rewrite andb_false_r.
    apply bool_decide_eq_false_2. intros [k Hk]. cbn in Hk. congruence.
  - rewrite (bool_decide_eq_false_2 (c = a)) by done.
    apply bool_decide_eq_false_2. intros [k Hk]. cbn in Hk. congruence.
  - rewrite (bool_decide_eq_false_2 (c = a)) by done.
    apply bool_decide_eq_false_2. intros [k Hk]. cbn in Hk. congruence.
Qed.

Lemma starts_with_longer p q s :
  starts_with p s = false → starts_with (p ++ q) s = false.
Proof.
  intros Hp%bool_decide_eq_false. apply bool_decide_eq_false_2.
  intros [k ->]. apply Hp. exists (q ++ k). by rewrite app_assoc.
Qed.

Lemma starts_with_second a b p c d (s : str) :
  d ≠ b → starts_with (a :: b :: p) (c :: d :: s) = false.
Proof.
  intros Hd. apply (starts_with_longer [a; b] p).
  rewrite starts_with_two. rewrite (bool_decide_eq_false_2 (d = b)) by done.
  apply andb_false_r.
Qed.

Lemma body_ok_cons c b :
  body_ok (c :: b) = true →
  is_content_char c = true
  ∧ starts_with (u"--") (c :: b ++ u"-") = false
  ∧ body_ok b = true.
Proof.
  unfold body_ok, chars_ok. cbn [forallb app occurs].
  rewrite !andb_true_iff, !negb_true_iff, orb_false_iff. tauto.
Qed.

Lemma parse_comment_print body rest :
  body_ok body = true →
  parse_comment (body ++ u"-->" ++ rest) = Some (body, rest).
Proof.
  induction body as [|c b IH]; intros Hok.
  - change ([] ++ u"-->" ++ rest) with (45 :: 45 :: 62 :: rest).
    cbn [parse_comment].
    by replace (starts_with (u"-->") (45 :: 45 :: 62 :: rest)) with true
      by (symmetry; apply (starts_with_app (u"-->"))).
  - apply body_ok_cons in Hok as (Hc & Hdash & Hb).
    cbn [app parse_comment].
    assert (starts_with (u"--") (c :: b ++ u"-->" ++ rest) = false) as Hd.
    { transitivity (starts_with (u"--") (c :: b ++ u"-")); [|exact Hdash].
      change (u"--") with [45; 45]. clear. destruct b as [|d b].
      - change ([] ++ u"-->" ++ rest) with (45 :: 45 :: 62 :: rest).
        change ([] ++ u"-") with [45]. by rewrite !starts_with_two.
      - cbn [app]. by rewrite !starts_with_two. }
    rewrite (starts_with_longer (u"--") [62]) by done.
    rewrite Hd, Hc, IH by done. done.
Qed.

(** ** Elements *)

Lemma tostring_element h ch :
  tostring_node (Element h ch)
  = LT :: tag h ++ tostring_attrs (attrib h) ++ written_content h ch
    ++ tostring_opt (tail h).
Proof. unfold written_content. cbn [tostring_node app]. by destruct (text h), ch. Qed.

Lemma tostring_comment body t :
  tostring_node (Comment body t)
  = 60 :: 33 :: 45 :: 45 :: body ++ u"-->" ++ tostring_opt t.
Proof. done. Qed.

Lemma forest_cons n nodes :
  concat (tostring_node <$> n :: nodes)
  = tostring_node n ++ concat (tostring_node <$> nodes).
Proof. done. Qed.

(** What follows a text starts a tag. *)
Lemma forest_starts_tag nodes rest :
  stops (λ c, negb (bool_decide (c = LT)))
    (concat (tostring_node <$> nodes) ++ u"</" ++ rest).
Proof. by destruct nodes as [|[h ch|body t] nodes]. Qed.

Lemma header_ok_inv h :
  header_ok h = true →
  name_ok (tag h) = true ∧ attrib_ok (attrib h) = true
  ∧ text_ok (text h) = true ∧ text_ok (tail h) = true.
Proof. unfold header_ok. rewrite !andb_true_iff. tauto. Qed.

Lemma parse_end_tag_print name rest :
  parse_end_tag name (name ++ GT :: rest) = Some rest.
Proof.
  unfold parse_end_tag. rewrite expect_app. cbn [mbind option_bind].
  rewrite skip_ws_stop by done. apply (expect_app [GT]).
Qed.

Lemma tostring_attrs_length d : (length d ≤ length (tostring_attrs d))%nat.
Proof.
  induction d as [|a d IH]; [done|].
  rewrite tostring_attrs_cons, length_app. unfold tostring_attr.
  cbn [app length]. lia.
Qed.

Lemma stops_name_attrs d (x : str) :
  stops is_name_char x → stops is_name_char (tostring_attrs d ++ x).
Proof. by destruct d. Qed.

Lemma written_content_stops h ch rest :
  stops is_name_char (written_content h ch ++ rest).
Proof. unfold written_content. by destruct (text h), ch. Qed.

Lemma parse_element_print kids h ch rest :
  header_ok h = true →
  kids (concat (tostring_node <$> ch) ++ u"</" ++ tag h ++ GT :: rest)
  = Some (ch, tag h ++ GT :: rest) →
  parse_element kids
    (tag h ++ tostring_attrs (attrib h) ++ written_content h ch ++ rest)
  = Some (tag h, attrib h, text h, ch, rest).
Proof.
  intros (Hn & Ha & Ht & _)%header_ok_inv Hkids. unfold parse_element.
  rewrite parse_name_print
    by (done || apply stops_name_attrs, written_content_stops).
  cbn [mbind option_bind].
  pose proof (tostring_attrs_length (attrib h)) as Hlen.
  destruct (text h) as [t|] eqn:Etext, ch as [|c ch];
    unfold written_content in *; rewrite Etext in *.
  3:{ rewrite (parse_attrs_print _ (u"/>") true);
        [done|done|by left|rewrite length_app; lia]. }
  all: rewrite <- !app_assoc;
    rewrite (parse_attrs_print _ [GT] false);
      [|done|by right|rewrite length_app; lia];
    cbn [mbind option_bind];
    rewrite <- Etext, parse_text_print;
      [|by rewrite Etext|apply forest_starts_tag];
    cbn [mbind option_bind app];
    rewrite Hkids; cbn [mbind option_bind];
    rewrite parse_end_tag_print; cbn [mbind option_bind];
    by rewrite ?Etext.
Qed.

(** ** Trees *)

Lemma parse_children_end fuel rest :
  parse_children (S fuel) (u"</" ++ rest) = Some ([], rest).
Proof. cbn [parse_children]. by rewrite starts_with_app. Qed.

Lemma forest_reads_back nodes :
  Forall (λ n, node_ok n = true → reads_back n) nodes →
  forallb node_ok nodes = true → reads_back_forest nodes.
Proof.
  induction 1 as [|n nodes Hn _ IH]; intros Hok.
  - intros rest fuel Hf. destruct fuel as [|fuel]; [simpl in Hf; lia|].
    apply parse_children_end.
  - cbn [forallb] in Hok. apply andb_true_iff in Hok as [H1 H2].
    apply Hn; [done|]. by apply IH.
Qed.

Ltac lengths :=
  repeat first
    [ rewrite length_app
    | progress cbn [length]
    | match goal with
      | H : context [length (_ ++ _)] |- _ => rewrite length_app in H
      | H : context [length (_ :: _)] |- _ => progress cbn [length] in H
      end ];
  lia.

Lemma header_eta h : Header (tag h) (attrib h) (text h) (tail h) = h.
Proof. by destruct h. Qed.

Lemma node_reads_back n : node_ok n = true → reads_back n.
Proof.
  induction n as [h ch IH|body t] using node_induction;
    intros Hok more Hmore rest fuel Hf; pose proof Hmore as Hmore';
    unfold reads_back_forest in Hmore'.
  - cbn [node_ok] in Hok. apply andb_true_iff in Hok as [Hh Hch].
    pose proof (forest_reads_back ch IH Hch) as Hkids.
    destruct (header_ok_inv h Hh) as (Hn & Ha & Ht & Htl).
    destruct (name_ok_inv _ Hn) as (c & name' & Etag & Hc & _).
    destruct (name_start_facts c Hc) as (_ & _ & Hsl & _ & Hbang & _).
    rewrite forest_cons, tostring_element in *. cbn [app] in *.
    rewrite <- !app_assoc in *.
    set (M := concat (tostring_node <$> more) ++ u"</" ++ rest) in *.
    set (s0 := tag h ++ tostring_attrs (attrib h) ++ written_content h ch
               ++ tostring_opt (tail h) ++ M) in *.
    assert (∃ s0', s0 = c :: s0') as [s0' Es0].
    { unfold s0. rewrite Etag. by eexists. }
    destruct fuel as [|fuel]; [simpl in Hf; lia|]. cbn [length] in Hf.
    cbn [parse_children].
    replace (starts_with (u"</") (LT :: s0)) with false
      by (rewrite Es0; symmetry; by apply starts_with_second).
    replace (starts_with (u"<!--") (LT :: s0)) with false
      by (rewrite Es0; symmetry; by apply starts_with_second).
    replace (expect [LT] (LT :: s0)) with (Some s0)
      by (symmetry; apply (expect_app [LT])).
    cbn [mbind option_bind]. unfold s0.
    rewrite (parse_element_print _ h ch (tostring_opt (tail h) ++ M)); [|done|].
    + cbn [mbind option_bind].
      rewrite parse_text_print by (done || apply forest_starts_tag).
      cbn [mbind option_bind]. unfold M at 1. rewrite Hmore'.
      * cbn [mbind option_bind]. by rewrite header_eta.
      * unfold s0, M in *. lengths.
    + destruct ch as [|c1 ch].
      * destruct fuel as [|fuel]; [|apply parse_children_end].
        unfold s0 in Hf. rewrite Etag in Hf. simpl in Hf. lia.
      * apply Hkids. unfold s0, M, written_content in *.
        destruct (text h); lengths.
  - cbn [node_ok] in Hok. apply andb_true_iff in Hok as [Hb Ht].
    rewrite forest_cons, tostring_comment in *. cbn [app] in *.
    rewrite <- !app_assoc in *.
    set (M := concat (tostring_node <$> more) ++ u"</" ++ rest) in *.
    destruct fuel as [|fuel]; [simpl in Hf; lia|]. cbn [length] in Hf.
    cbn [parse_children].
    replace (starts_with (u"</") (60 :: 33 :: 45 :: 45 :: body ++ u"-->"
                                  ++ tostring_opt t ++ M)) with false
      by (symmetry; by apply starts_with_second).
    replace (starts_with (u"<!--") (60 :: 33 :: 45 :: 45 :: body ++ u"-->"
                                    ++ tostring_opt t ++ M)) with true
      by (symmetry; apply (starts_with_app (u"<!--"))).
    replace (drop 4 (60 :: 33 :: 45 :: 45 :: body ++ u"-->"
                     ++ tostring_opt t ++ M))
      with (body ++ u"-->" ++ tostring_opt t ++ M) by done.
    rewrite parse_comment_print by done.
    cbn [mbind option_bind].
    rewrite parse_text_print by (done || apply forest_starts_tag).
    cbn [mbind option_bind]. unfold M at 1. rewrite Hmore'; [done|].
    unfold M in *. lengths.
Qed.

Lemma forest_ok_reads_back nodes :
  forallb node_ok nodes = true → reads_back_forest nodes.
Proof.
  apply forest_reads_back, Forall_forall. intros n _. apply node_reads_back.
Qed.

(** ** No carriage return is written *)

Lemma name_no_cr s : name_ok s = true → Forall (λ x, x ≠ CR) s.
Proof.
  intros (c & s' & -> & _ & Hall)%name_ok_inv.
  eapply Forall_impl; [exact Hall|]. by intros x Hx ->.
Qed.

Lemma text_no_cr ot : text_ok ot = true → Forall (λ x, x ≠ CR) (tostring_opt ot).
Proof.
  destruct ot as [t|]; [|constructor]. cbn [text_ok].
  intros [_ Hok]%andb_true_iff. unfold tostring_opt. cbn [default].
  eapply Forall_impl; [by apply escape_text_chars|].
  by intros x (_ & _ & ?).
Qed.

Lemma attrs_no_cr d :
  attrib_ok d = true → Forall (λ x, x ≠ CR) (tostring_attrs d).
Proof.
  intros [_ Hall]%attrib_ok_inv.
  induction Hall as [|[name v] d [Hn Hv] _ IH]; [constructor|].
  rewrite tostring_attrs_cons. apply Forall_app. split; [|done].
  unfold tostring_attr. cbn [fst snd] in *.
  repeat (apply Forall_app; split); try literal.
  - by apply name_no_cr.
  - eapply Forall_impl; [by apply escape_attr_chars|].
    by intros x (_ & _ & _ & _ & ?).
Qed.

Lemma body_no_cr b : body_ok b = true → Forall (λ x, x ≠ CR) b.
Proof.
  unfold body_ok, chars_ok. intros [Hok _]%andb_true_iff.
  apply forallb_Forall in Hok. eapply Forall_impl; [exact Hok|].
  intros x Hx. by apply content_char_facts in Hx as [? _].
Qed.

Lemma written_content_no_cr h ch :
  name_ok (tag h) = true → text_ok (text h) = true →
  Forall (λ x, x ≠ CR) (concat (tostring_node <$> ch)) →
  Forall (λ x, x ≠ CR) (written_content h ch).
Proof.
  intros Hn Ht Hkids. unfold written_content.
  remember (concat (tostring_node <$> ch)) as F eqn:EF.
  assert (Forall (λ x, x ≠ CR)
            ([GT] ++ tostring_opt (text h) ++ F ++ u"</" ++ tag h ++ [GT]))
    as Hopen.
  { repeat (apply Forall_app; split); try literal; try done.
    - by apply text_no_cr.
    - by apply name_no_cr. }
  destruct (text h), ch; try done. literal.
Qed.

Lemma tostring_no_cr n :
  node_ok n = true → Forall (λ x, x ≠ CR) (tostring_node n).
Proof.
  induction n as [h ch IH|body t] using node_induction; intros Hok.
  - cbn [node_ok] in Hok. apply andb_true_iff in Hok as [Hh Hch].
    destruct (header_ok_inv h Hh) as (Hn & Ha & Ht & Htl).
    assert (Forall (λ x, x ≠ CR) (concat (tostring_node <$> ch))) as Hkids.
    { apply forallb_Forall in Hch. clear -IH Hch.
      induction IH as [|c ch Hc _ IHch]; [constructor|].
      apply Forall_cons in Hch as [H1 H2]. rewrite forest_cons.
      apply Forall_app. split; [by apply Hc|by apply IHch]. }
    rewrite tostring_element. constructor; [done|].
    repeat (apply Forall_app; split);
      [by apply name_no_cr|by apply attrs_no_cr| |by apply text_no_cr].
    by apply written_content_no_cr.
  - cbn [node_ok] in Hok. apply andb_true_iff in Hok as [Hb Ht].
    rewrite tostring_comment. do 4 (constructor; [done|]).
    repeat (apply Forall_app; split);
      [by apply body_no_cr|literal|by apply text_no_cr].
Qed.

(** ** Documents *)

Lemma skip_ws_one c s :
  is_space c = true → stops is_space s → skip_ws (c :: s) = s.
Proof.
  intros Hc Hs. unfold skip_ws. cbn [span]. rewrite Hc.
  pose proof (skip_ws_stop s Hs) as E. unfold skip_ws in E.
  destruct (span is_space s). cbn [snd] in *. done.
Qed.

Lemma document_ok_inv root :
  document_ok root = true →
  ∃ h ch, root = Element h ch ∧ header_ok h = true
          ∧ forallb node_ok ch = true ∧ tail h = None.
Proof.
  destruct root as [h ch|]; [|done]. cbn [document_ok node_ok].
  rewrite !andb_true_iff, bool_decide_eq_true. intros [[??] ?].
  by exists h, ch.
Qed.

(** The root element, from the text after the declaration. *)
Lemma read_root h ch (s1 : str) :
  header_ok h = true → forallb node_ok ch = true → tail h = None →
  skip_ws s1 = tostring (Element h ch) →
  (expect [LT] (skip_ws s1)
   ≫= λ s2,
        parse_element (parse_children (length s2)) s2
        ≫= λ '(name, attrs, tx, ch', s3),
             match skip_ws s3 with
             | [] => Some (Element (Header name attrs tx None) ch')
             | _ :: _ => None
             end)
  = Some (Element h ch).
Proof.
  intros Hh Hch Htl ->. unfold tostring. rewrite tostring_element, Htl.
  change (tostring_opt None) with (@nil N).
  replace (expect [LT] (LT :: tag h ++ tostring_attrs (attrib h)
                        ++ written_content h ch ++ []))
    with (Some (tag h ++ tostring_attrs (attrib h)
                ++ written_content h ch ++ []))
    by (symmetry; apply (expect_app [LT])).
  cbn [mbind option_bind].
  rewrite (parse_element_print _ h ch []); [|done|].
  - cbn [mbind option_bind]. rewrite <- Htl. by rewrite header_eta.
  - destruct (name_ok_inv _ (proj1 (header_ok_inv h Hh)))
      as (c & name' & Etag & _).
    destruct ch as [|c1 ch].
    + rewrite Etag. cbn [app length]. apply parse_children_end.
    + apply (forest_ok_reads_back (c1 :: ch) Hch).
      unfold written_content. destruct (text h); lengths.
Qed.

Lemma CR_absent (s : str) : Forall (λ x, x ≠ CR) s → CR ∉ s.
Proof. rewrite Forall_forall. intros H Hin. by apply (H CR). Qed.

(** A tree as the parser builds them, written, is read as the same
    tree, with or without the declaration line in front. *)
Lemma parse_tostring root :
  document_ok root = true →
  parse (tostring root) = Some root
  ∧ parse (DECLARATION_LINE ++ tostring root) = Some root.
Proof.
  intros Hok. pose proof Hok as (h & ch & -> & Hh & Hch & Htl)%document_ok_inv.
  assert (Forall (λ x, x ≠ CR) (tostring (Element h ch))) as Hcr.
  { apply tostring_no_cr. cbn [node_ok]. by rewrite Hh, Hch. }
  destruct (name_ok_inv _ (proj1 (header_ok_inv h Hh)))
    as (c & name' & Etag & Hc & _).
  destruct (name_start_facts c Hc) as (_ & _ & _ & _ & _ & Hq & _).
  assert (∃ s', tostring (Element h ch) = LT :: c :: s') as [s' Es].
  { unfold tostring. rewrite tostring_element, Etag. by eexists. }
  split; unfold parse.
  - rewrite normalize_newlines_id by by apply CR_absent. cbv zeta.
    unfold skip_declaration.
    replace (starts_with (u"<?") (tostring (Element h ch))) with false
      by (rewrite Es; symmetry; by apply starts_with_second).
    cbn [mbind option_bind].
    apply read_root; try done; rewrite Es; by apply skip_ws_stop.
  - rewrite normalize_newlines_id.
    2:{ apply CR_absent, Forall_app. split; [literal|done]. }
    cbv zeta. unfold skip_declaration, DECLARATION_LINE.
    rewrite <- app_assoc.
    replace (starts_with (u"<?")
               (XML_DECLARATION ++ [LF] ++ tostring (Element h ch)))
      with true by by vm_compute.
    rewrite expect_app. cbn [mbind option_bind].
    apply read_root; try done; rewrite Es; by apply skip_ws_one.
Qed.

End ReadBack.

(** * The trees the parser builds *)

Module WellFormed.
Import Xml Spec Canon ReFacts TreeFacts PassFacts Rewriting ParserFacts
  ReadBack.

Ltac literal := apply (bool_decide_unpack _); by vm_compute.

Lemma parse_name_ok s name rest :
  parse_name s = Some (name, rest) → name_ok name = true.
Proof.
  unfold parse_name. destruct (span is_name_char s) as [a b] eqn:E.
  destruct (span_spec _ _ _ _ E) as [_ Ha].
  destruct a as [|c a]; [done|]. destruct (is_name_start c) eqn:Hc; [|done].
  intros [= <- <-]. unfold name_ok. rewrite Hc. by apply forallb_Forall.
Qed.

Lemma parse_entity_ok s d rest :
  parse_entity s = Some (d, rest) →
  is_value_char d = true ∧ ∃ k, rest = drop k s.
Proof.
  unfold parse_entity.
  repeat (destruct (starts_with _ s);
          [intros [= <- <-]; split; [done|by eexists]|]).
  done.
Qed.

Lemma is_value_char_content c :
  is_value_char c = true → is_content_char c = true.
Proof. by intros [? _]%is_value_char_inv. Qed.

(** What comes out of [unescape] are content characters, and value
    characters if no tab and no line end went in. *)
Lemma unescape_ok fuel s t :
  unescape fuel s = Some t →
  chars_ok t = true
  ∧ (Forall (λ x, x ≠ TAB ∧ x ≠ LF) s → value_ok t = true).
Proof.
  revert s t. induction fuel as [|fuel IH]; intros s t.
  { destruct s; [|done]. by intros [= <-]. }
  destruct s as [|c tl]; cbn [unescape]; [by intros [= <-]|].
  case_bool_decide as Hamp.
  - destruct (parse_entity tl) as [[d rest]|] eqn:E; [|done].
    cbn [mbind option_bind].
    destruct (unescape fuel rest) as [t'|] eqn:Et; [|done].
    cbn. intros [= <-]. destruct (IH _ _ Et) as [H1 H2].
    destruct (parse_entity_ok _ _ _ E) as [Hd [k ->]].
    unfold chars_ok, value_ok in *. cbn [forallb].
    rewrite (is_value_char_content d Hd), Hd. split; [done|].
    intros [_ Htl]%Forall_cons. apply H2. by apply Forall_drop.
  - destruct (is_content_char c && negb (bool_decide (c = LT))) eqn:Hc;
      [|done].
    destruct (unescape fuel tl) as [t'|] eqn:Et; [|done].
    cbn. intros [= <-]. destruct (IH _ _ Et) as [H1 H2].
    apply andb_true_iff in Hc as [Hc _].
    unfold chars_ok, value_ok in *. cbn [forallb]. rewrite Hc.
    split; [done|]. intros [[Ht Hl] Htl]%Forall_cons.
    unfold is_value_char. rewrite Hc.
    rewrite !bool_decide_eq_false_2 by done. by apply H2.
Qed.

Lemma parse_text_ok s ot rest :
  parse_text s = Some (ot, rest) → text_ok ot = true.
Proof.
  unfold parse_text. destruct (span _ s) as [raw rest'].
  destruct (occurs _ raw); [done|].
  destruct (unescape (length raw) raw) as [t|] eqn:Et; [|done].
  cbn. intros [= <- <-]. destruct t as [|c t]; [done|].
  cbn [text_ok]. by apply unescape_ok in Et as [-> _].
Qed.

Lemma normalize_attr_chars (raw : str) :
  Forall (λ x, x ≠ TAB ∧ x ≠ LF) (normalize_attr_char <$> raw).
Proof.
  apply Forall_fmap, Forall_true. intros c. cbn. unfold normalize_attr_char.
  destruct (decide (c = TAB)) as [->|H1]; [done|].
  destruct (decide (c = LF)) as [->|H2]; [done|].
  by rewrite !bool_decide_eq_false_2 by done.
Qed.

Lemma parse_attvalue_ok q s v rest :
  parse_attvalue q s = Some (v, rest) → value_ok v = true.
Proof.
  unfold parse_attvalue. destruct (span _ s) as [raw rest'].
  destruct rest' as [|q' rest']; [done|].
  destruct (unescape _ _) as [t|] eqn:Et; [|done].
  cbn. intros [= <- <-]. apply unescape_ok in Et as [_ Hv].
  apply Hv, normalize_attr_chars.
Qed.

Lemma parse_attribute_ok s name v rest :
  parse_attribute s = Some (name, v, rest) →
  name_ok name = true ∧ value_ok v = true.
Proof.
  unfold parse_attribute.
  destruct (parse_name s) as [[name' s1]|] eqn:En; [|done].
  cbn [mbind option_bind]. apply parse_name_ok in En.
  destruct (expect (u"=") (skip_ws s1)) as [s2|]; [|done].
  cbn [mbind option_bind]. destruct (skip_ws s2) as [|q s3]; [done|].
  destruct (_ || _); [|done].
  destruct (parse_attvalue q s3) as [[v' s4]|] eqn:Ev; [|done].
  cbn [mbind option_bind]. apply parse_attvalue_ok in Ev.
  by intros [= <- <- <-].
Qed.

Lemma attrib_ok_intro d :
  NoDup d.*1 → Forall (λ a, name_ok a.1 = true ∧ value_ok a.2 = true) d →
  attrib_ok d = true.
Proof.
  intros Hnd Hall. unfold attrib_ok.
  rewrite bool_decide_eq_true_2 by done. apply forallb_Forall.
  eapply Forall_impl; [exact Hall|]. intros a [-> ->]. done.
Qed.

Lemma parse_attrs_ok fuel s attrs closed rest :
  parse_attrs fuel s = Some (attrs, closed, rest) → attrib_ok attrs = true.
Proof.
  revert s attrs closed rest.
  induction fuel as [|fuel IH]; intros s attrs closed rest; [done|].
  cbn [parse_attrs]. cbv zeta.
  destruct (starts_with (u"/>") (skip_ws s)); [by intros [= <- <- <-]|].
  destruct (starts_with [GT] (skip_ws s)); [by intros [= <- <- <-]|].
  case_bool_decide; [done|].
  destruct (parse_attribute (skip_ws s)) as [[[name v] s2]|] eqn:Ea; [|done].
  cbn [mbind option_bind].
  destruct (parse_attrs fuel s2) as [[[more closed'] s3]|] eqn:Em; [|done].
  cbn [mbind option_bind]. case_bool_decide as Hdup; [done|].
  intros [= <- <- <-]. apply IH in Em. apply parse_attribute_ok in Ea.
  apply attrib_ok_inv in Em as [Hnd Hall]. apply attrib_ok_intro.
  - rewrite fmap_cons. apply NoDup_cons. split; [|done]. cbn [fst].
    intros Hin. apply Hdup.
    destruct (dict_get name more) eqn:Hg; [by eexists|].
    apply dict_get_None in Hg. by destruct Hg.
  - by constructor.
Qed.

Lemma dash_prefix c b rest :
  starts_with (u"--") (c :: b ++ u"-->" ++ rest)
  = starts_with (u"--") (c :: b ++ u"-").
Proof.
  change (u"--") with [45; 45]. destruct b as [|d b].
  - change ([] ++ u"-->" ++ rest) with (45 :: 45 :: 62 :: rest).
    change ([] ++ u"-") with [45]. by rewrite !starts_with_two.
  - cbn [app]. by rewrite !starts_with_two.
Qed.

Lemma parse_comment_ok s body rest :
  parse_comment s = Some (body, rest) →
  s = body ++ u"-->" ++ rest ∧ body_ok body = true.
Proof.
  revert body rest. induction s as [|c tl IH]; intros body rest; [done|].
  cbn [parse_comment].
  destruct (starts_with (u"-->") (c :: tl)) eqn:E1.
  { intros [= <- <-]. split; [|done].
    by apply (starts_with_spec (u"-->")) in E1. }
  destruct (starts_with (u"--") (c :: tl)) eqn:E2; [done|].
  destruct (is_content_char c) eqn:Hc; [|done].
  destruct (parse_comment tl) as [[b r]|] eqn:E; [|done].
  cbn [mbind option_bind]. intros [= <- <-].
  destruct (IH _ _ eq_refl) as [-> Hb]. split; [done|].
  rewrite dash_prefix in E2. unfold body_ok, chars_ok in *.
  cbn [forallb app occurs]. rewrite Hc, E2. exact Hb.
Qed.

Lemma parse_element_ok kids s name attrs tx ch rest :
  (∀ s' nodes rest', kids s' = Some (nodes, rest') →
     forallb node_ok nodes = true) →
  parse_element kids s = Some (name, attrs, tx, ch, rest) →
  name_ok name = true ∧ attrib_ok attrs = true ∧ text_ok tx = true
  ∧ forallb node_ok ch = true.
Proof.
  intros Hkids. unfold parse_element.
  destruct (parse_name s) as [[name' s1]|] eqn:En; [|done].
  cbn [mbind option_bind]. apply parse_name_ok in En.
  destruct (parse_attrs _ s1) as [[[attrs' closed] s2]|] eqn:Ea; [|done].
  cbn [mbind option_bind]. apply parse_attrs_ok in Ea.
  destruct closed; [by intros [= <- <- <- <- <-]|].
  destruct (parse_text s2) as [[t s3]|] eqn:Et; [|done].
  cbn [mbind option_bind]. apply parse_text_ok in Et.
  destruct (kids s3) as [[ch' s4]|] eqn:Ek; [|done].
  cbn [mbind option_bind]. apply Hkids in Ek.
  destruct (parse_end_tag name' s4) as [s5|]; [|done].
  cbn [mbind option_bind]. by intros [= <- <- <- <- <-].
Qed.

Lemma parse_children_ok fuel s nodes rest :
  parse_children fuel s = Some (nodes, rest) → forallb node_ok nodes = true.
Proof.
  revert s nodes rest.
  induction fuel as [|fuel IH]; intros s nodes rest; [done|].
  cbn [parse_children].
  destruct (starts_with (u"</") s); [by intros [= <- <-]|].
  destruct (starts_with (u"<!--") s).
  { destruct (parse_comment (drop 4 s)) as [[body s1]|] eqn:Ec; [|done].
    cbn [mbind option_bind].
    destruct (parse_text s1) as [[t s2]|] eqn:Et; [|done].
    cbn [mbind option_bind].
    destruct (parse_children fuel s2) as [[more s3]|] eqn:Em; [|done].
    cbn [mbind option_bind]. intros [= <- <-].
    apply parse_comment_ok in Ec as [_ Hb]. apply parse_text_ok in Et.
    apply IH in Em. cbn [forallb node_ok]. by rewrite Hb, Et, Em. }
  destruct (expect [LT] s) as [s0|]; [|done]. cbn [mbind option_bind].
  destruct (parse_element (parse_children fuel) s0)
    as [[[[[name attrs] tx] ch] s1]|] eqn:Ee; [|done].
  cbn [mbind option_bind].
  destruct (parse_text s1) as [[t s2]|] eqn:Et; [|done].
  cbn [mbind option_bind].
  destruct (parse_children fuel s2) as [[more s3]|] eqn:Em; [|done].
  cbn [mbind option_bind]. intros [= <- <-].
  apply parse_element_ok in Ee as (Hn & Ha & Htx & Hch); [|exact IH].
  apply parse_text_ok in Et. apply IH in Em.
  cbn [forallb node_ok]. unfold header_ok. cbn [tag attrib text tail].
  by rewrite Hn, Ha, Htx, Et, Hch, Em.
Qed.

(** Every tree [parse] gives is a document. *)
Lemma parse_ok content root :
  parse content = Some root → document_ok root = true.
Proof.
  unfold parse. cbv zeta.
  destruct (skip_declaration _) as [s1|]; [|done]. cbn [mbind option_bind].
  destruct (expect [LT] (skip_ws s1)) as [s2|]; [|done].
  cbn [mbind option_bind].
  destruct (parse_element _ s2) as [[[[[name attrs] tx] ch] s3]|] eqn:Ee;
    [|done].
  cbn [mbind option_bind].
  apply parse_element_ok in Ee as (Hn & Ha & Htx & Hch);
    [|intros ???; apply parse_children_ok].
  destruct (skip_ws s3); [|done]. intros [= <-].
  cbn [document_ok node_ok]. unfold header_ok. cbn [tag attrib text tail].
  by rewrite Hn, Ha, Htx, Hch.
Qed.

End WellFormed.

(** * Running [update_config] on what it wrote *)

Module Stable.
Import Xml Spec Canon ReFacts TreeFacts PassFacts Rewriting ParserFacts
  ReadBack WellFormed Examples.

Ltac literal := apply (bool_decide_unpack _); by vm_compute.

Lemma on_header_ok k n :
  (∀ h, header_ok h = true → header_ok (k h) = true) →
  node_ok n = true → node_ok (on_header k n) = true.
Proof.
  intros Hk. destruct n as [h ch|body t]; [|done]. cbn [on_header node_ok].
  rewrite !andb_true_iff. intros [Hh Hch]. split; [by apply Hk|done].
Qed.

Lemma map_descendants_ok k n :
  (∀ h, header_ok h = true → header_ok (k h) = true) →
  node_ok n = true → node_ok (map_descendants k n) = true.
Proof.
  intros Hk. induction n as [h ch IH|body t] using node_induction; [|done].
  cbn [map_descendants node_ok]. rewrite !andb_true_iff.
  intros [Hh Hch]. split; [done|]. apply forallb_Forall.
  apply forallb_Forall in Hch. apply Forall_fmap.
  induction IH as [|c ch Hc _ IHch]; [constructor|].
  apply Forall_cons in Hch as [H1 H2]. constructor; [|by apply IHch].
  cbn. apply on_header_ok; [done|]. by apply Hc.
Qed.

Lemma map_descendants_document k root :
  (∀ h, header_ok h = true → header_ok (k h) = true) →
  document_ok root = true → document_ok (map_descendants k root) = true.
Proof.
  intros Hk Hok. pose proof Hok as (h & ch & -> & Hh & Hch & Htl)%document_ok_inv.
  assert (node_ok (map_descendants k (Element h ch)) = true) as Hn.
  { apply map_descendants_ok; [done|]. cbn [node_ok]. by rewrite Hh, Hch. }
  cbn [map_descendants document_ok] in *. rewrite Hn.
  by rewrite bool_decide_eq_true_2.
Qed.

Lemma config_header_ok d h :
  Forall (λ e, new_name_ok e.2 = true) d →
  header_ok h = true → header_ok (config_header d h) = true.
Proof.
  intros Hd Hh. unfold config_header. case_bool_decide; [|done].
  unfold rename_text. destruct (text h) as [t|] eqn:Et; [|done].
  cbn [mbind option_bind]. destruct (dict_get t d) as [new|] eqn:Hg; [|done].
  apply dict_get_Some_elem in Hg. rewrite Forall_forall in Hd.
  specialize (Hd _ Hg). cbn [snd] in Hd.
  apply header_ok_inv in Hh as (Hn & Ha & _ & Htl).
  unfold header_ok, set_text. cbn [tag attrib text tail text_ok].
  rewrite Hn, Ha, Htl. unfold new_name_ok in Hd. by rewrite Hd.
Qed.

Lemma config_header_empty h : config_header [] h = h.
Proof.
  unfold config_header, rename_text. case_bool_decide; [|done].
  by destruct (text h).
Qed.

Lemma config_header_twice d h :
  Forall (λ e, dict_get e.2 d = None) d →
  config_header d (config_header d h) = config_header d h.
Proof.
  intros Hd. unfold config_header at 2. case_bool_decide as Ht.
  2:{ unfold config_header. by rewrite bool_decide_eq_false_2. }
  unfold rename_text. destruct (text h) as [t|] eqn:Et.
  2:{ cbn [mbind option_bind]. unfold config_header, rename_text.
      rewrite Et. by case_bool_decide. }
  cbn [mbind option_bind]. destruct (dict_get t d) as [new|] eqn:Hg.
  - unfold config_header, rename_text, set_text. cbn [tag text].
    rewrite bool_decide_eq_true_2 by done. cbn [mbind option_bind].
    pose proof (dict_get_Some_elem _ _ _ Hg) as Hin.
    rewrite Forall_forall in Hd.
    specialize (Hd _ Hin). cbn [snd] in Hd. rewrite Hd, Et.
    cbn [mbind option_bind]. by rewrite Hg.
  - unfold config_header, rename_text. rewrite Et.
    cbn [mbind option_bind]. rewrite Hg. by case_bool_decide.
Qed.

(** A document [parse] has read, written by [tostring], is read back
    as the same tree, with the declaration line in front of it or without;
    and the tree is one of those described by [document_ok]. *)
Theorem written_document_reads_back (content : str) (root : node) :
  parse content = Some root →
  document_ok root = true
  ∧ parse (tostring root) = Some root
  ∧ parse (DECLARATION_LINE ++ tostring root) = Some root.
Proof.
  intros Hok%parse_ok. split; [done|]. by apply parse_tostring.
Qed.

Lemma written_document_reads_back_witness :
  parse (DECLARATION_LINE ++ tostring config_tree) = Some config_tree.
Proof.
  refine (proj2 (proj2 (written_document_reads_back config_xml
                          config_tree _))).
  vm_compute. reflexivity.
Defined.

Lemma config_output_spec d content out :
  Forall (λ e, new_name_ok e.2 = true) d →
  update_config_text d content = Ok out →
  ∃ root,
    parse content = Some root
    ∧ out = DECLARATION_LINE
            ++ tostring (map_descendants (config_header d) root)
    ∧ parse out = Some (map_descendants (config_header d) root).
Proof.
  intros Hd Hout. unfold update_config_text in Hout.
  destruct (parse content) as [root|] eqn:Hp; [|done].
  cbn [or_raise mbind result_bind] in Hout.
  rewrite config_pass_spec in Hout. cbn [or_raise mbind result_bind] in Hout.
  injection Hout as <-. exists root. split; [done|]. split; [done|].
  apply parse_tostring, map_descendants_document.
  - intros h. by apply config_header_ok.
  - by eapply parse_ok.
Qed.

(** What [update_config] writes is a document the program reads again:
    with new names that are not empty and hold characters of XML only, the
    text written is read back as the rewritten tree, and a rewrite of it
    with an empty mapping gives the same text, character by character. *)
Theorem config_output_reads_back (d : dict) (content out : str) :
  Forall (λ e, new_name_ok e.2 = true) d →
  update_config_text d content = Ok out →
  ∃ root,
    parse content = Some root
    ∧ out = DECLARATION_LINE
            ++ tostring (map_descendants (config_header d) root)
    ∧ parse out = Some (map_descendants (config_header d) root)
    ∧ update_config_text [] out = Ok out.
Proof.
  intros Hd Hout.
  destruct (config_output_spec d content out Hd Hout)
    as (root & Hp & -> & Hback).
  exists root. split; [done|]. split; [done|]. split; [exact Hback|].
  rewrite (update_config_text_spec _ _ _ Hback). do 3 f_equal.
  rewrite (map_descendants_ext _ id) by apply config_header_empty.
  apply map_descendants_id.
Qed.

Lemma config_output_reads_back_witness :
  update_config_text []
    (DECLARATION_LINE ++ u"<c><username>bob</username></c>")
  = Ok (DECLARATION_LINE ++ u"<c><username>bob</username></c>").
Proof.
  destruct (config_output_reads_back alice_bob config_xml
              (DECLARATION_LINE ++ u"<c><username>bob</username></c>"))
    as (root & _ & _ & _ & H).
  - literal.
  - vm_compute. reflexivity.
  - exact H.
Defined.

(** A second run of [update_config] with the same mapping changes
    nothing, when no new name of the mapping is an old name of it (and the
    new names are not empty and hold characters of XML only): the text
    written by the first run is written again by the second. *)
Theorem update_config_idempotent (d : dict) (content out : str) :
  Forall (λ e, new_name_ok e.2 = true) d →
  Forall (λ e, dict_get e.2 d = None) d →
  update_config_text d content = Ok out →
  update_config_text d out = Ok out.
Proof.
  intros Hd Hnew Hout.
  destruct (config_output_spec d content out Hd Hout)
    as (root & Hp & -> & Hback).
  rewrite (update_config_text_spec _ _ _ Hback). do 3 f_equal.
  rewrite map_descendants_compose. apply map_descendants_ext.
  intros h. by apply config_header_twice.
Qed.

Lemma update_config_idempotent_witness :
  update_config_text alice_bob
    (DECLARATION_LINE ++ u"<c><username>bob</username></c>")
  = Ok (DECLARATION_LINE ++ u"<c><username>bob</username></c>").
Proof.
  apply (update_config_idempotent alice_bob config_xml).
  - literal.
  - literal.
  - vm_compute. reflexivity.
Defined.

End Stable.
